(** * A shallow embedding of the retrieval pipeline of [src/backend/server.js]

    The development follows the source file top to bottom: JavaScript
    strings and [String.prototype.slice], the chunker [chunkText], the
    JavaScript values an SDK call may return and the embedding gateway
    [embedText], IEEE-754 numbers and [cosineSimilarity], the ranking of
    the [/ask] route, the prompt with its history section, and the two
    routes [/upload] and [/ask] over the process-wide [documents] object
    and its durable copy [storage.json], the listing route [/documents],
    and the chat list that the client keeps. *)

From Stdlib Require Import ZArith Lia List Bool Floats Sorted Permutation.
From Stdlib Require String Ascii.
From stdpp Require Import gmap strings pretty.

Local Open Scope Z_scope.

(** ** JavaScript strings *)

(** A JavaScript string is a sequence of UTF-16 code units; [length] and
    [slice] count code units and never look at their values.  One
    character of a Rocq [string] stands for one code unit. *)
Module JSString.

Definition len (s : string) : Z := Z.of_nat (String.length s).

(** [s.slice(start, end)]: a negative index counts from the end, both
    indices are clamped to [0 .. len], and an empty range gives the
    empty string. *)
Definition clamp (n k : Z) : Z :=
  if k <? 0 then Z.max (n + k) 0 else Z.min k n.

Definition slice (s : string) (start stop : Z) : string :=
  let from := clamp (len s) start in
  let to := clamp (len s) stop in
  String.substring (Z.to_nat from) (Z.to_nat (Z.max (to - from) 0)) s.

(** A string is truthy when it is not empty. *)
Definition truthy (s : string) : bool :=
  match s with EmptyString => false | String _ _ => true end.

(** [xs.join(sep)] on an array of strings. *)
Definition join (sep : string) (xs : list string) : string :=
  String.concat sep xs.

(** The string made of [n] copies of the code unit [c]. *)
Fixpoint replicate (n : nat) (c : Ascii.ascii) : string :=
  match n with
  | O => EmptyString
  | S n' => String c (replicate n' c)
  end.

End JSString.

(** ** Chunking: [chunkText] (lines 79-87) *)

(** The [while] loop is run with fuel: one unit per evaluation of the
    loop condition.  [None] means that the fuel ran out before the
    condition became false. *)
Fixpoint chunkLoop (fuel : nat) (text : string) (chunkSize overlap : Z)
    (i : Z) (chunks : list string) : option (list string) :=
  match fuel with
  | O => None
  | S fuel' =>
      if i <? JSString.len text then
        chunkLoop fuel' text chunkSize overlap
          (i + (chunkSize - overlap))
          (chunks ++ [JSString.slice text i (i + chunkSize)])
      else Some chunks
  end.

Definition chunkText (fuel : nat) (text : string) (chunkSize overlap : Z)
    : option (list string) :=
  chunkLoop fuel text chunkSize overlap 0 [].

(** The default parameters of the source. *)
Definition defaultChunkSize : Z := 800.
Definition defaultOverlap : Z := 200.

(** The value of the loop index [i] when the condition is evaluated for
    the [k]-th time (counting from 0). *)
Definition loopIndex (chunkSize overlap : Z) (k : nat) : Z :=
  Z.of_nat k * (chunkSize - overlap).

(** The window [T[a .. a+size)], cut at the end of the text. *)
Definition window (text : string) (a size : nat) : string :=
  String.substring a size text.

(** [ceil (a / b)] for positive [b]. *)
Definition ceilDiv (a b : Z) : Z := (a + b - 1) / b.

(** The number of chunks produced: [ceil (len / (size - overlap))]. *)
Definition chunkCount (text : string) (chunkSize overlap : Z) : nat :=
  Z.to_nat (ceilDiv (JSString.len text) (chunkSize - overlap)).

(** The chunk count as the specification's testable property words it. *)
Definition specChunkCount (text : string) (chunkSize overlap : Z) : Z :=
  if JSString.len text =? 0 then 0
  else if JSString.len text <? chunkSize then 1
  else ceilDiv (Z.max (JSString.len text - overlap) 0) (chunkSize - overlap).

(** The slices pushed by iterations [j, j+1, ..., j+r-1] of the loop. *)
Definition slicesFrom (text : string) (chunkSize overlap : Z) (j r : nat)
    : list string :=
  map (fun k => JSString.slice text (loopIndex chunkSize overlap k)
                  (loopIndex chunkSize overlap k + chunkSize))
      (seq j r).

(** ** Outcomes of calls that may throw *)

(** What a [throw] (or a rejected promise under [await]) carries. *)
Inductive JSError :=
| Error (message : string)          (* new Error(message) *)
| TypeError (message : string)      (* raised by the language itself *)
| Rejected (reason : string).       (* failure of an external call *)

Inductive Outcome (A : Type) :=
| Returned (a : A)
| Thrown (e : JSError).
Arguments Returned {A} a.
Arguments Thrown {A} e.

(** ** JavaScript values, as far as an SDK response is inspected *)

#[warnings="-register-all"]
Inductive JSValue :=
| JSUndefined
| JSNull
| JSBool (b : bool)
| JSNumber (x : float)
| JSString (s : string)
| JSArray (items : list JSValue)
| JSObject (props : list (string * JSValue))   (* own properties, distinct keys, in enumeration order *)
| JSFunction (name : string).                  (* a built-in function object *)

(** The property names that [embedText] reads. *)
Inductive PropName := P_embedding | P_values | P_data | P_embeddings.

Definition propString (p : PropName) : string :=
  match p with
  | P_embedding => "embedding"
  | P_values => "values"
  | P_data => "data"
  | P_embeddings => "embeddings"
  end.

Fixpoint ownProperty (props : list (string * JSValue)) (key : string) : JSValue :=
  match props with
  | [] => JSUndefined
  | (k, v) :: rest => if String.eqb k key then v else ownProperty rest key
  end.

(** [v.p] for a [v] that is neither [undefined] nor [null].  Of the four
    names only [values] is found on a prototype: [Array.prototype.values]. *)
Definition getProp (v : JSValue) (p : PropName) : JSValue :=
  match v with
  | JSObject props => ownProperty props (propString p)
  | JSArray _ => match p with P_values => JSFunction "values" | _ => JSUndefined end
  | _ => JSUndefined
  end.

(** [v[0]] for a [v] that is neither [undefined] nor [null]. *)
Definition getIndex0 (v : JSValue) : JSValue :=
  match v with
  | JSObject props => ownProperty props "0"
  | JSArray items => match items with [] => JSUndefined | x :: _ => x end
  | JSString s => match s with
                  | EmptyString => JSUndefined
                  | String c _ => JSString (String c EmptyString)
                  end
  | _ => JSUndefined
  end.

(** Optional chaining: [v?.p] and [v?.[0]]. *)
Definition optProp (v : JSValue) (p : PropName) : JSValue :=
  match v with
  | JSUndefined | JSNull => JSUndefined
  | _ => getProp v p
  end.

Definition optIndex0 (v : JSValue) : JSValue :=
  match v with
  | JSUndefined | JSNull => JSUndefined
  | _ => getIndex0 v
  end.

(** ToBoolean. *)
Definition truthy (v : JSValue) : bool :=
  match v with
  | JSUndefined | JSNull => false
  | JSBool b => b
  | JSNumber x => negb (PrimFloat.eqb x 0 || PrimFloat.is_nan x)
  | JSString s => JSString.truthy s
  | JSArray _ | JSObject _ | JSFunction _ => true
  end.

(** The three access paths, in the order the source tries them. *)
Definition pathDirect (response : JSValue) : JSValue :=
  optProp (optProp response P_embedding) P_values.
Definition pathData (response : JSValue) : JSValue :=
  optProp (optIndex0 (optProp response P_data)) P_embedding.
Definition pathEmbeddings (response : JSValue) : JSValue :=
  optProp (optIndex0 (optProp response P_embeddings)) P_values.

(** A flat numeric vector as a JavaScript value. *)
Definition vectorValue (v : list float) : JSValue := JSArray (map JSNumber v).

(** *** [JSON.stringify] with one argument *)

Definition doubleQuote : string := String (Ascii.ascii_of_nat 34) EmptyString.

Definition hexDigit (n : nat) : string :=
  String.substring n 1 "0123456789abcdef".

(** QuoteJSONString, one code unit at a time. *)
Definition escapeUnit (c : Ascii.ascii) : string :=
  match Ascii.nat_of_ascii c with
  | 8%nat => "\b"
  | 9%nat => "\t"
  | 10%nat => "\n"
  | 12%nat => "\f"
  | 13%nat => "\r"
  | 34%nat => "\" +:+ doubleQuote
  | 92%nat => "\\"
  | n => if (n <? 32)%nat
         then "\u00" +:+ hexDigit (n / 16) +:+ hexDigit (n mod 16)
         else String c EmptyString
  end.

Fixpoint escapeUnits (s : string) : string :=
  match s with
  | EmptyString => EmptyString
  | String c rest => escapeUnit c +:+ escapeUnits rest
  end.

Definition quoteJSON (s : string) : string :=
  doubleQuote +:+ escapeUnits s +:+ doubleQuote.

Section Stringify.
(** Number::toString for a finite number (the shortest decimal that
    reads back as the same double) is taken as given. *)
Variable numberToString : float -> string.

(** [None] is the result [undefined]. *)
Fixpoint stringify (v : JSValue) : option string :=
  match v with
  | JSUndefined | JSFunction _ => None
  | JSNull => Some "null"
  | JSBool true => Some "true"
  | JSBool false => Some "false"
  | JSNumber x => Some (if PrimFloat.is_finite x then numberToString x else "null")
  | JSString s => Some (quoteJSON s)
  | JSArray items =>
      Some ("[" +:+
            JSString.join ","
              (map (fun item => match stringify item with
                                | Some t => t
                                | None => "null"
                                end) items)
            +:+ "]")
  | JSObject props =>
      Some ("{" +:+
            JSString.join ","
              (omap (fun kv => match stringify (snd kv) with
                               | Some t => Some (quoteJSON (fst kv) +:+ ":" +:+ t)
                               | None => None
                               end) props)
            +:+ "}")
  end.

(** ** The embedding gateway: [embedText] (lines 90-100) *)

Definition shapeErrorPrefix : string := "Unexpected embedding response shape: ".

(** [call] is the outcome of [await embedModel.embedContent(text)]. *)
Definition embedText (call : Outcome JSValue) : Outcome JSValue :=
  match call with
  | Thrown e => Thrown e
  | Returned response =>
      if truthy (pathDirect response) then Returned (pathDirect response)
      else if truthy (pathData response) then Returned (pathData response)
      else if truthy (pathEmbeddings response) then Returned (pathEmbeddings response)
      else match stringify response with
           | Some dump =>
               Thrown (Error (shapeErrorPrefix +:+ JSString.slice dump 0 200))
           | None =>
               Thrown (TypeError "Cannot read properties of undefined (reading 'slice')")
           end
  end.
End Stringify.

(** The three recognised shapes, as the specification names them: the
    vector [v] sits in a direct vector field, in the first entry of a
    list of results, or in the first entry of a list of embeddings. *)
Definition hasDirectVector (response : JSValue) (v : list float) : Prop :=
  exists props inner,
    response = JSObject props
    /\ ownProperty props "embedding" = JSObject inner
    /\ ownProperty inner "values" = vectorValue v.

Definition hasResultList (response : JSValue) (v : list float) : Prop :=
  exists props first others,
    response = JSObject props
    /\ ownProperty props "data" = JSArray (JSObject first :: others)
    /\ ownProperty first "embedding" = vectorValue v.

Definition hasEmbeddingList (response : JSValue) (v : list float) : Prop :=
  exists props first others,
    response = JSObject props
    /\ ownProperty props "embeddings" = JSArray (JSObject first :: others)
    /\ ownProperty first "values" = vectorValue v.

(** The values [JSON.stringify] has a text for. *)
Definition serialisable (v : JSValue) : Prop :=
  match v with
  | JSUndefined | JSFunction _ => False
  | _ => True
  end.

(** ** Numbers and [cosineSimilarity] (lines 102-108) *)

(** A JavaScript number is an IEEE-754 binary64 value with one NaN, which
    is what [PrimFloat.float] is; [===] on numbers is [PrimFloat.eqb],
    every arithmetic operation rounds to nearest, ties to even, and
    [Math.sqrt] is the correctly rounded square root that the engines
    compute. *)

(** [xs.reduce((s, x, i) => f(s, x, i), init)]. *)
Fixpoint reduceFrom {A B : Type} (f : B -> A -> nat -> B) (i : nat)
    (xs : list A) (s : B) : B :=
  match xs with
  | [] => s
  | x :: rest => reduceFrom f (S i) rest (f s x i)
  end.

Definition reduce {A B : Type} (f : B -> A -> nat -> B) (xs : list A) (init : B) : B :=
  reduceFrom f 0 xs init.

(** [b[i]] used as a number: a missing element is [undefined], and
    [undefined] in a product is NaN. *)
Definition numberAt (b : list float) (i : nat) : float := nth i b nan.

Definition dotProduct (a b : list float) : float :=
  reduce (fun s ai i => (s + ai * numberAt b i)%float) a 0%float.

Definition sumSquares (v : list float) : float :=
  reduce (fun s x (_ : nat) => (s + x * x)%float) v 0%float.

Definition magnitude (v : list float) : float :=
  PrimFloat.sqrt (sumSquares v).

Definition cosineSimilarity (a b : list float) : float :=
  let dot := dotProduct a b in
  let na := magnitude a in
  let nb := magnitude b in
  if PrimFloat.eqb na 0 || PrimFloat.eqb nb 0 then 0%float
  else (dot / (na * nb))%float.

(** *** Vocabulary for the facts on binary64 numbers *)

(** The sign-carrying results: finite non-zero or infinite, of sign [s]. *)
Definition signedSF (s : bool) (r : spec_float) : Prop :=
  match r with
  | S754_finite s' _ _ | S754_infinity s' => s' = s
  | _ => False
  end.

(** The value of a finite number, scaled by [2 ^ (- ez)]. *)
Definition scaledValue (s : bool) (m : positive) (e ez : Z) : Z :=
  cond_Zopp s (Z.pos m * 2 ^ (e - ez)).

(** The results that are not negative: a zero, an infinity or a finite
    number of positive sign, or NaN. *)
Definition nonnegSF (r : spec_float) : Prop :=
  match r with
  | S754_zero s | S754_infinity s | S754_finite s _ _ => s = false
  | S754_nan => True
  end.

(** The two guard bits after [k] shifts of an exact mantissa [mx]: the
    round bit says whether the part shifted out reaches half of
    [2 ^ k], the sticky bit whether it differs from 0 and from that
    half. *)
Definition shifted (mx k : Z) (mrs : shr_record) : Prop :=
  shr_m mrs = mx / 2 ^ k
  /\ shr_r mrs = (2 ^ k <=? 2 * (mx mod 2 ^ k))
  /\ shr_s mrs = negb ((2 * (mx mod 2 ^ k)) mod 2 ^ k =? 0).

(** ** Data model of the store (line 27) *)

(** The embedding of a chunk is what [embedText] resolved to, taken to
    be an array of numbers, as the embedding capability promises. *)
Record Chunk := { chunk_text : string; chunk_embedding : list float }.

Record HistoryEntry := { h_q : string; h_a : string; h_createdAt : Z }.

Record Document := {
  doc_filename : string;
  doc_chunks : list Chunk;
  doc_history : list HistoryEntry;
  doc_createdAt : Z
}.

(** ** Ranking in [/ask] (lines 188-196) *)

Record Scored := { scored_text : string; scored_score : float }.

(** [(a, b) => b.score - a.score] *)
Definition byScoreDesc (a b : Scored) : float :=
  (scored_score b - scored_score a)%float.

(** *** [Array.prototype.sort] with a comparator

    The language fixes the result of [xs.sort(cmp)] only when [cmp] is
    a consistent comparison function for the elements of [xs]; for any
    other comparator the order is left to the implementation, and only
    a reordering of the elements is promised.  The engine's sort is
    therefore a parameter of the model, and what the language promises
    of it is the predicate [conformingSort].

    A comparator result [v] orders [a] before [b] when [v < 0] and after
    [b] when [v > 0]; a result that is neither (a zero, or NaN, which
    counts as [+0]) makes [a] and [b] compare equal. *)
Definition EngineSort : Type :=
  (Scored -> Scored -> float) -> list Scored -> list Scored.

Section SortContract.
Variable cmp : Scored -> Scored -> float.

Definition cmpLt (a b : Scored) : bool := PrimFloat.ltb (cmp a b) 0.
Definition cmpGt (a b : Scored) : bool := PrimFloat.ltb 0 (cmp a b).
Definition cmpEq (a b : Scored) : bool := negb (cmpLt a b) && negb (cmpGt a b).

(** A consistent comparison function for the elements of [l]. *)
Definition consistentOn (l : list Scored) : Prop :=
  forall a b c : Scored, In a l -> In b l -> In c l ->
    cmpEq a a = true
    /\ (cmpEq a b = true -> cmpEq b a = true)
    /\ (cmpEq a b = true -> cmpEq b c = true -> cmpEq a c = true)
    /\ (cmpLt a b = true -> cmpLt b c = true -> cmpLt a c = true)
    /\ (cmpGt a b = true -> cmpGt b c = true -> cmpGt a c = true).

(** [x] may stand in front of [y]. *)
Definition mayPrecede (x y : Scored) : Prop := cmpLt y x = false.

(** No element comes after one that the comparator orders behind it. *)
Definition sortedBy (out : list Scored) : Prop :=
  forall (i j : nat) (x y : Scored),
    (i < j)%nat -> out !! i = Some x -> out !! j = Some y -> cmpLt y x = false.

(** Elements that compare equal keep their original order. *)
Definition stableBy (l out : list Scored) : Prop :=
  forall a : Scored, In a l -> List.filter (cmpEq a) out = List.filter (cmpEq a) l.
End SortContract.

Definition conformingSort (sort : EngineSort) : Prop :=
  forall (cmp : Scored -> Scored -> float) (l : list Scored),
    Permutation (sort cmp l) l
    /\ (consistentOn cmp l ->
        sortedBy cmp (sort cmp l) /\ stableBy cmp l (sort cmp l)).

(** Stable insertion from the right: what every conforming sort returns
    for a consistent comparator, and one conforming sort itself (lemma
    [sortBy_conforming]); it stands for the engine in the worked
    examples. *)
Fixpoint insertBy {A : Type} (cmp : A -> A -> float) (x : A) (sorted : list A) : list A :=
  match sorted with
  | [] => [x]
  | y :: rest =>
      if PrimFloat.ltb 0 (cmp x y) then y :: insertBy cmp x rest
      else x :: y :: rest
  end.

Definition sortBy {A : Type} (cmp : A -> A -> float) (xs : list A) : list A :=
  fold_right (insertBy cmp) [] xs.

Definition scoreChunks (qVec : list float) (chunks : list Chunk) : list Scored :=
  map (fun c => {| scored_text := chunk_text c;
                   scored_score := cosineSimilarity qVec (chunk_embedding c) |})
      chunks.

(** [scored.sort((a, b) => b.score - a.score)] on the scored chunks. *)
Definition rankChunks (sort : EngineSort) (qVec : list float) (chunks : list Chunk)
    : list Scored :=
  sort byScoreDesc (scoreChunks qVec chunks).

(** Vocabulary of the ranking results: a score that is a number, the
    order [a.score >= b.score] on neighbours, and the chunks whose score
    is [===] to a given one. *)
Definition notNaN (c : Scored) : Prop :=
  PrimFloat.is_nan (scored_score c) = false.

Definition scoreGe (a b : Scored) : Prop :=
  PrimFloat.leb (scored_score b) (scored_score a) = true.

Definition descending (ranked : list Scored) : Prop :=
  forall (i : nat) (x y : Scored),
    ranked !! i = Some x -> ranked !! S i = Some y -> scoreGe x y.

Definition sameScore (s : float) (c : Scored) : bool :=
  PrimFloat.eqb (scored_score c) s.

Definition TOP_K : nat := 4.

(** ** Arrays: [slice] *)

Module JSArray.
Definition len {A : Type} (xs : list A) : Z := Z.of_nat (List.length xs).

(** [xs.slice(start)] *)
Definition slice_from {A : Type} (xs : list A) (start : Z) : list A :=
  skipn (Z.to_nat (JSString.clamp (len xs) start)) xs.

(** [xs.slice(0, k)] for a constant [k >= 0]. *)
Definition slice_to {A : Type} (xs : list A) (k : nat) : list A :=
  firstn k xs.
End JSArray.

(** ** The prompt (lines 196-214) *)

Definition nl : string := String (Ascii.ascii_of_nat 10) EmptyString.

Definition topChunks (scored : list Scored) : string :=
  JSString.join (nl +:+ nl +:+ "---" +:+ nl +:+ nl)
    (map scored_text (JSArray.slice_to scored TOP_K)).

(** [h => `Q: ${h.q}\nA: ${h.a}`] *)
Definition renderEntry (h : HistoryEntry) : string :=
  "Q: " +:+ h_q h +:+ nl +:+ "A: " +:+ h_a h.

Definition HISTORY_WINDOW : Z := 6.

Definition recentHistory (history : list HistoryEntry) : string :=
  JSString.join (nl +:+ nl)
    (map renderEntry (JSArray.slice_from history (- HISTORY_WINDOW))).

(** [${recentHistory || "None"}] *)
Definition historySection (history : list HistoryEntry) : string :=
  if JSString.truthy (recentHistory history) then recentHistory history else "None".

Definition promptInstruction : string :=
  "You are a helpful assistant. Answer the user's question using ONLY the provided document content and any previous short Q&A history. If the answer isn't in the document, say you don't know and suggest where to look.".

Definition promptClosing : string :=
  "Answer concisely and clearly. If you cite parts of the document, indicate short quotes or paraphrases and include no invented facts.".

Definition buildPrompt (excerpts section question : string) : string :=
  nl +:+ promptInstruction +:+ nl +:+ nl +:+
  "Document excerpts (most relevant first):" +:+ nl +:+
  excerpts +:+ nl +:+ nl +:+
  "Previous short Q&A history (if any):" +:+ nl +:+
  section +:+ nl +:+ nl +:+
  "User question:" +:+ nl +:+
  question +:+ nl +:+ nl +:+
  promptClosing +:+ nl.

Definition askPrompt (sort : EngineSort) (doc : Document) (qVec : list float)
    (question : string) : string :=
  buildPrompt (topChunks (rankChunks sort qVec (doc_chunks doc)))
              (historySection (doc_history doc))
              question.

(** The most recent [k] elements, oldest first. *)
Definition lastN {A : Type} (k : nat) (xs : list A) : list A :=
  skipn (List.length xs - k) xs.

(** ** The server: store, durable copy and the two routes *)

(** [documents] is the process-wide object; [storage] is what
    [storage.json] holds: the store as last written, if the file exists. *)
Record Server := {
  documents : gmap string Document;
  storage : option (gmap string Document)
}.

(** [saveDocuments] (lines 38-40).  [write] is the outcome of
    [fs.writeFileSync]; a write that throws is taken to leave the file
    as it was. *)
Definition saveDocuments (write : Outcome unit) (st : Server) : Server * Outcome unit :=
  match write with
  | Returned _ =>
      ({| documents := documents st; storage := Some (documents st) |}, Returned tt)
  | Thrown e => (st, Thrown e)
  end.

(** The durable copy agrees with the store. *)
Definition inSync (st : Server) : Prop := storage st = Some (documents st).

Inductive Body :=
| UploadOk (docId filename : string) (chunksCount : nat)
| AskOk (answer : string) (history : list HistoryEntry)
| Failure (error : string) (detail : option JSError).

Record Response := { status : Z; body : Body }.

(** [success: true] goes with the default status 200. *)
Definition succeeded (r : Response) : bool :=
  match body r with
  | UploadOk _ _ _ | AskOk _ _ => true
  | Failure _ _ => false
  end.

Definition failure (code : Z) (error : string) (detail : option JSError) : Response :=
  {| status := code; body := Failure error detail |}.

(** *** [/upload] (lines 113-160) *)

(** [chunkText(text)] with the default parameters.  The loop finishes
    within [len + 1] evaluations of its condition (lemma
    [chunkTextDefault_run]), so the [None] branch is never taken. *)
Definition chunkTextDefault (text : string) : list string :=
  match chunkText (S (String.length text)) text defaultChunkSize defaultOverlap with
  | Some chunks => chunks
  | None => []
  end.

(** The [for ... of] loop of lines 136-139: one embedding call per chunk,
    in order; the first one that throws ends the loop.  [embed k c] is
    the outcome of the [k]-th call [await embedText(c)], whose value is
    an array of numbers. *)
Fixpoint embedChunks (embed : nat -> string -> Outcome (list float)) (k : nat)
    (rawChunks : list string) (embeddedChunks : list Chunk) : Outcome (list Chunk) :=
  match rawChunks with
  | [] => Returned embeddedChunks
  | c :: rest =>
      match embed k c with
      | Thrown e => Thrown e
      | Returned vec =>
          embedChunks embed (S k) rest
            (embeddedChunks ++ [{| chunk_text := c; chunk_embedding := vec |}])
      end
  end.

(** The uploaded file as multer hands it over; [ext] is
    [path.extname(originalname).toLowerCase()]. *)
Record UploadedFile := { originalname : string; ext : string }.

(** What the outside world answers during one upload request. *)
Record UploadEnv := {
  up_extract : Outcome string;      (* extractPdf / extractDocx / readFileSync *)
  up_unlink : Outcome unit;         (* fs.unlinkSync in the unsupported-type branch *)
  up_embed : nat -> string -> Outcome (list float);
  up_nowId : Z;                     (* Date.now() of line 141 *)
  up_nowCreated : Z;                (* Date.now() of line 146 *)
  up_write : Outcome unit           (* fs.writeFileSync *)
}.

(** The document that a successful upload stores. *)
Definition uploadedDocument (env : UploadEnv) (f : UploadedFile)
    (embeddedChunks : list Chunk) : Document :=
  {| doc_filename := originalname f;
     doc_chunks := embeddedChunks;
     doc_history := [];
     doc_createdAt := up_nowCreated env |}.

Definition supportedExt (e : string) : bool :=
  String.eqb e ".pdf" || String.eqb e ".docx" || String.eqb e ".doc" || String.eqb e ".txt".

Definition uploadFailed (e : JSError) : Response :=
  failure 500 "Upload failed" (Some e).

(** The id the upload will use: [Date.now().toString()]. *)
Definition docIdOf (now : Z) : string := pretty now.

Definition upload (env : UploadEnv) (st : Server) (file : option UploadedFile)
    : Server * Response :=
  match file with
  | None => (st, failure 400 "No file uploaded" None)
  | Some f =>
      if negb (supportedExt (ext f)) then
        match up_unlink env with
        | Thrown e => (st, uploadFailed e)
        | Returned _ => (st, failure 400 "Unsupported file type" None)
        end
      else
        match up_extract env with
        | Thrown e => (st, uploadFailed e)
        | Returned text =>
            let rawChunks := chunkTextDefault text in
            match embedChunks (up_embed env) 0 rawChunks [] with
            | Thrown e => (st, uploadFailed e)
            | Returned embeddedChunks =>
                let docId := docIdOf (up_nowId env) in
                let st1 :=
                  {| documents :=
                       <[docId := uploadedDocument env f embeddedChunks]> (documents st);
                     storage := storage st |} in
                match saveDocuments (up_write env) st1 with
                | (st2, Thrown e) => (st2, uploadFailed e)
                | (st2, Returned _) =>
                    (st2, {| status := 200;
                             body := UploadOk docId (originalname f)
                                       (List.length embeddedChunks) |})
                end
            end
        end
  end.

(** *** [/ask] (lines 175-242) *)

(** The two members of a parsed JSON body that the handler reads, each a
    string or absent.  [AskBody], after the handler, covers a request
    without a parsed body and a question that is not a string. *)
Record AskRequest := { question : option string; docId : option string }.

(** What one request takes from outside the handler: the engine's
    [Array.prototype.sort] and the answers of the outside world. *)
Record AskEnv := {
  ask_sort : EngineSort;                        (* scored.sort(...) of line 192 *)
  ask_embed : string -> Outcome (list float);   (* await embedText(question) *)
  ask_generate : string -> Outcome string;      (* generateContent(prompt), reduced to rawAnswer *)
  ask_now : Z;                                  (* Date.now() of line 233 *)
  ask_write : Outcome unit                      (* fs.writeFileSync *)
}.

(** White space that [trim] removes, among the code units below 256. *)
Definition isWhiteSpace (c : Ascii.ascii) : bool :=
  match Ascii.nat_of_ascii c with
  | 9%nat | 10%nat | 11%nat | 12%nat | 13%nat | 32%nat | 160%nat => true
  | _ => false
  end.

(** [!s.trim()] *)
Fixpoint blank (s : string) : bool :=
  match s with
  | EmptyString => true
  | String c rest => isWhiteSpace c && blank rest
  end.

(** Names that every object inherits from [Object.prototype]: reading
    them on [documents] gives a truthy value that is no document. *)
Definition objectPrototypeNames : list string :=
  [ "constructor"; "__defineGetter__"; "__defineSetter__"; "hasOwnProperty";
    "__lookupGetter__"; "__lookupSetter__"; "isPrototypeOf";
    "propertyIsEnumerable"; "toString"; "valueOf"; "__proto__";
    "toLocaleString" ].

Inductive Lookup :=
| Own (doc : Document)
| Inherited
| Missing.

(** [documents[docId]] *)
Definition lookupDocument (docs : gmap string Document) (id : string) : Lookup :=
  match docs !! id with
  | Some doc => Own doc
  | None => if existsb (String.eqb id) objectPrototypeNames then Inherited else Missing
  end.

Definition askFailed (e : JSError) : Response :=
  failure 500 "Q&A failed" (Some e).

(** The document after [doc.history.push(entry)]. *)
Definition withEntry (doc : Document) (entry : HistoryEntry) : Document :=
  {| doc_filename := doc_filename doc;
     doc_chunks := doc_chunks doc;
     doc_history := doc_history doc ++ [entry];
     doc_createdAt := doc_createdAt doc |}.

(** [doc.history.push(entry)]: [doc] is the object held by [documents],
    so the store sees the new entry at once. *)
Definition pushHistory (st : Server) (id : string) (doc : Document)
    (entry : HistoryEntry) : Server :=
  {| documents := <[id := withEntry doc entry]> (documents st);
     storage := storage st |}.

Definition ask (env : AskEnv) (st : Server) (req : AskRequest) : Server * Response :=
  match question req with
  | None => (st, failure 400 "No question provided" None)
  | Some q =>
      if blank q then (st, failure 400 "No question provided" None)
      else
        match docId req with
        | None => (st, failure 400 "Invalid or missing docId" None)
        | Some id =>
            if negb (JSString.truthy id)
            then (st, failure 400 "Invalid or missing docId" None)
            else
              match lookupDocument (documents st) id with
              | Missing => (st, failure 400 "Invalid or missing docId" None)
              | Inherited =>
                  match ask_embed env q with
                  | Thrown e => (st, askFailed e)
                  | Returned _ =>
                      (st, askFailed
                             (TypeError "Cannot read properties of undefined (reading 'map')"))
                  end
              | Own doc =>
                  match ask_embed env q with
                  | Thrown e => (st, askFailed e)
                  | Returned qVec =>
                      match ask_generate env (askPrompt (ask_sort env) doc qVec q) with
                      | Thrown e => (st, askFailed e)
                      | Returned rawAnswer =>
                          let entry := {| h_q := q; h_a := rawAnswer;
                                          h_createdAt := ask_now env |} in
                          let st1 := pushHistory st id doc entry in
                          match saveDocuments (ask_write env) st1 with
                          | (st2, Thrown e) => (st2, askFailed e)
                          | (st2, Returned _) =>
                              (st2, {| status := 200;
                                       body := AskOk rawAnswer
                                                 (doc_history doc ++ [entry]) |})
                          end
                      end
                  end
              end
        end
  end.

(** A run of [/ask] requests, one after the other. *)
Fixpoint runAsks (st : Server) (reqs : list (AskEnv * AskRequest))
    : Server * list Response :=
  match reqs with
  | [] => (st, [])
  | (env, req) :: rest =>
      let '(st1, r) := ask env st req in
      let '(st2, rs) := runAsks st1 rest in
      (st2, r :: rs)
  end.

(** ** The request body of [/ask] (lines 177-178) *)

(** [question] as the handler tests it.  A parsed JSON body holds no
    function, so a truthy value that is not a string has no method
    [trim]. *)
Inductive BodyQuestion :=
| QuestionFalsy                 (* absent, [null], [false] or [0] *)
| QuestionString (q : string)
| QuestionOther.                (* [true], a non-zero number, an array, an object *)

(** [req.body]: [undefined] when no JSON was parsed, otherwise an object;
    its [docId] is taken to be a string or absent, as in [AskRequest]. *)
Inductive AskBody :=
| NoBody
| JsonBody (question : BodyQuestion) (docId : option string).

(** The request that the handler goes on with, when lines 177 and 178
    do not throw. *)
Definition bodyRequest (b : AskBody) : option AskRequest :=
  match b with
  | JsonBody QuestionFalsy d => Some {| question := None; docId := d |}
  | JsonBody (QuestionString q) d => Some {| question := Some q; docId := d |}
  | NoBody | JsonBody QuestionOther _ => None
  end.

Definition askBody (env : AskEnv) (st : Server) (b : AskBody) : Server * Response :=
  match b with
  | NoBody =>
      (st, askFailed
             (TypeError "Cannot destructure property 'question' of 'req.body' as it is undefined."))
  | JsonBody QuestionFalsy d => ask env st {| question := None; docId := d |}
  | JsonBody (QuestionString q) d => ask env st {| question := Some q; docId := d |}
  | JsonBody QuestionOther _ =>
      (st, askFailed (TypeError "question.trim is not a function"))
  end.

(** ** Requests that [/ask] turns away (lines 178-179) *)

(** The question is missing, empty or blank. *)
Definition noQuestion (req : AskRequest) : Prop :=
  match question req with
  | None => True
  | Some q => blank q = true
  end.

(** The id is missing or empty, or [documents[docId]] is [undefined]:
    nothing is stored under the id and [Object.prototype] has no member
    of that name either. *)
Definition noDocument (st : Server) (req : AskRequest) : Prop :=
  match docId req with
  | None => True
  | Some id =>
      JSString.truthy id = false
      \/ (documents st !! id = None /\ ~ In id objectPrototypeNames)
  end.

(** ** The listing route [/documents] (lines 163-172) *)

Record Summary := {
  sum_filename : string;
  sum_chunksCount : nat;
  sum_historyCount : nat;
  sum_createdAt : Z
}.

Definition summarise (d : Document) : Summary :=
  {| sum_filename := doc_filename d;
     sum_chunksCount := List.length (doc_chunks d);
     sum_historyCount := List.length (doc_history d);
     sum_createdAt := doc_createdAt d |}.

(** The [docs] of the response, keyed by [docId].  The response is an
    array in the enumeration order of the keys of [documents]; that
    order is not part of this model. *)
Definition listDocuments (st : Server) : gmap string Summary :=
  summarise <$> documents st.

(** ** The chat list of the client (lines 302-310) *)

Record Message := { msg_sender : string; msg_text : string }.

Record Chat := {
  chat_id : string;
  chat_title : string;
  chat_messages : list Message;
  chat_createdAt : Z
}.

(** [c.id === activeChatId], where [activeChatId] may be [null]. *)
Definition isActive (activeChatId : option string) (c : Chat) : bool :=
  match activeChatId with
  | Some id => String.eqb (chat_id c) id
  | None => false
  end.

(** [chats.find((c) => c.id === activeChatId)] *)
Definition activeChat (chats : list Chat) (activeChatId : option string) : option Chat :=
  List.find (isActive activeChatId) chats.

Definition withMessage (c : Chat) (msg : Message) : Chat :=
  {| chat_id := chat_id c;
     chat_title := chat_title c;
     chat_messages := chat_messages c ++ [msg];
     chat_createdAt := chat_createdAt c |}.

(** The state update of [appendMessage]:
    [prev.map((c) => c.id === activeChatId ? {...c, messages: [...c.messages, msg]} : c)] *)
Definition appendMessage (activeChatId : option string) (msg : Message)
    (prev : list Chat) : list Chat :=
  map (fun c => if isActive activeChatId c then withMessage c msg else c) prev.

(** ** Sample data for the worked examples *)

Definition sampleFile : UploadedFile :=
  {| originalname := "notes.txt"; ext := ".txt" |}.

(** An upload of the text [AAAABBBB] at clock reading [now]. *)
Definition sampleUploadEnv (now : Z) (embed : Outcome (list float))
    (write : Outcome unit) : UploadEnv :=
  {| up_extract := Returned "AAAABBBB";
     up_unlink := Returned tt;
     up_embed := fun _ _ => embed;
     up_nowId := now;
     up_nowCreated := now;
     up_write := write |}.

Definition sampleDocument : Document :=
  {| doc_filename := "old.txt";
     doc_chunks := [ {| chunk_text := "old"; chunk_embedding := [1%float] |} ];
     doc_history := [ {| h_q := "q0"; h_a := "a0"; h_createdAt := 6 |} ];
     doc_createdAt := 5 |}.

(** A server that holds [sampleDocument] under the id [5], saved. *)
Definition sampleServer : Server :=
  {| documents := {[ "5" := sampleDocument ]};
     storage := Some {[ "5" := sampleDocument ]} |}.

Definition sampleAskEnv (answer : string) (write : Outcome unit) : AskEnv :=
  {| ask_sort := sortBy;
     ask_embed := fun _ => Returned [1%float];
     ask_generate := fun _ => Returned answer;
     ask_now := 7;
     ask_write := write |}.

Definition sampleAskRequest (q : string) : AskRequest :=
  {| question := Some q; docId := Some "5" |}.

Definition sampleEntry (k : Z) : HistoryEntry :=
  {| h_q := "q" +:+ pretty k; h_a := "a" +:+ pretty k; h_createdAt := k |}.

(** Eight question/answer pairs, oldest first. *)
Definition sampleHistory : list HistoryEntry :=
  map sampleEntry [1; 2; 3; 4; 5; 6; 7; 8].

(** A server whose only document has no history yet, and a run of eight
    answered questions on it. *)
Definition freshDocument : Document :=
  {| doc_filename := "new.txt";
     doc_chunks := [ {| chunk_text := "AAAA"; chunk_embedding := [1%float] |} ];
     doc_history := [];
     doc_createdAt := 5 |}.

Definition freshServer : Server :=
  {| documents := {[ "5" := freshDocument ]};
     storage := Some {[ "5" := freshDocument ]} |}.

Definition sampleRun : list (AskEnv * AskRequest) :=
  map (fun k => (sampleAskEnv ("a" +:+ pretty k) (Returned tt),
                 sampleAskRequest ("q" +:+ pretty k)))
      [1; 2; 3; 4; 5; 6; 7; 8].

(** A response that carries its vector directly under [embedding]. *)
Definition sampleArrayResponse : JSValue :=
  JSObject [("embedding", vectorValue [1%float; 2%float])].

(** A response that carries its vector directly as the first entry of
    [data]. *)
Definition sampleListResponse : JSValue :=
  JSObject [("data", JSArray [vectorValue [1%float; 2%float]])].

(** A query of two dimensions against a stored chunk of one dimension
    and a stored chunk of two. *)
Definition sampleQuery : list float := [3%float; 4%float].

Definition sampleChunks : list Chunk :=
  [ {| chunk_text := "short"; chunk_embedding := [3%float] |};
    {| chunk_text := "full"; chunk_embedding := [3%float; 4%float] |} ].

(** Five stored chunks of two dimensions, for the query [sampleQuery]. *)
Definition sampleCorpus : list Chunk :=
  [ {| chunk_text := "c1"; chunk_embedding := [4%float; 3%float] |};
    {| chunk_text := "c2"; chunk_embedding := [3%float; 4%float] |};
    {| chunk_text := "c3"; chunk_embedding := [0%float; 1%float] |};
    {| chunk_text := "c4"; chunk_embedding := [1%float; 0%float] |};
    {| chunk_text := "c5"; chunk_embedding := [1%float; 1%float] |} ].

(** Two documents with the same chunks: one with the eight entries of
    [sampleHistory], one with another name and only the last six of
    them, stamped with another time. *)
Definition longHistoryDocument : Document :=
  {| doc_filename := "long.txt";
     doc_chunks := sampleChunks;
     doc_history := sampleHistory;
     doc_createdAt := 5 |}.

Definition shortHistoryDocument : Document :=
  {| doc_filename := "short.txt";
     doc_chunks := sampleChunks;
     doc_history :=
       map (fun k => {| h_q := "q" +:+ pretty k; h_a := "a" +:+ pretty k;
                        h_createdAt := 0 |})
           [3; 4; 5; 6; 7; 8];
     doc_createdAt := 9 |}.

(** An embedding service that is out of quota. *)
Definition failingAskEnv : AskEnv :=
  {| ask_sort := sortBy;
     ask_embed := fun _ => Thrown (Error "quota");
     ask_generate := fun _ => Returned "a";
     ask_now := 7;
     ask_write := Returned tt |}.

Definition sampleImage : UploadedFile :=
  {| originalname := "photo.png"; ext := ".png" |}.

(** Two chats, the newer one first, and a message of the user. *)
Definition sampleChats : list Chat :=
  [ {| chat_id := "2"; chat_title := "New Chat"; chat_messages := [];
       chat_createdAt := 2 |};
    {| chat_id := "1"; chat_title := "Welcome";
       chat_messages := [ {| msg_sender := "bot"; msg_text := "hello" |} ];
       chat_createdAt := 1 |} ].

Definition sampleMessage : Message :=
  {| msg_sender := "user"; msg_text := "hi" |}.

(** *** Strings: length and truncation of [substring] *)

Lemma substring_length (s : string) (n m : nat) :
  String.length (String.substring n m s) = Nat.min m (String.length s - n).
Proof.
  revert n m. induction s as [|c s IH]; intros n m.
  - destruct n, m; reflexivity.
  - destruct n as [|n].
    + destruct m as [|m]; simpl; [reflexivity|].
      rewrite IH. rewrite Nat.sub_0_r. reflexivity.
    + simpl. apply IH.
Qed.

Lemma substring_truncate (s : string) (n m : nat) :
  String.substring n (Nat.min m (String.length s - n)) s = String.substring n m s.
Proof.
  revert n m. induction s as [|c s IH]; intros n m.
  - destruct n, m; reflexivity.
  - destruct n as [|n].
    + destruct m as [|m]; simpl; [reflexivity|].
      f_equal. specialize (IH O m). rewrite Nat.sub_0_r in IH. exact IH.
    + simpl. apply IH.
Qed.

(** Inside the loop the slice is the window that starts at [i]. *)
Lemma slice_window (text : string) (i size : Z) :
  0 <= i < JSString.len text -> 0 <= size ->
  JSString.slice text i (i + size) = window text (Z.to_nat i) (Z.to_nat size).
Proof.
  intros Hi Hs. unfold JSString.slice, JSString.clamp, window.
  destruct (Z.ltb_spec i 0) as [?|_]; [lia|].
  destruct (Z.ltb_spec (i + size) 0) as [?|_]; [lia|].
  rewrite (Z.min_l i) by lia.
  rewrite <- (substring_truncate text (Z.to_nat i) (Z.to_nat size)).
  f_equal. unfold JSString.len in *. lia.
Qed.

(** *** The loop, iteration by iteration *)

Section ChunkLoop.
Variables (text : string) (chunkSize overlap : Z).

Let step := chunkSize - overlap.
Let n := JSString.len text.

Lemma ceilDiv_step (a : Z) :
  0 < step -> ceilDiv (a - step) step = ceilDiv a step - 1.
Proof.
  intros Hs. unfold ceilDiv.
  replace (a - step + step - 1) with ((a + step - 1) + (-1) * step) by ring.
  rewrite Z.div_add by lia. ring.
Qed.

Lemma ceilDiv_nonpos (a : Z) : 0 < step -> a <= 0 -> ceilDiv a step <= 0.
Proof.
  intros Hs Ha. unfold ceilDiv.
  assert ((a + step - 1) / step < 1); [|lia].
  apply Z.div_lt_upper_bound; lia.
Qed.

Lemma ceilDiv_pos (a : Z) : 0 < step -> 0 < a -> 0 < ceilDiv a step.
Proof.
  intros Hs Ha. unfold ceilDiv.
  apply Z.div_str_pos. lia.
Qed.

(** With a positive step, [r] further iterations remain at index
    [j * step] exactly when [r = ceil ((n - j*step) / step)]; any fuel
    above [r] lets the loop finish, and it has pushed the [r] slices. *)
Lemma chunkLoop_run (r : nat) :
  0 < step ->
  forall (j fuel : nat) (acc : list string),
    Z.to_nat (ceilDiv (n - loopIndex chunkSize overlap j) step) = r ->
    (r < fuel)%nat ->
    chunkLoop fuel text chunkSize overlap (loopIndex chunkSize overlap j) acc
    = Some (acc ++ slicesFrom text chunkSize overlap j r).
Proof.
  intros Hs. induction r as [|r IH]; intros j fuel acc Hr Hf.
  - destruct fuel as [|fuel]; [lia|]. simpl.
    destruct (Z.ltb_spec (loopIndex chunkSize overlap j) (JSString.len text)) as [Hlt|_].
    + pose proof (ceilDiv_pos (n - loopIndex chunkSize overlap j) Hs).
      subst n. lia.
    + unfold slicesFrom. simpl. rewrite app_nil_r. reflexivity.
  - destruct fuel as [|fuel]; [lia|]. simpl.
    destruct (Z.ltb_spec (loopIndex chunkSize overlap j) (JSString.len text)) as [Hlt|Hge].
    + replace (loopIndex chunkSize overlap j + (chunkSize - overlap))
        with (loopIndex chunkSize overlap (S j))
        by (unfold loopIndex; lia).
      rewrite IH.
      * unfold slicesFrom. simpl. rewrite <- app_assoc. reflexivity.
      * replace (n - loopIndex chunkSize overlap (S j))
          with ((n - loopIndex chunkSize overlap j) - step)
          by (unfold loopIndex, step; lia).
        rewrite ceilDiv_step by exact Hs. lia.
      * lia.
    + pose proof (ceilDiv_nonpos (n - loopIndex chunkSize overlap j) Hs).
      subst n. lia.
Qed.

(** Without progress ([step <= 0]) on a non-empty text the index never
    leaves [.. 0], so the condition holds at every evaluation. *)
Lemma chunkLoop_stuck (fuel : nat) :
  step <= 0 -> 0 < n ->
  forall (i : Z) (acc : list string),
    i <= 0 -> chunkLoop fuel text chunkSize overlap i acc = None.
Proof.
  intros Hs Hn. induction fuel as [|fuel IH]; intros i acc Hi.
  - reflexivity.
  - simpl. destruct (Z.ltb_spec i (JSString.len text)) as [_|Hge].
    + apply IH. subst step. lia.
    + subst n. lia.
Qed.

End ChunkLoop.

(** *** Counting the chunks *)

Lemma chunkCount_spec (text : string) (chunkSize overlap : Z) :
  0 <= overlap < chunkSize ->
  Z.of_nat (chunkCount text chunkSize overlap)
  = ceilDiv (JSString.len text) (chunkSize - overlap).
Proof.
  intros H. unfold chunkCount. apply Z2Nat.id.
  unfold ceilDiv. apply Z.div_pos; unfold JSString.len; lia.
Qed.

Lemma chunkCount_le_length (text : string) (chunkSize overlap : Z) :
  0 <= overlap < chunkSize ->
  (chunkCount text chunkSize overlap <= String.length text)%nat.
Proof.
  intros H. pose proof (chunkCount_spec text _ _ H) as Hc.
  assert (ceilDiv (JSString.len text) (chunkSize - overlap) < JSString.len text + 1).
  { unfold ceilDiv. apply Z.div_lt_upper_bound; unfold JSString.len; nia. }
  unfold JSString.len in *. lia.
Qed.

(** The start offsets used are exactly the multiples of the step that lie
    inside the text. *)
Lemma chunkCount_offsets (text : string) (chunkSize overlap : Z) (k : nat) :
  0 <= overlap < chunkSize ->
  (k < chunkCount text chunkSize overlap)%nat
  <-> loopIndex chunkSize overlap k < JSString.len text.
Proof.
  intros H. pose proof (chunkCount_spec text _ _ H) as Hc.
  unfold ceilDiv, loopIndex in *.
  set (step := chunkSize - overlap) in *.
  set (n := JSString.len text) in *.
  assert (Hs : 0 < step) by (subst step; lia).
  pose proof (Z.div_mod (n + step - 1) step ltac:(lia)) as Hdm.
  pose proof (Z.mod_pos_bound (n + step - 1) step Hs) as Hmb.
  split; intros Hk; nia.
Qed.

Lemma chunkText_run (text : string) (chunkSize overlap : Z) (fuel : nat) :
  0 <= overlap < chunkSize ->
  (chunkCount text chunkSize overlap < fuel)%nat ->
  chunkText fuel text chunkSize overlap
  = Some (slicesFrom text chunkSize overlap 0 (chunkCount text chunkSize overlap)).
Proof.
  intros H Hf. unfold chunkText.
  change 0 with (loopIndex chunkSize overlap 0).
  rewrite (chunkLoop_run text chunkSize overlap (chunkCount text chunkSize overlap))
    with (acc := []); try reflexivity; try lia.
  unfold chunkCount, loopIndex. f_equal. f_equal. lia.
Qed.

Lemma slicesFrom_windows (text : string) (chunkSize overlap : Z) (r : nat) :
  0 <= overlap < chunkSize ->
  (r <= chunkCount text chunkSize overlap)%nat ->
  slicesFrom text chunkSize overlap 0 r
  = map (fun k => window text (k * Z.to_nat (chunkSize - overlap)) (Z.to_nat chunkSize))
        (seq 0 r).
Proof.
  intros H Hr. unfold slicesFrom. apply map_ext_in. intros k Hk.
  apply in_seq in Hk.
  assert (Hlt : loopIndex chunkSize overlap k < JSString.len text)
    by (apply chunkCount_offsets; [exact H | lia]).
  rewrite slice_window by (unfold loopIndex in *; nia).
  f_equal. unfold loopIndex. nia.
Qed.

(** The default configuration always finishes (used by [/upload]). *)
Lemma chunkTextDefault_run (text : string) (fuel : nat) :
  (String.length text < fuel)%nat ->
  chunkText fuel text defaultChunkSize defaultOverlap = Some (chunkTextDefault text).
Proof.
  intros Hf.
  assert (Hv : 0 <= defaultOverlap < defaultChunkSize)
    by (unfold defaultOverlap, defaultChunkSize; lia).
  pose proof (chunkCount_le_length text _ _ Hv) as Hle.
  unfold chunkTextDefault.
  rewrite !chunkText_run by (try exact Hv; lia). reflexivity.
Qed.

(** ** Results on [chunkText] *)

(** C2, as worded: on a text of 1300 code units the default configuration
    cuts three chunks (offsets 0, 600 and 1200), while the count of the
    specification, [ceil (max (len - overlap, 0) / (size - overlap))],
    is two; and on a text of 700 code units, shorter than the chunk
    size, it cuts two chunks (offsets 0 and 600), not one. *)
Lemma chunkText_count_counterexample :
  let long := JSString.replicate 1300 (Ascii.ascii_of_nat 97) in
  let short := JSString.replicate 700 (Ascii.ascii_of_nat 97) in
  (option_map (fun chunks => Z.of_nat (List.length chunks))
     (chunkText 4 long defaultChunkSize defaultOverlap) = Some 3
   /\ specChunkCount long defaultChunkSize defaultOverlap = 2)
  /\ (option_map (fun chunks => Z.of_nat (List.length chunks))
        (chunkText 4 short defaultChunkSize defaultOverlap) = Some 2
      /\ specChunkCount short defaultChunkSize defaultOverlap = 1).
Proof. vm_compute. repeat split; reflexivity. Qed.

(** C2, amended: for [0 <= overlap < size], [chunkText] returns the
    windows [T[k*(size-overlap) .. k*(size-overlap)+size)] for
    [k = 0, 1, 2, ...] while [k*(size-overlap) < len T], in offset order;
    a window is cut at the end of the text, so its length is
    [min size (len T - k*(size-overlap))]; and the number of chunks is
    [ceil (len T / (size-overlap))], which is 0 for the empty text. *)
Theorem chunkText_windows (text : string) (chunkSize overlap : Z) :
  0 <= overlap < chunkSize ->
  let step := Z.to_nat (chunkSize - overlap) in
  let size := Z.to_nat chunkSize in
  let count := chunkCount text chunkSize overlap in
  (forall fuel : nat, (count < fuel)%nat ->
     chunkText fuel text chunkSize overlap
     = Some (map (fun k => window text (k * step) size) (seq 0 count)))
  /\ (forall k : nat, (k < count)%nat <-> (k * step < String.length text)%nat)
  /\ (forall k : nat, (k < count)%nat ->
        String.length (window text (k * step) size)
        = Nat.min size (String.length text - k * step))
  /\ Z.of_nat count = ceilDiv (JSString.len text) (chunkSize - overlap).
Proof.
  intros H step size count. split; [|split; [|split]].
  - intros fuel Hf. rewrite chunkText_run by assumption.
    f_equal. apply slicesFrom_windows; [exact H | lia].
  - intros k. subst count.
    pose proof (chunkCount_offsets text chunkSize overlap k H) as Hk.
    unfold loopIndex, JSString.len in Hk. subst step.
    split; intros Hlt; [apply Hk in Hlt | apply Hk]; nia.
  - intros k _. unfold window. apply substring_length.
  - apply chunkCount_spec. exact H.
Qed.

Lemma chunkText_windows_witness :
  0 <= 0 < 4
  /\ chunkText 3 "AAAABBBB" 4 0 = Some ["AAAA"; "BBBB"].
Proof.
  split; [lia|].
  exact (proj1 (chunkText_windows "AAAABBBB" 4 0 ltac:(lia)) 3%nat ltac:(vm_compute; lia)).
Defined.

(** C9: for [0 <= overlap < size] the loop of [chunkText] finishes (any
    fuel above [len T] is enough, and the result does not depend on it),
    each iteration moving the index up by [size - overlap > 0]; for
    [overlap >= size] and a non-empty text the index never gets past 0
    and the loop does not finish, whatever the fuel. *)
Theorem chunkText_termination (text : string) (chunkSize overlap : Z) :
  (0 <= overlap < chunkSize ->
     (exists chunks, forall fuel : nat,
         (String.length text < fuel)%nat ->
         chunkText fuel text chunkSize overlap = Some chunks)
     /\ (forall k : nat,
           loopIndex chunkSize overlap (S k)
           = loopIndex chunkSize overlap k + (chunkSize - overlap)
           /\ loopIndex chunkSize overlap k < loopIndex chunkSize overlap (S k)))
  /\ (chunkSize <= overlap -> text <> EmptyString ->
      (forall fuel : nat, chunkText fuel text chunkSize overlap = None)
      /\ (forall k : nat, loopIndex chunkSize overlap k <= 0 < JSString.len text)).
Proof.
  split.
  - intros H. split.
    + exists (slicesFrom text chunkSize overlap 0 (chunkCount text chunkSize overlap)).
      intros fuel Hf. apply chunkText_run; [exact H|].
      pose proof (chunkCount_le_length text _ _ H). lia.
    + intros k. unfold loopIndex. lia.
  - intros H Hne.
    assert (Hn : 0 < JSString.len text).
    { unfold JSString.len. destruct text; [congruence | simpl; lia]. }
    split.
    + intros fuel. unfold chunkText. apply chunkLoop_stuck; lia.
    + intros k. unfold loopIndex. split; [nia | exact Hn].
Qed.

Lemma chunkText_termination_witness :
  (0 <= 0 < 4 /\ forall fuel : nat, (8 < fuel)%nat ->
     exists chunks, chunkText fuel "AAAABBBB" 4 0 = Some chunks)
  /\ (4 <= 4 /\ "AAAABBBB" <> EmptyString
      /\ forall fuel : nat, chunkText fuel "AAAABBBB" 4 4 = None).
Proof.
  split.
  - split; [lia|]. intros fuel Hf.
    destruct (proj1 (proj1 (chunkText_termination "AAAABBBB" 4 0) ltac:(lia)))
      as [chunks Hc].
    exists chunks. apply Hc. exact Hf.
  - split; [lia|]. split; [discriminate|].
    exact (proj1 (proj2 (chunkText_termination "AAAABBBB" 4 4)
                    ltac:(lia) ltac:(discriminate))).
Defined.

(** ** The store under [/upload] and [/ask] *)

(** The loop of embedding calls stops at the first call that throws. *)
Lemma embedChunks_thrown (embed : nat -> string -> Outcome (list float))
    (rawChunks : list string) :
  forall (start k : nat) (c : string) (e : JSError) (acc : list Chunk),
    rawChunks !! k = Some c ->
    embed (start + k)%nat c = Thrown e ->
    exists e', embedChunks embed start rawChunks acc = Thrown e'.
Proof.
  induction rawChunks as [|c0 rest IH]; intros start k c e acc Hk He.
  - discriminate.
  - simpl. destruct k as [|k].
    + simpl in Hk. inversion Hk; subst c0.
      rewrite Nat.add_0_r in He. rewrite He. eauto.
    + destruct (embed start c0) as [vec|e0]; [|eauto].
      apply (IH (S start) k c e); [exact Hk|].
      replace (S start + k)%nat with (start + S k)%nat by lia. exact He.
Qed.

(** A successful upload, step by step. *)
Lemma upload_success (env : UploadEnv) (st : Server) (f : UploadedFile)
    (text : string) (embedded : list Chunk) (u : unit) :
  supportedExt (ext f) = true ->
  up_extract env = Returned text ->
  embedChunks (up_embed env) 0 (chunkTextDefault text) [] = Returned embedded ->
  up_write env = Returned u ->
  let id := docIdOf (up_nowId env) in
  let docs := <[id := uploadedDocument env f embedded]> (documents st) in
  upload env st (Some f)
  = ({| documents := docs; storage := Some docs |},
     {| status := 200;
        body := UploadOk id (originalname f) (List.length embedded) |}).
Proof.
  intros Hext Hex Hemb Hw. unfold upload.
  rewrite Hext, Hex, Hemb. simpl. unfold saveDocuments. rewrite Hw. reflexivity.
Qed.

(** An [/ask] that gets as far as [saveDocuments]. *)
Lemma ask_reaches_save (env : AskEnv) (st : Server) (req : AskRequest)
    (q id : string) (doc : Document) (qVec : list float) (answer : string) :
  question req = Some q -> blank q = false ->
  docId req = Some id -> JSString.truthy id = true ->
  documents st !! id = Some doc ->
  ask_embed env q = Returned qVec ->
  ask_generate env (askPrompt (ask_sort env) doc qVec q) = Returned answer ->
  let entry := {| h_q := q; h_a := answer; h_createdAt := ask_now env |} in
  ask env st req
  = match saveDocuments (ask_write env) (pushHistory st id doc entry) with
    | (st2, Thrown e) => (st2, askFailed e)
    | (st2, Returned _) =>
        (st2, {| status := 200; body := AskOk answer (doc_history doc ++ [entry]) |})
    end.
Proof.
  intros Hq Hb Hid Ht Hdoc Hemb Hgen. unfold ask, lookupDocument.
  rewrite Hq, Hb, Hid, Ht, Hdoc. simpl. rewrite Hemb, Hgen. reflexivity.
Qed.

(** Every early exit of a handler answers with a failure: in a goal whose
    hypothesis is that the response reports success, [on_success t as p]
    follows [t] into its successful case and records why. *)
Tactic Notation "on_success" constr(t) "as" simple_intropattern(pat) :=
  destruct t as pat eqn:?; simpl; try discriminate.

(** The path of a request that is answered with success. *)
Lemma upload_succeeded_inv (env : UploadEnv) (st : Server) (file : option UploadedFile) :
  succeeded (snd (upload env st file)) = true ->
  exists (f : UploadedFile) (text : string) (embedded : list Chunk) (u : unit),
    file = Some f
    /\ supportedExt (ext f) = true
    /\ up_extract env = Returned text
    /\ embedChunks (up_embed env) 0 (chunkTextDefault text) [] = Returned embedded
    /\ up_write env = Returned u.
Proof.
  unfold upload. destruct file as [f|]; [|discriminate].
  on_success (supportedExt (ext f)) as [|]; [|on_success (up_unlink env) as [?|?]].
  on_success (up_extract env) as [text|?].
  on_success (embedChunks (up_embed env) 0 (chunkTextDefault text) []) as [embedded|?].
  on_success (up_write env) as [u|?].
  intros _. exists f, text, embedded, u. repeat split; assumption.
Qed.

Lemma ask_succeeded_inv (env : AskEnv) (st : Server) (req : AskRequest) :
  succeeded (snd (ask env st req)) = true ->
  exists (q id : string) (doc : Document) (qVec : list float) (answer : string) (u : unit),
    question req = Some q /\ blank q = false
    /\ docId req = Some id /\ JSString.truthy id = true
    /\ documents st !! id = Some doc
    /\ ask_embed env q = Returned qVec
    /\ ask_generate env (askPrompt (ask_sort env) doc qVec q) = Returned answer
    /\ ask_write env = Returned u.
Proof.
  unfold ask. on_success (question req) as [q|]. on_success (blank q) as [|].
  on_success (docId req) as [id|]. on_success (JSString.truthy id) as [|].
  destruct (lookupDocument (documents st) id) as [doc| |] eqn:Hlook;
    [|on_success (ask_embed env q) as [?|?]|discriminate].
  assert (Hdoc : documents st !! id = Some doc).
  { unfold lookupDocument in Hlook. destruct (documents st !! id) as [d|].
    - inversion Hlook. reflexivity.
    - destruct (existsb (String.eqb id) objectPrototypeNames); discriminate. }
  on_success (ask_embed env q) as [qVec|?].
  on_success (ask_generate env (askPrompt (ask_sort env) doc qVec q)) as [answer|?].
  on_success (ask_write env) as [u|?].
  intros _. exists q, id, doc, qVec, answer, u. repeat split; assumption.
Qed.

(** Whatever the outcome, a response that reports success comes with a
    durable copy that agrees with the store. *)
Lemma upload_succeeded_inSync (env : UploadEnv) (st : Server) (file : option UploadedFile) :
  succeeded (snd (upload env st file)) = true -> inSync (fst (upload env st file)).
Proof.
  intros H.
  destruct (upload_succeeded_inv env st file H)
    as (f & text & embedded & u & -> & Hext & Hex & Hemb & Hw).
  rewrite (upload_success env st f text embedded u Hext Hex Hemb Hw). reflexivity.
Qed.

(** What a successful [/upload] does to the store. *)
Lemma upload_succeeded_inserts (env : UploadEnv) (st : Server) (file : option UploadedFile) :
  succeeded (snd (upload env st file)) = true ->
  exists (f : UploadedFile) (embedded : list Chunk),
    file = Some f
    /\ documents (fst (upload env st file))
       = <[docIdOf (up_nowId env) := uploadedDocument env f embedded]> (documents st).
Proof.
  intros H.
  destruct (upload_succeeded_inv env st file H)
    as (f & text & embedded & u & -> & Hext & Hex & Hemb & Hw).
  exists f, embedded. split; [reflexivity|].
  rewrite (upload_success env st f text embedded u Hext Hex Hemb Hw). reflexivity.
Qed.

Lemma ask_succeeded_inSync (env : AskEnv) (st : Server) (req : AskRequest) :
  succeeded (snd (ask env st req)) = true -> inSync (fst (ask env st req)).
Proof.
  intros H.
  destruct (ask_succeeded_inv env st req H)
    as (q & id & doc & qVec & answer & u & Hq & Hb & Hid & Ht & Hdoc & Hemb & Hgen & Hw).
  rewrite (ask_reaches_save env st req q id doc qVec answer Hq Hb Hid Ht Hdoc Hemb Hgen).
  unfold saveDocuments. rewrite Hw. reflexivity.
Qed.

(** What a successful [/ask] does to the store. *)
Lemma ask_succeeded_appends (env : AskEnv) (st : Server) (req : AskRequest) :
  succeeded (snd (ask env st req)) = true ->
  exists (q id : string) (doc : Document) (answer : string),
    question req = Some q /\ docId req = Some id
    /\ documents st !! id = Some doc
    /\ documents (fst (ask env st req))
       = <[id := withEntry doc {| h_q := q; h_a := answer; h_createdAt := ask_now env |}]>
           (documents st).
Proof.
  intros H.
  destruct (ask_succeeded_inv env st req H)
    as (q & id & doc & qVec & answer & u & Hq & Hb & Hid & Ht & Hdoc & Hemb & Hgen & Hw).
  exists q, id, doc, answer. repeat (split; [assumption|]).
  rewrite (ask_reaches_save env st req q id doc qVec answer Hq Hb Hid Ht Hdoc Hemb Hgen).
  unfold saveDocuments. rewrite Hw. reflexivity.
Qed.

Lemma withEntry_neq (doc : Document) (entry : HistoryEntry) : withEntry doc entry <> doc.
Proof.
  intros H. apply (f_equal (fun d => List.length (doc_history d))) in H.
  simpl in H. rewrite length_app in H. simpl in H. lia.
Qed.

(** ** Results on the store *)

(** C1, as worded: the store already holds a document under the id [5];
    an upload whose clock reading is 5 is answered with success and the
    document under [5] is no longer the one that was there. *)
Lemma upload_duplicate_id_counterexample :
  let env := sampleUploadEnv 5 (Returned [1%float]) (Returned tt) in
  let result := upload env sampleServer (Some sampleFile) in
  documents sampleServer !! docIdOf 5 = Some sampleDocument
  /\ succeeded (snd result) = true
  /\ documents (fst result) !! docIdOf 5 <> Some sampleDocument.
Proof.
  cbv zeta. split; [|split].
  - vm_compute. reflexivity.
  - vm_compute. reflexivity.
  - rewrite (upload_success _ _ _ "AAAABBBB"
               [ {| chunk_text := "AAAABBBB"; chunk_embedding := [1%float] |} ] tt)
      by reflexivity.
    cbn [fst documents]. rewrite lookup_insert_eq.
    intros H. inversion H.
Qed.

(** C1, amended: a completed upload stores its document under the id it
    generated whether or not that id is already in the store: a document
    that was there is replaced, every other id keeps its document, the
    response is the success response and the new store is saved.  There
    is no [DuplicateId] failure. *)
Theorem upload_replaces_existing (env : UploadEnv) (st : Server) (f : UploadedFile)
    (text : string) (embedded : list Chunk) (u : unit) (old : Document) :
  supportedExt (ext f) = true ->
  up_extract env = Returned text ->
  embedChunks (up_embed env) 0 (chunkTextDefault text) [] = Returned embedded ->
  up_write env = Returned u ->
  documents st !! docIdOf (up_nowId env) = Some old ->
  let id := docIdOf (up_nowId env) in
  let st' := fst (upload env st (Some f)) in
  let r := snd (upload env st (Some f)) in
  r = {| status := 200; body := UploadOk id (originalname f) (List.length embedded) |}
  /\ documents st' !! id = Some (uploadedDocument env f embedded)
  /\ (forall id', id' <> id -> documents st' !! id' = documents st !! id')
  /\ inSync st'.
Proof.
  intros Hext Hex Hemb Hw _ id st' r. subst st' r.
  rewrite (upload_success env st f text embedded u Hext Hex Hemb Hw).
  cbn [fst snd documents]. split; [reflexivity|]. split; [|split].
  - apply lookup_insert_eq.
  - intros id' Hne. apply lookup_insert_ne. intros Heq. apply Hne. symmetry. exact Heq.
  - reflexivity.
Qed.

Lemma upload_replaces_existing_witness :
  let env := sampleUploadEnv 5 (Returned [1%float]) (Returned tt) in
  documents sampleServer !! docIdOf 5 = Some sampleDocument
  /\ documents (fst (upload env sampleServer (Some sampleFile))) !! docIdOf 5
     = Some (uploadedDocument env sampleFile
               [ {| chunk_text := "AAAABBBB"; chunk_embedding := [1%float] |} ]).
Proof.
  cbv zeta. split; [vm_compute; reflexivity|].
  exact (proj1 (proj2
    (upload_replaces_existing (sampleUploadEnv 5 (Returned [1%float]) (Returned tt))
       sampleServer sampleFile "AAAABBBB"
       [ {| chunk_text := "AAAABBBB"; chunk_embedding := [1%float] |} ] tt sampleDocument
       eq_refl eq_refl eq_refl eq_refl ltac:(vm_compute; reflexivity)))).
Defined.

(** C3: when the embedding call throws on some chunk of an upload, the
    request ends with the failure response, the store and its durable
    copy are exactly what they were before, and an id that was absent
    before (the id the upload would have generated among them) is still
    absent. *)
Theorem upload_embedding_failure_atomic (env : UploadEnv) (st : Server)
    (f : UploadedFile) (text : string) (k : nat) (c : string) (e : JSError) :
  supportedExt (ext f) = true ->
  up_extract env = Returned text ->
  chunkTextDefault text !! k = Some c ->
  up_embed env k c = Thrown e ->
  let st' := fst (upload env st (Some f)) in
  let r := snd (upload env st (Some f)) in
  st' = st
  /\ succeeded r = false /\ status r = 500
  /\ (documents st !! docIdOf (up_nowId env) = None ->
      documents st' !! docIdOf (up_nowId env) = None).
Proof.
  intros Hext Hex Hk He st' r. subst st' r.
  destruct (embedChunks_thrown (up_embed env) (chunkTextDefault text) 0 k c e [] Hk He)
    as [e' Hthrown].
  unfold upload. rewrite Hext, Hex, Hthrown. simpl.
  repeat split; auto.
Qed.

Lemma upload_embedding_failure_atomic_witness :
  let env := sampleUploadEnv 8 (Thrown (Rejected "quota")) (Returned tt) in
  chunkTextDefault "AAAABBBB" !! 0%nat = Some "AAAABBBB"
  /\ fst (upload env sampleServer (Some sampleFile)) = sampleServer.
Proof.
  cbv zeta. split; [vm_compute; reflexivity|].
  exact (proj1
    (upload_embedding_failure_atomic (sampleUploadEnv 8 (Thrown (Rejected "quota")) (Returned tt))
       sampleServer sampleFile "AAAABBBB" 0 "AAAABBBB" (Rejected "quota")
       eq_refl eq_refl ltac:(vm_compute; reflexivity) eq_refl)).
Defined.

(** C4: whenever [/upload] or [/ask] answers with success, the whole
    store, with the new document or the new history entry in it, has
    been written before the response was built: the durable copy is the
    store as it is when the request returns. *)
Theorem success_implies_persisted :
  (forall (env : UploadEnv) (st : Server) (file : option UploadedFile),
      succeeded (snd (upload env st file)) = true ->
      storage (fst (upload env st file)) = Some (documents (fst (upload env st file)))
      /\ exists (f : UploadedFile) (embedded : list Chunk),
           file = Some f
           /\ documents (fst (upload env st file))
              = <[docIdOf (up_nowId env) := uploadedDocument env f embedded]> (documents st))
  /\ (forall (env : AskEnv) (st : Server) (req : AskRequest),
        succeeded (snd (ask env st req)) = true ->
        storage (fst (ask env st req)) = Some (documents (fst (ask env st req)))
        /\ exists (q id : string) (doc : Document) (answer : string),
             question req = Some q /\ docId req = Some id
             /\ documents st !! id = Some doc
             /\ documents (fst (ask env st req))
                = <[id := withEntry doc {| h_q := q; h_a := answer;
                                           h_createdAt := ask_now env |}]> (documents st)).
Proof.
  split.
  - intros env st file Hok. split.
    + apply upload_succeeded_inSync. exact Hok.
    + apply upload_succeeded_inserts. exact Hok.
  - intros env st req Hok. split.
    + apply ask_succeeded_inSync. exact Hok.
    + apply ask_succeeded_appends. exact Hok.
Qed.

Lemma success_implies_persisted_witness :
  let up := upload (sampleUploadEnv 8 (Returned [1%float]) (Returned tt))
              sampleServer (Some sampleFile) in
  let asked := ask (sampleAskEnv "a1" (Returned tt)) sampleServer (sampleAskRequest "q1") in
  (succeeded (snd up) = true /\ storage (fst up) = Some (documents (fst up)))
  /\ (succeeded (snd asked) = true /\ storage (fst asked) = Some (documents (fst asked))).
Proof.
  cbv zeta. split.
  - split; [vm_compute; reflexivity|].
    exact (proj1 (proj1 success_implies_persisted
             (sampleUploadEnv 8 (Returned [1%float]) (Returned tt))
             sampleServer (Some sampleFile) ltac:(vm_compute; reflexivity))).
  - split; [vm_compute; reflexivity|].
    exact (proj1 (proj2 success_implies_persisted
             (sampleAskEnv "a1" (Returned tt)) sampleServer (sampleAskRequest "q1")
             ltac:(vm_compute; reflexivity))).
Defined.

(** C10: in [/ask] the entry is pushed onto the document before the
    store is saved.  When the write throws, the request ends with the
    failure response, the document in memory keeps the new entry, the
    durable copy is untouched, so the two differ if they agreed before;
    they agree again as soon as a later request saves successfully. *)
Theorem ask_persist_failure_not_rolled_back (env : AskEnv) (st : Server)
    (req : AskRequest) (q id : string) (doc : Document) (qVec : list float)
    (answer : string) (e : JSError) :
  question req = Some q -> blank q = false ->
  docId req = Some id -> JSString.truthy id = true ->
  documents st !! id = Some doc ->
  ask_embed env q = Returned qVec ->
  ask_generate env (askPrompt (ask_sort env) doc qVec q) = Returned answer ->
  ask_write env = Thrown e ->
  let entry := {| h_q := q; h_a := answer; h_createdAt := ask_now env |} in
  let st' := fst (ask env st req) in
  let r := snd (ask env st req) in
  r = askFailed e /\ succeeded r = false
  /\ documents st' !! id = Some (withEntry doc entry)
  /\ doc_history (withEntry doc entry) = doc_history doc ++ [entry]
  /\ storage st' = storage st
  /\ (inSync st -> ~ inSync st')
  /\ (forall env2 req2, succeeded (snd (ask env2 st' req2)) = true ->
        inSync (fst (ask env2 st' req2)))
  /\ (forall env2 file2, succeeded (snd (upload env2 st' file2)) = true ->
        inSync (fst (upload env2 st' file2))).
Proof.
  intros Hq Hb Hid Ht Hdoc Hemb Hgen Hw entry st' r. subst st' r.
  rewrite (ask_reaches_save env st req q id doc qVec answer Hq Hb Hid Ht Hdoc Hemb Hgen).
  unfold saveDocuments. rewrite Hw. cbn [fst snd].
  split; [reflexivity|]. split; [reflexivity|]. split; [apply lookup_insert_eq|].
  split; [reflexivity|]. split; [reflexivity|]. split; [|split].
  - unfold inSync. cbn [pushHistory storage documents]. intros Hs Hs'.
    rewrite Hs in Hs'. inversion Hs' as [Hd].
    apply (f_equal (fun m : gmap string Document => m !! id)) in Hd.
    rewrite lookup_insert_eq, Hdoc in Hd. inversion Hd as [Hd'].
    symmetry in Hd'. exact (withEntry_neq doc _ Hd').
  - intros env2 req2. apply ask_succeeded_inSync.
  - intros env2 file2. apply upload_succeeded_inSync.
Qed.

Lemma ask_persist_failure_not_rolled_back_witness :
  let env := sampleAskEnv "a1" (Thrown (Rejected "disk full")) in
  let result := ask env sampleServer (sampleAskRequest "q1") in
  inSync sampleServer
  /\ snd result = askFailed (Rejected "disk full")
  /\ ~ inSync (fst result).
Proof.
  cbv zeta.
  pose proof (ask_persist_failure_not_rolled_back
                (sampleAskEnv "a1" (Thrown (Rejected "disk full")))
                sampleServer (sampleAskRequest "q1") "q1" "5" sampleDocument
                [1%float] "a1" (Rejected "disk full")
                eq_refl eq_refl eq_refl eq_refl
                ltac:(vm_compute; reflexivity) eq_refl eq_refl eq_refl) as H.
  cbv zeta in H.
  split; [reflexivity|]. split; [exact (proj1 H)|].
  exact (proj1 (proj2 (proj2 (proj2 (proj2 (proj2 H))))) eq_refl).
Defined.

(** ** The history section of the prompt *)

Lemma slice_from_lastN {A : Type} (xs : list A) (k : nat) :
  JSArray.slice_from xs (- Z.of_nat (S k))
  = lastN (Nat.min (List.length xs) (S k)) xs.
Proof.
  unfold JSArray.slice_from, JSString.clamp, lastN, JSArray.len.
  destruct (Z.ltb_spec (- Z.of_nat (S k)) 0) as [_|H]; [|lia].
  f_equal. lia.
Qed.

Lemma lastN_length {A : Type} (xs : list A) (k : nat) :
  List.length (lastN (Nat.min (List.length xs) k) xs) = Nat.min (List.length xs) k.
Proof. unfold lastN. rewrite length_skipn. lia. Qed.

Lemma lastN_suffix {A : Type} (xs : list A) (k : nat) :
  firstn (List.length xs - k) xs ++ lastN k xs = xs.
Proof. unfold lastN. apply firstn_skipn. Qed.

Lemma lastN_nonempty {A : Type} (xs : list A) (k : nat) :
  xs <> [] -> lastN (Nat.min (List.length xs) (S k)) xs <> [].
Proof.
  intros Hne Hnil. pose proof (lastN_length xs (S k)) as Hl.
  rewrite Hnil in Hl. destruct xs; [congruence | simpl in Hl; lia].
Qed.

(** A rendered entry starts with [Q], so a join of rendered entries is
    empty only for the empty list. *)
Lemma join_rendered_truthy (sep : string) (entries : list HistoryEntry) :
  entries <> [] -> JSString.truthy (JSString.join sep (map renderEntry entries)) = true.
Proof.
  destruct entries as [|h rest]; [congruence|]. intros _.
  unfold JSString.join. simpl. destruct (map renderEntry rest); reflexivity.
Qed.

Lemma historySection_nonempty (history : list HistoryEntry) :
  history <> [] ->
  historySection history
  = JSString.join (nl +:+ nl)
      (map renderEntry (lastN (Nat.min (List.length history) 6) history)).
Proof.
  intros Hne. unfold historySection, recentHistory, HISTORY_WINDOW.
  change (JSArray.slice_from history (Z.opp 6))
    with (JSArray.slice_from history (- Z.of_nat 6)).
  rewrite slice_from_lastN.
  rewrite join_rendered_truthy; [reflexivity|].
  apply lastN_nonempty. exact Hne.
Qed.

(** A run of successful questions on one document appends one entry per
    question, in the order asked. *)
Lemma runAsks_history (id : string) (reqs : list (AskEnv * AskRequest)) :
  forall (st : Server) (doc : Document),
    documents st !! id = Some doc ->
    Forall (fun er => docId (snd er) = Some id) reqs ->
    Forall (fun r => succeeded r = true) (snd (runAsks st reqs)) ->
    exists (doc' : Document) (entries : list HistoryEntry),
      documents (fst (runAsks st reqs)) !! id = Some doc'
      /\ doc_history doc' = doc_history doc ++ entries
      /\ map (fun h => Some (h_q h)) entries = map (fun er => question (snd er)) reqs.
Proof.
  induction reqs as [|[env req] rest IH]; intros st doc Hdoc Hids Hok.
  - exists doc, []. simpl. rewrite app_nil_r. auto.
  - simpl in *. destruct (ask env st req) as [st1 r] eqn:Hask.
    destruct (runAsks st1 rest) as [st2 rs] eqn:Hrun.
    simpl in Hok. inversion Hok as [|? ? Hr Hrs]; subst.
    inversion Hids as [|? ? Hid Hids']; subst. simpl in Hid.
    pose proof (ask_succeeded_appends env st req) as Happ.
    rewrite Hask in Happ. simpl in Happ.
    destruct (Happ Hr) as (q & id' & doc0 & ans & Hq & Hid' & Hdoc0 & Hst1).
    rewrite Hid in Hid'. inversion Hid'; subst id'.
    rewrite Hdoc in Hdoc0. inversion Hdoc0; subst doc0.
    destruct (IH st1 (withEntry doc {| h_q := q; h_a := ans; h_createdAt := ask_now env |}))
      as (doc' & entries & Hd' & Hh & Hqs).
    + rewrite Hst1. apply lookup_insert_eq.
    + exact Hids'.
    + rewrite Hrun. exact Hrs.
    + rewrite Hrun in Hd'. simpl in Hd'.
      exists doc', ({| h_q := q; h_a := ans; h_createdAt := ask_now env |} :: entries).
      simpl. split; [exact Hd'|]. split.
      * rewrite Hh. simpl. rewrite <- app_assoc. reflexivity.
      * rewrite Hq, Hqs. reflexivity.
Qed.

(** C8: the history section of the prompt is the literal [None] for an
    empty history; otherwise it is the most recent [min n 6] entries,
    oldest first, each rendered as a [Q:] line followed by an [A:] line,
    with a blank line between entries; the prompt carries exactly this
    section.  After eight answered questions on a document that had no
    history, the section of the ninth prompt renders the last six of the
    eight entries, oldest first. *)
Theorem history_section_recent :
  historySection [] = "None"
  /\ (forall history : list HistoryEntry,
        history <> [] ->
        let recent := lastN (Nat.min (List.length history) 6) history in
        historySection history = JSString.join (nl +:+ nl) (map renderEntry recent)
        /\ List.length recent = Nat.min (List.length history) 6
        /\ firstn (List.length history - Nat.min (List.length history) 6) history ++ recent
           = history)
  /\ (forall (h : HistoryEntry),
        renderEntry h = "Q: " +:+ h_q h +:+ nl +:+ "A: " +:+ h_a h)
  /\ (forall (sort : EngineSort) (doc : Document) (qVec : list float) (q : string),
        askPrompt sort doc qVec q
        = buildPrompt (topChunks (rankChunks sort qVec (doc_chunks doc)))
            (historySection (doc_history doc)) q)
  /\ (forall (st : Server) (id : string) (doc : Document)
             (reqs : list (AskEnv * AskRequest)),
        documents st !! id = Some doc ->
        doc_history doc = [] ->
        List.length reqs = 8%nat ->
        Forall (fun er => docId (snd er) = Some id) reqs ->
        Forall (fun r => succeeded r = true) (snd (runAsks st reqs)) ->
        exists (doc' : Document) (e1 e2 e3 e4 e5 e6 e7 e8 : HistoryEntry),
          documents (fst (runAsks st reqs)) !! id = Some doc'
          /\ doc_history doc' = [e1; e2; e3; e4; e5; e6; e7; e8]
          /\ map (fun h => Some (h_q h)) (doc_history doc')
             = map (fun er => question (snd er)) reqs
          /\ historySection (doc_history doc')
             = JSString.join (nl +:+ nl) (map renderEntry [e3; e4; e5; e6; e7; e8])
          /\ (forall (sort : EngineSort) (qVec : list float) (q9 : string),
                askPrompt sort doc' qVec q9
                = buildPrompt (topChunks (rankChunks sort qVec (doc_chunks doc')))
                    (JSString.join (nl +:+ nl)
                       (map renderEntry [e3; e4; e5; e6; e7; e8])) q9)).
Proof.
  split; [reflexivity|]. split; [|split; [|split]].
  - intros history Hne recent. subst recent. split; [|split].
    + apply historySection_nonempty. exact Hne.
    + apply lastN_length.
    + apply lastN_suffix.
  - reflexivity.
  - reflexivity.
  - intros st id doc reqs Hdoc Hh Hlen Hids Hok.
    destruct (runAsks_history id reqs st doc Hdoc Hids Hok)
      as (doc' & entries & Hd' & Hh' & Hqs).
    rewrite Hh in Hh'. simpl in Hh'.
    assert (Hl : List.length entries = 8%nat).
    { rewrite <- Hlen, <- (length_map (fun er => question (snd er)) reqs), <- Hqs.
      symmetry. apply length_map. }
    do 8 (destruct entries as [|? entries]; [simpl in Hl; discriminate Hl|]).
    destruct entries; [|simpl in Hl; discriminate Hl].
    exists doc'. do 8 eexists.
    split; [exact Hd'|]. split; [exact Hh'|]. split; [|split].
    + rewrite Hh'. exact Hqs.
    + rewrite Hh'. reflexivity.
    + intros sort qVec q9. unfold askPrompt. rewrite Hh'. reflexivity.
Qed.

Lemma history_section_recent_witness :
  (sampleHistory <> []
   /\ historySection sampleHistory
      = JSString.join (nl +:+ nl)
          (map renderEntry (map sampleEntry [3; 4; 5; 6; 7; 8])))
  /\ (documents freshServer !! "5" = Some freshDocument
      /\ Forall (fun r => succeeded r = true) (snd (runAsks freshServer sampleRun))
      /\ exists (doc' : Document) (e1 e2 e3 e4 e5 e6 e7 e8 : HistoryEntry),
           documents (fst (runAsks freshServer sampleRun)) !! "5" = Some doc'
           /\ doc_history doc' = [e1; e2; e3; e4; e5; e6; e7; e8]
           /\ historySection (doc_history doc')
              = JSString.join (nl +:+ nl) (map renderEntry [e3; e4; e5; e6; e7; e8])).
Proof.
  split.
  - split; [discriminate|].
    exact (proj1 (proj1 (proj2 history_section_recent) sampleHistory ltac:(discriminate))).
  - assert (Hdoc : documents freshServer !! "5" = Some freshDocument)
      by (vm_compute; reflexivity).
    assert (Hok : Forall (fun r => succeeded r = true) (snd (runAsks freshServer sampleRun)))
      by (vm_compute; repeat constructor).
    split; [exact Hdoc|]. split; [exact Hok|].
    destruct (proj2 (proj2 (proj2 (proj2 history_section_recent)))
                freshServer "5" freshDocument sampleRun Hdoc eq_refl eq_refl
                ltac:(repeat constructor) Hok)
      as (doc' & e1 & e2 & e3 & e4 & e5 & e6 & e7 & e8 & H1 & H2 & _ & H4 & _).
    exists doc', e1, e2, e3, e4, e5, e6, e7, e8. auto.
Defined.

(** ** Results on [embedText] *)

Lemma stringify_serialisable (numberToString : float -> string) (v : JSValue) :
  serialisable v -> exists dump, stringify numberToString v = Some dump.
Proof.
  destruct v as [| |b|x|t|items|props|name]; simpl; intros H;
    try contradiction; try (destruct b); eauto.
Qed.

(** [dump.slice(0, 200)] is the prefix of [dump] of at most 200 units. *)
Lemma slice_prefix (dump : string) (k : nat) :
  JSString.slice dump 0 (Z.of_nat k) = String.substring 0 k dump
  /\ String.length (JSString.slice dump 0 (Z.of_nat k))
     = Nat.min k (String.length dump).
Proof.
  assert (Heq : JSString.slice dump 0 (Z.of_nat k) = String.substring 0 k dump).
  { unfold JSString.slice, JSString.clamp, JSString.len.
    destruct (Z.ltb_spec 0 0) as [?|_]; [lia|].
    destruct (Z.ltb_spec (Z.of_nat k) 0) as [?|_]; [lia|].
    rewrite <- (substring_truncate dump 0 k).
    f_equal; lia. }
  split; [exact Heq|]. rewrite Heq, substring_length. lia.
Qed.

Lemma vectorValue_truthy (v : list float) : truthy (vectorValue v) = true.
Proof. reflexivity. Qed.

Lemma hasDirectVector_path (response : JSValue) (v : list float) :
  hasDirectVector response v -> pathDirect response = vectorValue v.
Proof.
  intros (props & inner & -> & Hi & Hv). unfold pathDirect. simpl.
  rewrite Hi. simpl. exact Hv.
Qed.

Lemma hasResultList_path (response : JSValue) (v : list float) :
  hasResultList response v -> pathData response = vectorValue v.
Proof.
  intros (props & first & others & -> & Hd & Hv). unfold pathData. simpl.
  rewrite Hd. simpl. exact Hv.
Qed.

Lemma hasEmbeddingList_path (response : JSValue) (v : list float) :
  hasEmbeddingList response v -> pathEmbeddings response = vectorValue v.
Proof.
  intros (props & first & others & -> & Hd & Hv). unfold pathEmbeddings. simpl.
  rewrite Hd. simpl. exact Hv.
Qed.

(** C7: the response [{embedding: [1, 2]}] has none of the three
    recognised shapes, so [embedText] has to fail with the shape error.
    It does not: the first path reads [values] on the array, finds the
    built-in method [Array.prototype.values], which is truthy, and
    returns that function.  The sibling response [{data: [[1, 2]]}],
    which has none of the three shapes either, is rejected with the
    shape error, as every response is whose three paths hold nothing
    truthy. *)
Theorem embedText_array_field_not_rejected (numberToString : float -> string) :
  ((forall v, ~ hasDirectVector sampleArrayResponse v)
   /\ (forall v, ~ hasResultList sampleArrayResponse v)
   /\ (forall v, ~ hasEmbeddingList sampleArrayResponse v)
   /\ embedText numberToString (Returned sampleArrayResponse)
      = Returned (JSFunction "values"))
  /\ ((forall v, ~ hasDirectVector sampleListResponse v)
      /\ (forall v, ~ hasResultList sampleListResponse v)
      /\ (forall v, ~ hasEmbeddingList sampleListResponse v)
      /\ exists dump : string,
           stringify numberToString sampleListResponse = Some dump
           /\ embedText numberToString (Returned sampleListResponse)
              = Thrown (Error (shapeErrorPrefix +:+ JSString.slice dump 0 200))).
Proof.
  split; (split; [|split; [|split]]).
  - intros v (props & inner & Hr & Hi & _). inversion Hr; subst props.
    simpl in Hi. discriminate Hi.
  - intros v (props & first & others & Hr & Hd & _). inversion Hr; subst props.
    simpl in Hd. discriminate Hd.
  - intros v (props & first & others & Hr & Hd & _). inversion Hr; subst props.
    simpl in Hd. discriminate Hd.
  - reflexivity.
  - intros v (props & inner & Hr & Hi & _). inversion Hr; subst props.
    simpl in Hi. discriminate Hi.
  - intros v (props & first & others & Hr & Hd & Hv). inversion Hr; subst props.
    simpl in Hd. inversion Hd.
  - intros v (props & first & others & Hr & Hd & _). inversion Hr; subst props.
    simpl in Hd. discriminate Hd.
  - eexists. split; reflexivity.
Qed.

(** The three access paths are tried in order and the first one that
    holds a truthy value decides.  A response with a direct vector
    field, or else with a vector in the first entry of a list of
    results, or else with a vector in the first entry of a list of
    embeddings, makes [embedText] return that vector.  When none of the
    three paths holds a truthy value and [JSON.stringify] has a text for
    the response, [embedText] throws an error whose message is the fixed
    prefix followed by the first 200 code units of that text (all of it
    when it is shorter). *)
Theorem embedText_shapes (numberToString : float -> string) (response : JSValue) :
  let result := embedText numberToString (Returned response) in
  (forall v, hasDirectVector response v -> result = Returned (vectorValue v))
  /\ (forall v, truthy (pathDirect response) = false ->
        hasResultList response v -> result = Returned (vectorValue v))
  /\ (forall v, truthy (pathDirect response) = false ->
        truthy (pathData response) = false ->
        hasEmbeddingList response v -> result = Returned (vectorValue v))
  /\ (truthy (pathDirect response) = false ->
      truthy (pathData response) = false ->
      truthy (pathEmbeddings response) = false ->
      serialisable response ->
      exists dump,
        stringify numberToString response = Some dump
        /\ result = Thrown (Error (shapeErrorPrefix +:+ String.substring 0 200 dump))
        /\ String.length (String.substring 0 200 dump)
           = Nat.min 200 (String.length dump)
        /\ (String.length (String.substring 0 200 dump) <= 200)%nat).
Proof.
  intros result. subst result. unfold embedText. split; [|split; [|split]].
  - intros v Hs. rewrite (hasDirectVector_path _ _ Hs), vectorValue_truthy. reflexivity.
  - intros v H1 Hs. rewrite H1, (hasResultList_path _ _ Hs), vectorValue_truthy.
    reflexivity.
  - intros v H1 H2 Hs.
    rewrite H1, H2, (hasEmbeddingList_path _ _ Hs), vectorValue_truthy. reflexivity.
  - intros H1 H2 H3 Hser. rewrite H1, H2, H3.
    destruct (stringify_serialisable numberToString response Hser) as [dump Hd].
    exists dump. rewrite Hd.
    destruct (slice_prefix dump 200) as [Hs Hl].
    change (Z.of_nat 200) with 200 in Hs, Hl. rewrite Hs in *.
    repeat split; [exact Hl | lia].
Qed.

Lemma embedText_shapes_witness :
  let direct := JSObject [("embedding", JSObject [("values", vectorValue [1%float; 2%float])])] in
  let other := JSObject [("status", JSString "ok")] in
  (hasDirectVector direct [1%float; 2%float]
   /\ embedText (fun _ => "1") (Returned direct) = Returned (vectorValue [1%float; 2%float]))
  /\ (serialisable other
      /\ exists dump, stringify (fun _ => "1") other = Some dump
           /\ embedText (fun _ => "1") (Returned other)
              = Thrown (Error (shapeErrorPrefix +:+ String.substring 0 200 dump))).
Proof.
  cbv zeta.
  assert (Hd : hasDirectVector
                 (JSObject [("embedding", JSObject [("values", vectorValue [1%float; 2%float])])])
                 [1%float; 2%float]).
  { do 2 eexists. repeat split; reflexivity. }
  split.
  - split; [exact Hd|].
    exact (proj1 (embedText_shapes (fun _ => "1")
                    (JSObject [("embedding",
                                JSObject [("values", vectorValue [1%float; 2%float])])]))
             [1%float; 2%float] Hd).
  - split; [exact I|].
    destruct (proj2 (proj2 (proj2 (embedText_shapes (fun _ => "1")
                (JSObject [("status", JSString "ok")]))))
                eq_refl eq_refl eq_refl I) as (dump & H1 & H2 & _).
    exists dump. split; [exact H1 | exact H2].
Defined.

(** ** Binary64 arithmetic

    The facts about [PrimFloat] operations that the results on
    [cosineSimilarity] and on the ranking need, derived from the
    specification of the operations in [SpecFloat]. *)

Lemma Prim2SF_zero : Prim2SF 0 = S754_zero false.
Proof. reflexivity. Qed.

Lemma SFmul_comm (x y : spec_float) : SF64mul x y = SF64mul y x.
Proof.
  unfold SF64mul, SFmul.
  destruct x as [sx|sx| |sx mx ex], y as [sy|sy| |sy my ey];
    try reflexivity; try (rewrite xorb_comm; reflexivity).
  rewrite xorb_comm, Pos.mul_comm, Z.add_comm. reflexivity.
Qed.

Lemma float_mul_comm (x y : float) : (x * y)%float = (y * x)%float.
Proof. apply Prim2SF_inj. rewrite !FloatAxioms.mul_spec. apply SFmul_comm. Qed.

(** [x === 0] holds for the two zeros only. *)
Lemma float_eqb_zero (x : float) :
  PrimFloat.eqb x 0 = true -> exists s, Prim2SF x = S754_zero s.
Proof.
  rewrite FloatAxioms.eqb_spec, Prim2SF_zero. unfold SFeqb, SFcompare.
  destruct (Prim2SF x) as [s|s| |s m e]; intros H.
  - eauto.
  - destruct s; discriminate.
  - discriminate.
  - destruct s; discriminate.
Qed.

Lemma float_square_zero (x : float) :
  PrimFloat.eqb x 0 = true -> (x * x)%float = 0%float.
Proof.
  intros H. destruct (float_eqb_zero x H) as [s Hs].
  apply Prim2SF_inj. rewrite FloatAxioms.mul_spec, Hs, Prim2SF_zero.
  destruct s; reflexivity.
Qed.

(** The quotient of a finite non-zero number by itself is exactly 1. *)
Lemma SFdiv_self (s : bool) (m : positive) (e : Z) :
  SF64div (S754_finite s m e) (S754_finite s m e) = Prim2SF 1.
Proof.
  unfold SF64div, SFdiv, SFdiv_core_binary.
  replace (Zdigits2 (Z.pos m) + e - (Zdigits2 (Z.pos m) + e)) with 0 by lia.
  replace (e - e) with 0 by lia.
  change (Z.min (fexp prec emax 0) 0) with (-53).
  change (0 - -53) with 53. cbv iota.
  assert (Hq : Z.div_eucl (Z.shiftl (Z.pos m) 53) (Z.pos m) = (9007199254740992, 0)).
  { pose proof (Z.div_eucl_eq (Z.shiftl (Z.pos m) 53) (Z.pos m) ltac:(lia)) as Heq.
    pose proof (Z.mod_pos_bound (Z.shiftl (Z.pos m) 53) (Z.pos m) ltac:(lia)) as Hb.
    unfold Z.modulo in Hb.
    destruct (Z.div_eucl (Z.shiftl (Z.pos m) 53) (Z.pos m)) as [q r].
    rewrite Z.shiftl_mul_pow2 in Heq by lia.
    change (2 ^ 53) with 9007199254740992 in Heq.
    assert (q = 9007199254740992) by nia. subst q.
    f_equal. lia. }
  change (IntDef.Z.div_eucl (Z.shiftl (Z.pos m) 53) (Z.pos m))
    with (Z.div_eucl (Z.shiftl (Z.pos m) 53) (Z.pos m)).
  rewrite Hq.
  assert (Hl : new_location (Z.pos m) 0 = loc_Exact).
  { unfold new_location. destruct (Z.even (Z.pos m)); reflexivity. }
  rewrite Hl, xorb_nilpotent. reflexivity.
Qed.

Lemma float_div_self (x : float) (s : bool) (m : positive) (e : Z) :
  Prim2SF x = S754_finite s m e -> (x / x)%float = 1%float.
Proof.
  intros Hx. apply Prim2SF_inj. rewrite FloatAxioms.div_spec, Hx. apply SFdiv_self.
Qed.

(** A finite number that is not a zero has a mantissa. *)
Lemma float_finite_nonzero (x : float) :
  PrimFloat.is_finite x = true -> PrimFloat.eqb x 0 = false ->
  exists s m e, Prim2SF x = S754_finite s m e.
Proof.
  unfold PrimFloat.is_finite, PrimFloat.is_nan, PrimFloat.is_infinity.
  rewrite !FloatAxioms.eqb_spec, FloatAxioms.abs_spec, Prim2SF_zero.
  change (Prim2SF infinity) with (S754_infinity false).
  destruct (Prim2SF x) as [s|s| |s m e]; intros Hf Hz.
  - destruct s; discriminate Hz.
  - destruct s; discriminate Hf.
  - discriminate Hf.
  - eauto.
Qed.

(** *** Digits and shifts *)

Lemma digits2_bounds (m : positive) :
  2 ^ (Z.pos (digits2_pos m) - 1) <= Z.pos m < 2 ^ Z.pos (digits2_pos m).
Proof.
  induction m as [m IH|m IH|]; simpl digits2_pos.
  - rewrite Pos2Z.inj_succ, (Pos2Z.inj_xI m).
    replace (Z.succ (Z.pos (digits2_pos m)) - 1)
      with (Z.succ (Z.pos (digits2_pos m) - 1)) by lia.
    rewrite !Z.pow_succ_r by lia.
    set (d := digits2_pos m) in *. clearbody d. lia.
  - rewrite Pos2Z.inj_succ, (Pos2Z.inj_xO m).
    replace (Z.succ (Z.pos (digits2_pos m)) - 1)
      with (Z.succ (Z.pos (digits2_pos m) - 1)) by lia.
    rewrite !Z.pow_succ_r by lia.
    set (d := digits2_pos m) in *. clearbody d. lia.
  - simpl. lia.
Qed.

Lemma iter_xO_value (d m : positive) :
  Z.pos (Pos.iter xO m d) = Z.pos m * 2 ^ Z.pos d.
Proof.
  induction d as [|d IH] using Pos.peano_ind.
  - simpl. lia.
  - rewrite Pos.iter_succ, (Pos2Z.inj_xO (Pos.iter xO m d)), IH, Pos2Z.inj_succ, Z.pow_succ_r by lia. ring.
Qed.

Lemma shl_align_value (m : positive) (e ez : Z) :
  ez <= e -> Z.pos (fst (shl_align m e ez)) = Z.pos m * 2 ^ (e - ez).
Proof.
  intros Hle. unfold shl_align. destruct (ez - e) as [|p|d] eqn:Hd.
  - replace (e - ez) with 0 by lia. simpl. lia.
  - lia.
  - simpl. rewrite iter_xO_value. f_equal. f_equal. lia.
Qed.

Lemma shl_align_exponent (m : positive) (e ez : Z) (bound : Z) :
  bound <= e -> bound <= ez -> bound <= snd (shl_align m e ez).
Proof.
  intros He Hez. unfold shl_align. destruct (ez - e); simpl; assumption.
Qed.

Lemma shr_1_value (mrs : shr_record) :
  0 <= shr_m mrs -> shr_m (shr_1 mrs) = shr_m mrs / 2.
Proof.
  destruct mrs as [m r s]. simpl. intros Hm.
  destruct m as [|p|p]; [reflexivity| |lia].
  destruct p as [p|p|]; simpl shr_m.
  - rewrite (Pos2Z.inj_xI p). apply Z.div_unique with (r := 1); lia.
  - rewrite (Pos2Z.inj_xO p). apply Z.div_unique with (r := 0); lia.
  - reflexivity.
Qed.

Lemma shr_iter_value (p : positive) :
  forall mrs : shr_record,
    0 <= shr_m mrs ->
    shr_m (SpecFloat.iter_pos shr_1 p mrs) = shr_m mrs / 2 ^ Z.pos p.
Proof.
  assert (Hnn : forall a b, 0 <= a -> 0 < b -> 0 <= a / b)
    by (intros; apply Z.div_pos; lia).
  assert (Hpp : forall q : positive, 0 < 2 ^ Z.pos q)
    by (intros; apply Z.pow_pos_nonneg; lia).
  induction p as [p IH|p IH|]; intros mrs Hm; simpl SpecFloat.iter_pos.
  - pose proof (Hpp p) as Hp.
    assert (H1 : 0 <= shr_m (shr_1 mrs)) by (rewrite shr_1_value by exact Hm; apply Hnn; lia).
    assert (H2 : 0 <= shr_m (SpecFloat.iter_pos shr_1 p (shr_1 mrs))) by (rewrite IH by exact H1; apply Hnn; lia).
    rewrite (IH _ H2), (IH _ H1), (shr_1_value _ Hm).
    rewrite !Z.div_div by lia. f_equal.
    rewrite (Pos2Z.inj_xI p).
    replace (2 * Z.pos p + 1) with (Z.succ (Z.pos p + Z.pos p)) by lia.
    rewrite Z.pow_succ_r, Z.pow_add_r by lia. ring.
  - pose proof (Hpp p) as Hp.
    assert (H1 : 0 <= shr_m (SpecFloat.iter_pos shr_1 p mrs)) by (rewrite IH by exact Hm; apply Hnn; lia).
    rewrite (IH _ H1), (IH _ Hm).
    rewrite !Z.div_div by lia. f_equal.
    rewrite (Pos2Z.inj_xO p).
    replace (2 * Z.pos p) with (Z.pos p + Z.pos p) by lia.
    rewrite Z.pow_add_r by lia. ring.
  - rewrite (shr_1_value _ Hm). reflexivity.
Qed.

Lemma shr_record_of_loc_m (m : Z) (l : location) : shr_m (shr_record_of_loc m l) = m.
Proof. destruct l as [|[| |]]; reflexivity. Qed.

(** Rounding a positive mantissa whose exponent is at least [emin] never
    loses it entirely. *)
Lemma shr_fexp_positive (m : positive) (e : Z) (l : location) :
  emin <= e ->
  0 < shr_m (fst (shr_fexp prec emax (Z.pos m) e l))
  /\ emin <= snd (shr_fexp prec emax (Z.pos m) e l).
Proof.
  intros He. unfold shr_fexp, shr, fexp. simpl Zdigits2.
  pose proof (digits2_bounds m) as [Hlo _].
  set (d := digits2_pos m) in *. clearbody d.
  destruct (Z.max (Z.pos d + e - prec) (emin) - e) as [|p|p] eqn:Hn;
    simpl fst; simpl snd; rewrite ?shr_record_of_loc_m; try (split; lia).
  rewrite shr_iter_value by (rewrite shr_record_of_loc_m; lia).
  rewrite shr_record_of_loc_m. split; [|lia].
  assert (Hp : Z.pos p = Z.pos d - prec) by lia.
  apply Z.div_str_pos. split; [apply Z.pow_pos_nonneg; lia|].
  apply Z.le_trans with (2 ^ (Z.pos d - 1)); [|exact Hlo].
  apply Z.pow_le_mono_r; unfold prec in *; lia.
Qed.

Lemma round_nearest_even_ge (m : Z) (l : location) : m <= round_nearest_even m l.
Proof.
  unfold round_nearest_even. destruct l as [|[| |]]; try lia.
  destruct (Z.even m); lia.
Qed.

Lemma binary_round_aux_signed (s : bool) (m : positive) (e : Z) (l : location) :
  emin <= e -> signedSF s (binary_round_aux prec emax s (Z.pos m) e l).
Proof.
  intros He. unfold binary_round_aux.
  pose proof (shr_fexp_positive m e l He) as [Hm1 He1].
  destruct (shr_fexp prec emax (Z.pos m) e l) as [mrs1 e1]. simpl in Hm1, He1.
  pose proof (round_nearest_even_ge (shr_m mrs1) (loc_of_shr_record mrs1)) as Hr.
  destruct (round_nearest_even (shr_m mrs1) (loc_of_shr_record mrs1)) as [|m1|m1];
    [lia| |lia].
  pose proof (shr_fexp_positive m1 e1 loc_Exact He1) as [Hm2 _].
  destruct (shr_fexp prec emax (Z.pos m1) e1 loc_Exact) as [mrs2 e2]. simpl in Hm2.
  destruct (shr_m mrs2) as [|m2|m2]; [lia| |lia].
  destruct (e2 <=? emax - prec); reflexivity.
Qed.

Lemma binary_round_signed (s : bool) (m : positive) (e : Z) :
  emin <= e -> signedSF s (binary_round prec emax s m e).
Proof.
  intros He. unfold binary_round.
  pose proof (shl_align_exponent m e (fexp prec emax (Z.pos (digits2_pos m) + e))
                (emin) He ltac:(unfold fexp; lia)) as Hz.
  destruct (shl_align m e (fexp prec emax (Z.pos (digits2_pos m) + e))) as [mz ez].
  apply binary_round_aux_signed. exact Hz.
Qed.

Lemma binary_normalize_signed (z e : Z) :
  emin <= e -> z <> 0 ->
  signedSF (z <? 0) (binary_normalize prec emax z e false).
Proof.
  intros He Hz. destruct z as [|p|p]; [congruence| |]; simpl.
  - apply binary_round_signed. exact He.
  - apply binary_round_signed. exact He.
Qed.

(** *** Order of valid numbers and sign of their difference *)

Lemma valid_finite_bounds (s : bool) (m : positive) (e : Z) :
  valid_binary (S754_finite s m e) = true ->
  emin <= e
  /\ Z.pos (digits2_pos m) <= prec
  /\ (emin < e -> Z.pos (digits2_pos m) = prec).
Proof.
  unfold SpecFloat.valid_binary, bounded, canonical_mantissa, fexp.
  rewrite andb_true_iff, Z.eqb_eq. intros [Hc _].
  set (d := digits2_pos m) in *. clearbody d. lia.
Qed.

Lemma mantissa_exponent_lt (m1 m2 : positive) (e1 e2 ez : Z) :
  valid_binary (S754_finite false m1 e1) = true ->
  valid_binary (S754_finite false m2 e2) = true ->
  ez <= e1 -> e1 < e2 ->
  Z.pos m1 * 2 ^ (e1 - ez) < Z.pos m2 * 2 ^ (e2 - ez).
Proof.
  intros H1 H2 Hez Hlt.
  destruct (valid_finite_bounds _ _ _ H1) as (Hmin1 & Hd1 & _).
  destruct (valid_finite_bounds _ _ _ H2) as (_ & _ & Hd2).
  specialize (Hd2 ltac:(lia)).
  pose proof (digits2_bounds m1) as [_ Hu1].
  pose proof (digits2_bounds m2) as [Hl2 _].
  rewrite Hd2 in Hl2.
  assert (Hu1' : Z.pos m1 < 2 ^ prec).
  { apply Z.lt_le_trans with (2 ^ Z.pos (digits2_pos m1)); [exact Hu1|].
    apply Z.pow_le_mono_r; lia. }
  replace (e2 - ez) with ((e2 - e1) + (e1 - ez)) by lia.
  rewrite Z.pow_add_r by lia.
  assert (HP : 0 < 2 ^ (e1 - ez)) by (apply Z.pow_pos_nonneg; lia).
  assert (HQ : 2 ^ 1 <= 2 ^ (e2 - e1)) by (apply Z.pow_le_mono_r; lia).
  change (2 ^ 1) with 2 in HQ.
  change (2 ^ prec) with 9007199254740992 in Hu1'.
  change (2 ^ (prec - 1)) with 4503599627370496 in Hl2.
  set (P := 2 ^ (e1 - ez)) in *. set (Q := 2 ^ (e2 - e1)) in *.
  clearbody P Q. clear - Hu1' Hl2 HP HQ.
  assert (Z.pos m1 < Z.pos m2 * Q) by nia. nia.
Qed.

Lemma finite_lt_scaled (s1 s2 : bool) (m1 m2 : positive) (e1 e2 ez : Z) :
  valid_binary (S754_finite s1 m1 e1) = true ->
  valid_binary (S754_finite s2 m2 e2) = true ->
  SFcompare (S754_finite s1 m1 e1) (S754_finite s2 m2 e2) = Some Lt ->
  ez <= e1 -> ez <= e2 ->
  scaledValue s1 m1 e1 ez < scaledValue s2 m2 e2 ez.
Proof.
  intros H1 H2 Hc Hz1 Hz2. unfold scaledValue.
  assert (HP1 : 0 < 2 ^ (e1 - ez)) by (apply Z.pow_pos_nonneg; lia).
  assert (HP2 : 0 < 2 ^ (e2 - ez)) by (apply Z.pow_pos_nonneg; lia).
  simpl in Hc. destruct s1, s2; simpl cond_Zopp.
  - destruct (Z.compare_spec e1 e2) as [He|He|He]; try discriminate.
    + subst e2. inversion Hc as [Hm]. apply CompOpp_iff in Hm. simpl in Hm.
      change (Pos.compare_cont Eq m1 m2) with (Pos.compare m1 m2) in Hm.
      apply Pos.compare_gt_iff in Hm.
      set (P := 2 ^ (e1 - ez)) in *. clearbody P. nia.
    + pose proof (mantissa_exponent_lt m2 m1 e2 e1 ez H2 H1 Hz2 He). lia.
  - set (P1 := 2 ^ (e1 - ez)) in *. set (P2 := 2 ^ (e2 - ez)) in *.
    clearbody P1 P2. nia.
  - discriminate.
  - destruct (Z.compare_spec e1 e2) as [He|He|He]; try discriminate.
    + subst e2. inversion Hc as [Hm].
      change (Pos.compare_cont Eq m1 m2) with (Pos.compare m1 m2) in Hm.
      assert (Hlt : Z.pos m1 < Z.pos m2) by (apply Pos2Z.pos_lt_pos; exact Hm).
      set (P := 2 ^ (e1 - ez)) in *. clearbody P. nia.
    + exact (mantissa_exponent_lt m1 m2 e1 e2 ez H1 H2 Hz1 He).
Qed.

Lemma SFsub_finite (s1 s2 : bool) (m1 m2 : positive) (e1 e2 : Z) :
  SF64sub (S754_finite s1 m1 e1) (S754_finite s2 m2 e2)
  = binary_normalize prec emax
      (scaledValue s1 m1 e1 (Z.min e1 e2) - scaledValue s2 m2 e2 (Z.min e1 e2))
      (Z.min e1 e2) false.
Proof.
  unfold SF64sub, SFsub, scaledValue.
  rewrite !shl_align_value by lia. reflexivity.
Qed.

(** For valid [a < b], the difference [b - a] is strictly positive and
    [a - b] strictly negative: subtraction never rounds a non-zero exact
    difference to zero. *)
Lemma SFsub_lt_signs (a b : spec_float) :
  valid_binary a = true -> valid_binary b = true ->
  SFcompare a b = Some Lt ->
  signedSF false (SF64sub b a) /\ signedSF true (SF64sub a b).
Proof.
  intros Ha Hb Hc.
  destruct a as [sa|sa| |sa ma ea], b as [sb|sb| |sb mb eb];
    try discriminate Hc;
    try (destruct sa; try discriminate Hc; destruct sb; try discriminate Hc;
         split; reflexivity);
    try (destruct sa; try discriminate Hc; split; reflexivity);
    try (destruct sb; try discriminate Hc; split; reflexivity).
  destruct (valid_finite_bounds _ _ _ Ha) as (Hea & _).
  destruct (valid_finite_bounds _ _ _ Hb) as (Heb & _).
  rewrite !SFsub_finite. split.
  - pose proof (finite_lt_scaled sa sb ma mb ea eb (Z.min eb ea) Ha Hb Hc
                  ltac:(lia) ltac:(lia)) as Hlt.
    set (z := scaledValue sb mb eb (Z.min eb ea) - scaledValue sa ma ea (Z.min eb ea)) in *.
    replace false with (z <? 0) at 1 by (apply Z.ltb_ge; lia).
    apply binary_normalize_signed; lia.
  - pose proof (finite_lt_scaled sa sb ma mb ea eb (Z.min ea eb) Ha Hb Hc
                  ltac:(lia) ltac:(lia)) as Hlt.
    set (z := scaledValue sa ma ea (Z.min ea eb) - scaledValue sb mb eb (Z.min ea eb)) in *.
    replace true with (z <? 0) at 1 by (apply Z.ltb_lt; lia).
    apply binary_normalize_signed; lia.
Qed.

Lemma SFcompare_Gt_Lt (a b : spec_float) :
  SFcompare a b = Some Gt -> SFcompare b a = Some Lt.
Proof.
  destruct a as [sa|sa| |sa ma ea], b as [sb|sb| |sb mb eb]; simpl;
    try discriminate; try (destruct sa; discriminate || reflexivity);
    try (destruct sb; discriminate || reflexivity);
    try (destruct sa, sb; discriminate || reflexivity).
  rewrite (Z.compare_antisym ea eb).
  change (Pos.compare_cont Eq ma mb) with (Pos.compare ma mb).
  change (Pos.compare_cont Eq mb ma) with (Pos.compare mb ma).
  rewrite (Pos.compare_antisym ma mb).
  destruct sa, sb; try discriminate; try reflexivity;
    destruct (ea ?= eb); simpl; try discriminate; try reflexivity;
    destruct (ma ?= mb)%positive; simpl; try discriminate; reflexivity.
Qed.

(** Equal numbers ([===]) have a difference that is a zero or NaN. *)
Lemma SFsub_eq_not_positive (a b : spec_float) :
  SFeqb a b = true -> SFltb (S754_zero false) (SF64sub b a) = false.
Proof.
  unfold SFeqb. destruct (SFcompare a b) as [[| |]|] eqn:Hc; try discriminate. intros _.
  destruct a as [sa|sa| |sa ma ea], b as [sb|sb| |sb mb eb];
    try discriminate Hc;
    try (destruct sa; try discriminate Hc; destruct sb; try discriminate Hc; reflexivity);
    try (destruct sa; discriminate Hc); try (destruct sb; discriminate Hc).
  simpl in Hc.
  assert (Heq : sa = sb /\ ea = eb /\ ma = mb).
  { destruct sa, sb; try discriminate Hc;
      destruct (Z.compare_spec ea eb); try discriminate Hc;
      inversion Hc as [Hm]; try apply CompOpp_iff in Hm; simpl in Hm;
      change (Pos.compare_cont Eq ma mb) with (Pos.compare ma mb) in Hm;
      apply Pos.compare_eq in Hm; auto. }
  destruct Heq as (-> & -> & ->).
  rewrite SFsub_finite, Z.sub_diag. reflexivity.
Qed.

Lemma signedSF_positive (r : spec_float) :
  signedSF false r -> SFltb (S754_zero false) r = true.
Proof. destruct r as [s|s| |s m e]; simpl; intros H; try contradiction; subst; reflexivity. Qed.

Lemma signedSF_negative (r : spec_float) :
  signedSF true r -> SFltb (S754_zero false) r = false.
Proof. destruct r as [s|s| |s m e]; simpl; intros H; try contradiction; subst; reflexivity. Qed.

(** *** The same facts on [PrimFloat] numbers *)

Lemma float_not_nan (x : float) :
  PrimFloat.is_nan x = false -> Prim2SF x <> S754_nan.
Proof.
  unfold PrimFloat.is_nan. rewrite FloatAxioms.eqb_spec. intros H Hn.
  rewrite Hn in H. discriminate H.
Qed.

Lemma SFcompare_defined (a b : spec_float) :
  a <> S754_nan -> b <> S754_nan -> exists c, SFcompare a b = Some c.
Proof.
  destruct a as [sa|sa| |sa ma ea], b as [sb|sb| |sb mb eb]; simpl;
    intros Ha Hb; try congruence; eauto.
Qed.

(** *** The order of numbers and the sign of a difference *)

Lemma SFcompare_antisym (a b : spec_float) :
  SFcompare b a = option_map CompOpp (SFcompare a b).
Proof.
  destruct a as [sa|sa| |sa ma ea], b as [sb|sb| |sb mb eb]; simpl;
    try reflexivity;
    try (destruct sa; reflexivity); try (destruct sb; reflexivity);
    try (destruct sa, sb; reflexivity).
  change (Pos.compare_cont Eq ma mb) with (Pos.compare ma mb).
  change (Pos.compare_cont Eq mb ma) with (Pos.compare mb ma).
  rewrite (Z.compare_antisym ea eb), (Pos.compare_antisym ma mb).
  destruct sa, sb; simpl; try reflexivity;
    destruct (ea ?= eb); simpl; try reflexivity;
    destruct (ma ?= mb)%positive; reflexivity.
Qed.

Lemma SFleb_finite (s1 s2 : bool) (m1 m2 : positive) (e1 e2 : Z) :
  SFleb (S754_finite s1 m1 e1) (S754_finite s2 m2 e2) = true
  <-> match s1, s2 with
      | true, false => True
      | false, true => False
      | false, false => e1 < e2 \/ (e1 = e2 /\ Z.pos m1 <= Z.pos m2)
      | true, true => e2 < e1 \/ (e1 = e2 /\ Z.pos m2 <= Z.pos m1)
      end.
Proof.
  unfold SFleb, SFcompare.
  change (Pos.compare_cont Eq m1 m2) with (Pos.compare m1 m2).
  destruct s1, s2; try (split; [auto | reflexivity]); try (split; [discriminate | contradiction]);
    destruct (Z.compare_spec e1 e2) as [He|He|He];
    destruct (Pos.compare_spec m1 m2) as [Hm|Hm|Hm]; simpl;
    split; intros H; try reflexivity; try discriminate H; try lia.
Qed.

Lemma SFleb_trans (a b c : spec_float) :
  SFleb a b = true -> SFleb b c = true -> SFleb a c = true.
Proof.
  destruct a as [sa|sa| |sa ma ea], b as [sb|sb| |sb mb eb], c as [sc|sc| |sc mc ec];
    try (intros; discriminate);
    try (rewrite !SFleb_finite; destruct sa, sb, sc; intros; lia);
    intros Hab Hbc;
    repeat match goal with
           | s : bool |- _ => destruct s
           end;
    try reflexivity; try discriminate Hab; try discriminate Hbc.
Qed.

Lemma float_leb_trans (x y z : float) :
  PrimFloat.leb x y = true -> PrimFloat.leb y z = true -> PrimFloat.leb x z = true.
Proof. rewrite !FloatAxioms.leb_spec. apply SFleb_trans. Qed.

(** On numbers, [x < y] is [!(y <= x)], and [x === y] is [x <= y] with
    [y <= x]. *)
Lemma float_ltb_not_leb (x y : float) :
  PrimFloat.is_nan x = false -> PrimFloat.is_nan y = false ->
  PrimFloat.ltb x y = negb (PrimFloat.leb y x).
Proof.
  intros Hx Hy. rewrite FloatAxioms.ltb_spec, FloatAxioms.leb_spec.
  unfold SFltb, SFleb. rewrite (SFcompare_antisym (Prim2SF x) (Prim2SF y)).
  destruct (SFcompare_defined _ _ (float_not_nan x Hx) (float_not_nan y Hy)) as [c ->].
  destruct c; reflexivity.
Qed.

Lemma float_eqb_leb (x y : float) :
  PrimFloat.eqb x y = PrimFloat.leb x y && PrimFloat.leb y x.
Proof.
  rewrite FloatAxioms.eqb_spec, !FloatAxioms.leb_spec.
  unfold SFeqb, SFleb. rewrite (SFcompare_antisym (Prim2SF x) (Prim2SF y)).
  destruct (SFcompare (Prim2SF x) (Prim2SF y)) as [[| |]|]; reflexivity.
Qed.

Lemma float_leb_refl (x : float) :
  PrimFloat.is_nan x = false -> PrimFloat.leb x x = true.
Proof.
  intros Hx. unfold PrimFloat.is_nan in Hx. apply negb_false_iff in Hx.
  rewrite float_eqb_leb in Hx. apply andb_true_iff in Hx. apply Hx.
Qed.

Lemma float_leb_total (x y : float) :
  PrimFloat.is_nan x = false -> PrimFloat.is_nan y = false ->
  PrimFloat.leb x y = false -> PrimFloat.leb y x = true.
Proof.
  intros Hx Hy H. pose proof (float_ltb_not_leb y x Hy Hx) as Hl.
  rewrite H in Hl. simpl in Hl.
  rewrite FloatAxioms.ltb_spec in Hl. rewrite FloatAxioms.leb_spec.
  unfold SFltb in Hl. unfold SFleb.
  destruct (SFcompare (Prim2SF y) (Prim2SF x)) as [[| |]|]; try discriminate Hl; reflexivity.
Qed.

Lemma signedSF_below_zero (r : spec_float) :
  signedSF true r -> SFltb r (S754_zero false) = true.
Proof. destruct r as [s|s| |s m e]; simpl; intros H; try contradiction; subst; reflexivity. Qed.

Lemma signedSF_not_below_zero (r : spec_float) :
  signedSF false r -> SFltb r (S754_zero false) = false.
Proof. destruct r as [s|s| |s m e]; simpl; intros H; try contradiction; subst; reflexivity. Qed.

Lemma SFsub_eq_not_negative (a b : spec_float) :
  SFeqb a b = true -> SFltb (SF64sub b a) (S754_zero false) = false.
Proof.
  unfold SFeqb. destruct (SFcompare a b) as [[| |]|] eqn:Hc; try discriminate. intros _.
  destruct a as [sa|sa| |sa ma ea], b as [sb|sb| |sb mb eb];
    try discriminate Hc;
    try (destruct sa; try discriminate Hc; destruct sb; try discriminate Hc; reflexivity);
    try (destruct sa; discriminate Hc); try (destruct sb; discriminate Hc).
  simpl in Hc.
  assert (Heq : sa = sb /\ ea = eb /\ ma = mb).
  { destruct sa, sb; try discriminate Hc;
      destruct (Z.compare_spec ea eb); try discriminate Hc;
      inversion Hc as [Hm]; try apply CompOpp_iff in Hm; simpl in Hm;
      change (Pos.compare_cont Eq ma mb) with (Pos.compare ma mb) in Hm;
      apply Pos.compare_eq in Hm; auto. }
  destruct Heq as (-> & -> & ->).
  rewrite SFsub_finite, Z.sub_diag. reflexivity.
Qed.

(** The sign of [y - x] is the order of [x] and [y]: [y - x > 0] is
    [x < y] and [y - x < 0] is [y < x]; this needs the gradual
    underflow of binary64, and fails only with a NaN. *)
Lemma float_sub_sign (x y : float) :
  PrimFloat.is_nan x = false -> PrimFloat.is_nan y = false ->
  PrimFloat.ltb 0 (y - x) = PrimFloat.ltb x y
  /\ PrimFloat.ltb (y - x) 0 = PrimFloat.ltb y x.
Proof.
  intros Hx Hy. rewrite !FloatAxioms.ltb_spec, FloatAxioms.sub_spec.
  change (Prim2SF 0) with (S754_zero false).
  pose proof (Prim2SF_valid x) as Vx. pose proof (Prim2SF_valid y) as Vy.
  unfold SFltb at 2 4. rewrite (SFcompare_antisym (Prim2SF x) (Prim2SF y)).
  destruct (SFcompare_defined _ _ (float_not_nan x Hx) (float_not_nan y Hy)) as [c Hc].
  rewrite Hc. destruct c; simpl.
  - assert (He : SFeqb (Prim2SF x) (Prim2SF y) = true) by (unfold SFeqb; rewrite Hc; reflexivity).
    split; [apply SFsub_eq_not_positive | apply SFsub_eq_not_negative]; exact He.
  - destruct (SFsub_lt_signs _ _ Vx Vy Hc) as [Hpos _]. split.
    + apply signedSF_positive. exact Hpos.
    + apply signedSF_not_below_zero. exact Hpos.
  - apply SFcompare_Gt_Lt in Hc.
    destruct (SFsub_lt_signs _ _ Vy Vx Hc) as [_ Hneg]. split.
    + apply signedSF_negative. exact Hneg.
    + apply signedSF_below_zero. exact Hneg.
Qed.

Lemma float_ltb_asym (x y : float) :
  PrimFloat.ltb x y = true -> PrimFloat.ltb y x = false.
Proof.
  rewrite !FloatAxioms.ltb_spec. unfold SFltb.
  rewrite (SFcompare_antisym (Prim2SF x) (Prim2SF y)).
  destruct (SFcompare (Prim2SF x) (Prim2SF y)) as [[| |]|]; simpl; congruence.
Qed.

(** *** Rounding to nearest: what [binary_round_aux] returns *)

Lemma fexp_value (e : Z) : fexp prec emax e = Z.max (e - 53) (-1074).
Proof. reflexivity. Qed.

Lemma digits2_unique (m : positive) (k : Z) :
  2 ^ (k - 1) <= Z.pos m < 2 ^ k -> Z.pos (digits2_pos m) = k.
Proof.
  intros [Hlo Hhi]. pose proof (digits2_bounds m) as [Dlo Dhi].
  set (d := Z.pos (digits2_pos m)) in *.
  assert (Hd : 0 < d) by (subst d; lia). clearbody d.
  assert (Hk : 0 < k).
  { destruct (Z.lt_ge_cases 0 k) as [H|H]; [exact H|].
    assert (2 ^ k <= 2 ^ 0) by (apply Z.pow_le_mono_r; lia).
    change (2 ^ 0) with 1 in *. lia. }
  destruct (Z.lt_trichotomy d k) as [H|[H|H]]; [exfalso|exact H|exfalso].
  - assert (2 ^ d <= 2 ^ (k - 1)) by (apply Z.pow_le_mono_r; lia). lia.
  - assert (2 ^ k <= 2 ^ (d - 1)) by (apply Z.pow_le_mono_r; lia). lia.
Qed.

Lemma loc_of_shr_record_of_loc (m : Z) (l : location) :
  loc_of_shr_record (shr_record_of_loc m l) = l.
Proof. destruct l as [|[| |]]; reflexivity. Qed.

Lemma shifted_start (mx : Z) : shifted mx 0 (shr_record_of_loc mx loc_Exact).
Proof.
  unfold shifted. simpl. rewrite Z.div_1_r, Z.mod_1_r. repeat split.
Qed.

Lemma shr_1_parts (mrs : shr_record) :
  0 <= shr_m mrs ->
  shr_m (shr_1 mrs) = shr_m mrs / 2
  /\ shr_r (shr_1 mrs) = Z.odd (shr_m mrs)
  /\ shr_s (shr_1 mrs) = shr_r mrs || shr_s mrs.
Proof.
  intros Hm. split; [apply shr_1_value; exact Hm|].
  destruct mrs as [m r s]. simpl in *.
  destruct m as [|[p|p|]|p]; try lia; simpl; split; reflexivity.
Qed.

Lemma shifted_step (mx k : Z) (mrs : shr_record) :
  0 <= mx -> 0 <= k -> shifted mx k mrs -> shifted mx (k + 1) (shr_1 mrs).
Proof.
  intros Hmx Hk (Hm & Hr & Hs).
  assert (Hp : 0 < 2 ^ k) by (apply Z.pow_pos_nonneg; lia).
  assert (Hm0 : 0 <= shr_m mrs) by (rewrite Hm; apply Z.div_pos; lia).
  destruct (shr_1_parts mrs Hm0) as (Hm1 & Hr1 & Hs1).
  pose proof (Z.div_mod mx (2 ^ k) ltac:(lia)) as Hdm.
  pose proof (Z.mod_pos_bound mx (2 ^ k) Hp) as Hrem.
  set (a := mx / 2 ^ k) in *. set (rem := mx mod 2 ^ k) in *.
  pose proof (Z.div_mod a 2 ltac:(lia)) as Ha.
  pose proof (Z.mod_pos_bound a 2 ltac:(lia)) as Hbit.
  assert (Hpow : 2 ^ (k + 1) = 2 * 2 ^ k) by (rewrite Z.pow_add_r by lia; lia).
  assert (Hdiv : mx / 2 ^ (k + 1) = a / 2).
  { rewrite Hpow. symmetry. apply (Z.div_unique _ _ _ (rem + 2 ^ k * (a mod 2))); nia. }
  assert (Hmod : mx mod 2 ^ (k + 1) = rem + 2 ^ k * (a mod 2)).
  { rewrite Hpow. symmetry. apply (Z.mod_unique _ _ (a / 2)); nia. }
  unfold shifted. rewrite Hm1, Hr1, Hs1, Hm, Hr, Hs, Hdiv, Hmod, Hpow.
  split; [reflexivity|].
  assert (Hodd : Z.odd a = (a mod 2 =? 1)).
  { rewrite Zmod_odd. destruct (Z.odd a); reflexivity. }
  split.
  - rewrite Hodd. destruct (Z.eqb_spec (a mod 2) 1) as [E|E]; symmetry.
    + apply Z.leb_le. nia.
    + apply Z.leb_gt. nia.
  - assert (Hs' : (2 * (rem + 2 ^ k * (a mod 2))) mod (2 * 2 ^ k) = 2 * rem).
    { symmetry. apply (Z.mod_unique _ _ (a mod 2)); nia. }
    rewrite Hs'.
    destruct (Z.leb_spec (2 ^ k) (2 * rem)) as [L|L]; simpl.
    + symmetry. apply negb_true_iff, Z.eqb_neq. lia.
    + rewrite Z.mod_small by lia. reflexivity.
Qed.

Lemma shifted_iter (mx : Z) (p : positive) :
  0 <= mx ->
  forall (k : Z) (mrs : shr_record),
    0 <= k -> shifted mx k mrs ->
    shifted mx (k + Z.pos p) (SpecFloat.iter_pos shr_1 p mrs).
Proof.
  intros Hmx. induction p as [p IH|p IH|]; intros k mrs Hk Hs; simpl SpecFloat.iter_pos.
  - replace (k + Z.pos p~1) with (k + 1 + Z.pos p + Z.pos p) by lia.
    apply IH; [lia|]. apply IH; [lia|]. apply shifted_step; assumption.
  - replace (k + Z.pos p~0) with (k + Z.pos p + Z.pos p) by lia.
    apply IH; [lia|]. apply IH; assumption.
  - apply shifted_step; assumption.
Qed.

(** Shifting an exact mantissa [mx] by [n > 0] places and rounding gives
    a multiple of [2 ^ n] that is nearest to [mx]. *)
Lemma shr_round_nearest (mx : Z) (n : positive) (mrs : shr_record) :
  0 <= mx ->
  mrs = SpecFloat.iter_pos shr_1 n (shr_record_of_loc mx loc_Exact) ->
  let P := round_nearest_even (shr_m mrs) (loc_of_shr_record mrs) in
  mx / 2 ^ Z.pos n <= P <= mx / 2 ^ Z.pos n + 1
  /\ - 2 ^ Z.pos n <= 2 * (P * 2 ^ Z.pos n - mx) <= 2 ^ Z.pos n.
Proof.
  intros Hmx -> P. subst P.
  pose proof (shifted_iter mx n Hmx 0 _ ltac:(lia) (shifted_start mx)) as (Hm & Hr & Hs).
  rewrite Z.add_0_l in Hm, Hr, Hs.
  set (mrs := SpecFloat.iter_pos shr_1 n (shr_record_of_loc mx loc_Exact)) in *.
  assert (Hp : 0 < 2 ^ Z.pos n) by (apply Z.pow_pos_nonneg; lia).
  pose proof (Z.div_mod mx (2 ^ Z.pos n) ltac:(lia)) as Hdm.
  pose proof (Z.mod_pos_bound mx (2 ^ Z.pos n) Hp) as Hrem.
  set (a := mx / 2 ^ Z.pos n) in *. set (rem := mx mod 2 ^ Z.pos n) in *.
  set (w := 2 ^ Z.pos n) in *.
  destruct mrs as [m r s]. simpl in Hm, Hr, Hs. subst m. simpl shr_m.
  unfold loc_of_shr_record, round_nearest_even.
  destruct r, s; symmetry in Hr, Hs.
  - apply Z.leb_le in Hr. split; [lia|]. nia.
  - apply Z.leb_le in Hr. apply negb_false_iff, Z.eqb_eq in Hs.
    assert (Hhalf : 2 * rem = w).
    { assert (Hx : (2 * rem) mod w = 2 * rem - w)
        by (symmetry; apply (Z.mod_unique _ _ 1); lia).
      lia. }
    destruct (Z.even a); split; try lia; nia.
  - apply Z.leb_gt in Hr. split; [lia|]. nia.
  - apply Z.leb_gt in Hr. split; [lia|]. nia.
Qed.

Lemma shr_fexp_noshift (mx ex : Z) (l : location) :
  fexp prec emax (Zdigits2 mx + ex) <= ex ->
  shr_fexp prec emax mx ex l = (shr_record_of_loc mx l, ex).
Proof.
  intros H. unfold shr_fexp, shr.
  destruct (fexp prec emax (Zdigits2 mx + ex) - ex) as [|p|p] eqn:Hn;
    try reflexivity; lia.
Qed.

Lemma shr_fexp_shift (mx ex : Z) (l : location) (n : positive) :
  fexp prec emax (Zdigits2 mx + ex) - ex = Z.pos n ->
  shr_fexp prec emax mx ex l
  = (SpecFloat.iter_pos shr_1 n (shr_record_of_loc mx l), ex + Z.pos n).
Proof. intros H. unfold shr_fexp, shr. rewrite H. reflexivity. Qed.

(** The result of [binary_round_aux] once the rounded mantissa [m1] and
    its exponent are known: the pair itself when it is canonical, and
    [2 ^ 52] one exponent higher when the rounding carried into
    [2 ^ 53]. *)
Lemma binary_round_aux_canonical (sx : bool) (mx ex : Z) (lx : location)
    (mrs : shr_record) (e1 : Z) (m1 : positive) :
  shr_fexp prec emax mx ex lx = (mrs, e1) ->
  round_nearest_even (shr_m mrs) (loc_of_shr_record mrs) = Z.pos m1 ->
  fexp prec emax (Z.pos (digits2_pos m1) + e1) = e1 ->
  e1 <= 971 ->
  binary_round_aux prec emax sx mx ex lx = S754_finite sx m1 e1.
Proof.
  intros Hs Hr Hc He. unfold binary_round_aux. rewrite Hs, Hr.
  rewrite shr_fexp_noshift by (simpl Zdigits2; lia).
  simpl shr_m. 
  replace (e1 <=? emax - prec) with true by (symmetry; apply Z.leb_le; unfold emax, prec; lia).
  reflexivity.
Qed.

Lemma binary_round_aux_carry (sx : bool) (mx ex : Z) (lx : location)
    (mrs : shr_record) (e1 : Z) :
  shr_fexp prec emax mx ex lx = (mrs, e1) ->
  round_nearest_even (shr_m mrs) (loc_of_shr_record mrs) = 2 ^ 53 ->
  -1074 <= e1 -> e1 + 1 <= 971 ->
  binary_round_aux prec emax sx mx ex lx = S754_finite sx (2 ^ 52) (e1 + 1).
Proof.
  intros Hs Hr Hlo He. unfold binary_round_aux. rewrite Hs, Hr.
  rewrite (shr_fexp_shift _ _ _ 1).
  - simpl SpecFloat.iter_pos. change (shr_m (shr_1 (shr_record_of_loc (2 ^ 53) loc_Exact)))
      with (Z.pos (2 ^ 52)).
    cbv iota.
    replace (e1 + 1 <=? emax - prec) with true
      by (symmetry; apply Z.leb_le; unfold emax, prec; lia).
    reflexivity.
  - change (Zdigits2 (2 ^ 53)) with 54. rewrite fexp_value. lia.
Qed.

(** *** The square root *)

Lemma valid_finite_range (s : bool) (m : positive) (e : Z) :
  valid_binary (S754_finite s m e) = true ->
  let d := Z.pos (digits2_pos m) in
  -1074 <= e <= 971 /\ 1 <= d <= 53 /\ e = Z.max (d + e - 53) (-1074).
Proof.
  intros Hv d. subst d.
  unfold SpecFloat.valid_binary, bounded, canonical_mantissa in Hv.
  rewrite andb_true_iff, Z.eqb_eq, Z.leb_le, fexp_value in Hv. unfold emax, prec in Hv.
  destruct Hv as [Hc He]. set (d := digits2_pos m) in *. clearbody d. lia.
Qed.

Lemma sqrt_of_finite (ms : positive) (es : Z) :
  valid_binary (S754_finite false ms es) = true ->
  exists (Q : positive) (e' : Z),
    SF64sqrt (S754_finite false ms es) = S754_finite false Q e'
    /\ -589 <= e' <= 459
    /\ 52 <= es - 2 * e'
    /\ 2 ^ 104 <= Z.pos ms * 2 ^ (es - 2 * e') <= 2 ^ 106 - 2 ^ 53
    /\ 2 ^ 52 <= Z.pos Q < 2 ^ 53
    /\ - Z.pos Q <= Z.pos Q * Z.pos Q - Z.pos ms * 2 ^ (es - 2 * e') <= Z.pos Q.
Proof.
  intros Hv. destruct (valid_finite_range _ _ _ Hv) as (He & Hd & Hcanon).
  pose proof (digits2_bounds ms) as [Dlo Dhi].
  set (d := Z.pos (digits2_pos ms)) in *.
  set (e' := (d + es + 1) / 2 - 53).
  assert (He' : -589 <= e' <= 459) by (subst e'; Z.div_mod_to_equations; lia).
  assert (Hsh : 52 <= es - 2 * e') by (subst e'; Z.div_mod_to_equations; lia).
  assert (Hdig : d + (es - 2 * e') = 105 \/ d + (es - 2 * e') = 106)
    by (subst e'; Z.div_mod_to_equations; lia).
  set (sh := es - 2 * e') in *.
  set (m' := Z.pos ms * 2 ^ sh).
  assert (Hm'lo : 2 ^ 104 <= m').
  { subst m'. apply Z.le_trans with (2 ^ (d - 1) * 2 ^ sh).
    - rewrite <- Z.pow_add_r by lia. apply Z.pow_le_mono_r; lia.
    - apply Z.mul_le_mono_nonneg_r; [apply Z.pow_nonneg; lia | exact Dlo]. }
  assert (Hm'hi : m' <= 2 ^ (d + sh) - 2 ^ sh).
  { subst m'. rewrite Z.pow_add_r by lia.
    assert (0 < 2 ^ sh) by (apply Z.pow_pos_nonneg; lia). nia. }
  assert (Hm'hi2 : m' <= 2 ^ 106 - 2 ^ 53 /\ (d + sh = 105 -> m' < 2 ^ 105)).
  { assert (Hp0 : 0 < 2 ^ sh) by (apply Z.pow_pos_nonneg; lia).
    assert (Hc : 2 ^ 105 < 2 ^ 106 - 2 ^ 53) by (vm_compute; reflexivity).
    destruct Hdig as [E|E]; rewrite E in Hm'hi.
    - split; [|intros _]; lia.
    - assert (Hp53 : 2 ^ 53 <= 2 ^ sh) by (apply Z.pow_le_mono_r; lia).
      split; [|intros E']; lia. }
  destruct Hm'hi2 as [Hm'hi106 Hm'hi105].
  (* the integer square root *)
  pose proof (Z.sqrtrem_spec m' ltac:(lia)) as Hsq.
  destruct (Z.sqrtrem m') as [q r] eqn:Hqr.
  destruct Hsq as [Hm'q Hr].
  assert (Hq0 : 0 <= q).
  { pose proof (Z.sqrtrem_sqrt m') as Hs. rewrite Hqr in Hs. simpl in Hs.
    rewrite Hs. apply Z.sqrt_nonneg. }
  assert (Hqlo : 2 ^ 52 <= q).
  { destruct (Z.le_gt_cases (2 ^ 52) q) as [H|H]; [exact H|exfalso].
    assert (q <= 2 ^ 52 - 1) by lia.
    assert (q * q + 2 * q <= (2 ^ 52 - 1) * (2 ^ 52 - 1) + 2 * (2 ^ 52 - 1)) by nia.
    assert ((2 ^ 52 - 1) * (2 ^ 52 - 1) + 2 * (2 ^ 52 - 1) < 2 ^ 104)
      by (vm_compute; reflexivity).
    lia. }
  assert (Hqhi : q < 2 ^ 53).
  { destruct (Z.lt_ge_cases q (2 ^ 53)) as [H|H]; [exact H|exfalso].
    assert (2 ^ 53 * 2 ^ 53 <= q * q) by nia.
    assert (2 ^ 106 - 2 ^ 53 < 2 ^ 53 * 2 ^ 53) by (vm_compute; reflexivity).
    lia. }
  (* the rounded root *)
  set (l := if r =? 0 then loc_Exact
            else loc_Inexact (if r <=? q then Lt else Gt)).
  set (Qz := round_nearest_even q l).
  assert (HQ : (Qz = q /\ r <= q) \/ (Qz = q + 1 /\ q < r)).
  { subst Qz l. destruct (Z.eqb_spec r 0) as [E|E]; [left; simpl; lia|].
    destruct (Z.leb_spec r q) as [L|L]; simpl; [left|right]; lia. }
  assert (HQhi : Qz < 2 ^ 53).
  { destruct HQ as [[-> _]|[-> Hgt]]; [exact Hqhi|].
    destruct (Z.lt_ge_cases (q + 1) (2 ^ 53)) as [H|H]; [exact H|exfalso].
    assert (Eq : q = 2 ^ 53 - 1) by lia.
    assert (2 ^ 106 - 2 ^ 53 < (2 ^ 53 - 1) * (2 ^ 53 - 1) + (2 ^ 53 - 1) + 1)
      by (vm_compute; reflexivity).
    rewrite Eq in Hm'q, Hgt. lia. }
  assert (HQlo : 2 ^ 52 <= Qz) by (destruct HQ as [[-> _]|[-> _]]; lia).
  assert (HQpos : 0 < Qz) by (assert (0 < 2 ^ 52) by (vm_compute; reflexivity); lia).
  exists (Z.to_pos Qz), e'. rewrite (Z2Pos.id Qz HQpos).
  split; [|split; [exact He'|split; [exact Hsh|split; [split; assumption|split; [split; assumption|]]]]].
  - unfold SF64sqrt, SFsqrt, SFsqrt_core_binary.
    change (Zdigits2 (Z.pos ms)) with d.
    rewrite !Z.div2_div, fexp_value.
    replace (Z.min (Z.max ((d + es + 1) / 2 - 53) (-1074)) (es / 2)) with e'
      by (subst e'; Z.div_mod_to_equations; lia).
    fold sh.
    assert (Hshl : match sh with
                   | 0 => Z.pos ms
                   | Z.pos _ => Z.shiftl (Z.pos ms) sh
                   | Z.neg _ => 0
                   end = m').
    { destruct sh as [|p|p] eqn:Es; try lia.
      rewrite Z.shiftl_mul_pow2 by lia. reflexivity. }
    rewrite Hshl, Hqr. fold l.
    assert (Hdq : Zdigits2 q = 53).
    { destruct q as [|qp|qp]; try lia.
      simpl. apply digits2_unique. split; [exact Hqlo | exact Hqhi]. }
    apply (binary_round_aux_canonical false q e' l (shr_record_of_loc q l) e').
    + apply shr_fexp_noshift. rewrite Hdq, fexp_value. lia.
    + rewrite shr_record_of_loc_m, loc_of_shr_record_of_loc. fold Qz.
      symmetry. apply Z2Pos.id. exact HQpos.
    + rewrite (digits2_unique (Z.to_pos Qz) 53)
        by (rewrite Z2Pos.id by exact HQpos; split; assumption).
      rewrite fexp_value. lia.
    + lia.
  - change (Z.pos ms * 2 ^ (es - 2 * e')) with m'. rewrite Hm'q. destruct HQ as [[-> Hle]|[-> Hgt]]; split; ring_simplify; lia.
Qed.

(** *** The square of the root *)

Lemma canonical_exponent (m1 : positive) (e1 : Z) :
  Z.pos m1 < 2 ^ 53 ->
  e1 = -1074 \/ (2 ^ 52 <= Z.pos m1 /\ -1074 <= e1) ->
  fexp prec emax (Z.pos (digits2_pos m1) + e1) = e1.
Proof.
  intros Hlt H. rewrite fexp_value.
  pose proof (digits2_bounds m1) as [Dlo Dhi].
  set (d := Z.pos (digits2_pos m1)) in *.
  assert (Hd0 : 0 < d) by (subst d; lia). clearbody d.
  assert (Hd : d <= 53).
  { destruct (Z.le_gt_cases d 53) as [L|L]; [exact L|exfalso].
    assert (2 ^ 53 <= 2 ^ (d - 1)) by (apply Z.pow_le_mono_r; lia). lia. }
  destruct H as [->|[Hlo He]]; [lia|].
  assert (d = 53); [|lia].
  destruct (Z.le_gt_cases 53 d) as [L|L]; [lia|exfalso].
  assert (2 ^ d <= 2 ^ 52) by (apply Z.pow_le_mono_r; lia). lia.
Qed.

(** A multiple of [w] within [w / 2] of [X], when [X] is within
    [2 ^ 53] of the multiple [K * w] and [w] holds at least [2 ^ 54]. *)
Lemma nearest_on_grid (P K w X Qz : Z) :
  2 ^ 54 <= w ->
  - w <= 2 * (P * w - X) <= w ->
  - Qz <= X - K * w <= Qz ->
  Qz < 2 ^ 53 ->
  P = K.
Proof.
  intros Hw Hnear Hclose HQ.
  assert (Hd : - w < (P - K) * w < w) by (change (2 ^ 54) with (2 * 2 ^ 53) in Hw; lia).
  destruct (Z.lt_trichotomy P K) as [L|[E|L]]; [exfalso|exact E|exfalso]; nia.
Qed.

(** The mantissa [P] that rounding the square [X] of the root gives,
    [n] places being shifted out. *)
Lemma square_rounding (X m' Qz P n dX e' : Z) :
  2 ^ 52 <= Qz < 2 ^ 53 ->
  X = Qz * Qz ->
  2 ^ 104 <= m' ->
  - Qz <= X - m' <= Qz ->
  (54 <= -1074 - 2 * e' -> exists K : Z, m' = K * 2 ^ (-1074 - 2 * e')) ->
  2 ^ (dX - 1) <= X < 2 ^ dX ->
  dX = 105 \/ dX = 106 ->
  n = Z.max (dX - 53) (-1074 - 2 * e') ->
  X / 2 ^ n <= P <= X / 2 ^ n + 1 ->
  - 2 ^ n <= 2 * (P * 2 ^ n - X) <= 2 ^ n ->
  0 < P <= 2 ^ 53
  /\ - (3 * 2 ^ 52) <= P * 2 ^ n - m' <= 3 * 2 ^ 52
  /\ (P = 2 ^ 53 -> n = 52 /\ dX = 105)
  /\ (n = dX - 53 -> 2 ^ 52 <= P).
Proof.
  intros HQ HX Hm' Hclose Hgrid HdigX HdX Hn HPrange HPnear.
  assert (HXlo : 2 ^ 104 <= X).
  { rewrite HX. change (2 ^ 104) with (2 ^ 52 * 2 ^ 52). clear - HQ. nia. }
  assert (HXhi : X <= (2 ^ 53 - 1) * (2 ^ 53 - 1)) by (rewrite HX; clear - HQ; nia).
  assert (Hn52 : 52 <= n) by lia.
  set (w := 2 ^ n) in *.
  assert (Hw : 0 < w) by (subst w; apply Z.pow_pos_nonneg; lia).
  destruct (Z.le_gt_cases 54 n) as [Hbig|Hsmall].
  - (* the grid of the subnormal numbers *)
    assert (Hgrid' : n = -1074 - 2 * e') by lia.
    destruct (Hgrid ltac:(lia)) as [K HK]. rewrite <- Hgrid' in HK. fold w in HK.
    assert (Hw54 : 2 ^ 54 <= w) by (subst w; apply Z.pow_le_mono_r; lia).
    assert (HPK : P = K).
    { apply (nearest_on_grid P K w X Qz); [exact Hw54 | exact HPnear | lia | lia]. }
    subst K. clearbody w.
    assert (HP52 : P <= 2 ^ 52).
    { destruct (Z.le_gt_cases P (2 ^ 52)) as [L|L]; [exact L|exfalso].
      assert ((2 ^ 52 + 1) * 2 ^ 54 <= P * w) by (clear - L Hw54; nia).
      assert ((2 ^ 53 - 1) * (2 ^ 53 - 1) + 2 ^ 53 < (2 ^ 52 + 1) * 2 ^ 54)
        by (vm_compute; reflexivity).
      clear - H H0 HK HXhi Hclose HQ. lia. }
    assert (HP0 : 0 < P) by (clear - HK Hm' Hw; nia).
    assert (Hc : 2 ^ 52 < 2 ^ 53) by (vm_compute; reflexivity).
    split; [clear - HP0 HP52 Hc; lia|].
    split; [clear - HK; lia|].
    split; [intros E; clear - E HP52 Hc; lia | intros E; clear - E Hbig HdX; lia].
  - (* a shift of 52 or 53 places *)
    assert (Hwd : (n = 53 /\ w = 2 ^ 53) \/ (n = 52 /\ w = 2 ^ 52 /\ dX = 105)).
    { assert (Hnp : n = 52 \/ n = 53) by lia.
      destruct Hnp as [E|E]; [right|left]; subst w; rewrite E;
        repeat split; lia. }
    clearbody w.
    pose proof (Z.div_mod X w ltac:(lia)) as Hdm.
    pose proof (Z.mod_pos_bound X w Hw) as Hrem.
    set (a := X / w) in *. set (rem := X mod w) in *. clearbody a rem.
    assert (Hc : (2 ^ 53 - 1) * (2 ^ 53 - 1) + 2 ^ 52 < 2 ^ 53 * 2 ^ 53
                 /\ 2 ^ 51 * 2 ^ 52 <= 2 ^ 104 /\ 2 ^ 51 * 2 ^ 53 <= 2 ^ 104
                 /\ 2 ^ 105 + 2 ^ 51 < (2 ^ 53 + 1) * 2 ^ 52
                 /\ 0 < 2 ^ 51 /\ 3 * 2 ^ 52 = 2 ^ 52 + 2 ^ 53
                 /\ 2 ^ 104 = 2 ^ 52 * 2 ^ 52 /\ 2 ^ 105 = 2 ^ 52 * 2 ^ 53)
      by (vm_compute; repeat split; discriminate).
    destruct Hc as (C1 & C2 & C3 & C4 & C5 & C6 & C7 & C8).
    assert (HP0 : 2 ^ 51 <= P).
    { destruct Hwd as [[_ Ew]|[_ [Ew _]]]; rewrite Ew in *;
        clear - HPrange Hdm Hrem HXlo C2 C3; nia. }
    assert (HPhi : P <= 2 ^ 53).
    { destruct Hwd as [[_ Ew]|[_ [Ew Ed]]]; rewrite Ew in *.
      - clear - HPnear HXhi C1. nia.
      - rewrite Ed in HdigX. clear - HPnear HdigX C4. nia. }
    assert (Hcarry : P = 2 ^ 53 -> n = 52 /\ dX = 105).
    { intros EP. destruct Hwd as [[En Ew]|[En [Ew Ed]]]; [exfalso|split; assumption].
      rewrite EP, Ew in HPnear. clear - HPnear HXhi C1. lia. }
    split; [clear - HP0 HPhi C5; lia|].
    split; [|split; [exact Hcarry|]].
    + assert (Hhalf : w <= 2 ^ 53).
      { destruct Hwd as [[_ Ew]|[_ [Ew _]]]; rewrite Ew; [lia|].
        apply Z.pow_le_mono_r; lia. }
      rewrite C6. clear - Hhalf HPnear Hclose HQ. lia.
    + intros E.
      destruct (Z.le_gt_cases (2 ^ 52) P) as [L|L]; [exact L|exfalso].
      destruct Hwd as [[En Ew]|[En [Ew Ed]]].
      * assert (Ed : dX = 106) by lia. rewrite Ed in HdigX.
        change (2 ^ (106 - 1)) with (2 ^ 105) in HdigX. rewrite Ew in *.
        clear - L HPrange Hdm Hrem HdigX C8. nia.
      * rewrite Ed in HdigX. change (2 ^ (105 - 1)) with (2 ^ 104) in HdigX.
        rewrite Ew in *. clear - L HPrange Hdm Hrem HdigX C7. nia.
Qed.

Lemma square_of_finite (Q : positive) (e' m' : Z) :
  2 ^ 52 <= Z.pos Q < 2 ^ 53 ->
  -589 <= e' <= 459 ->
  2 ^ 104 <= m' ->
  - Z.pos Q <= Z.pos Q * Z.pos Q - m' <= Z.pos Q ->
  (54 <= -1074 - 2 * e' -> exists K : Z, m' = K * 2 ^ (-1074 - 2 * e')) ->
  exists (mp : positive) (ep : Z),
    SF64mul (S754_finite false Q e') (S754_finite false Q e') = S754_finite false mp ep
    /\ 2 * e' + 52 <= ep
    /\ - (3 * 2 ^ 52) <= Z.pos mp * 2 ^ (ep - 2 * e') - m' <= 3 * 2 ^ 52.
Proof.
  intros HQ He' Hm' Hclose Hgrid.
  unfold SF64mul, SFmul. simpl xorb.
  set (X := Z.pos (Q * Q)).
  assert (HX : X = Z.pos Q * Z.pos Q) by (subst X; apply Pos2Z.inj_mul).
  pose proof (digits2_bounds (Q * Q)) as HdigX. fold X in HdigX.
  set (dX := Z.pos (digits2_pos (Q * Q))) in *.
  assert (HdX : dX = 105 \/ dX = 106).
  { assert (HXlo : 2 ^ 104 <= X).
    { rewrite HX. change (2 ^ 104) with (2 ^ 52 * 2 ^ 52). clear - HQ. nia. }
    assert (HXhi : X < 2 ^ 106).
    { rewrite HX. change (2 ^ 106) with (2 ^ 53 * 2 ^ 53). clear - HQ. nia. }
    assert (104 < dX).
    { destruct (Z.lt_ge_cases 104 dX) as [L|L]; [exact L|exfalso].
      assert (2 ^ dX <= 2 ^ 104) by (apply Z.pow_le_mono_r; subst dX; lia).
      clear - H HXlo HdigX. lia. }
    assert (dX < 107).
    { destruct (Z.lt_ge_cases dX 107) as [L|L]; [exact L|exfalso].
      assert (2 ^ 106 <= 2 ^ (dX - 1)) by (apply Z.pow_le_mono_r; lia).
      clear - H0 HXhi HdigX. lia. }
    lia. }
  set (n := fexp prec emax (dX + (e' + e')) - (e' + e')).
  assert (Hn : n = Z.max (dX - 53) (-1074 - 2 * e')) by (subst n; rewrite fexp_value; lia).
  assert (Hn52 : 52 <= n) by lia.
  destruct n as [|np|np] eqn:En; try lia.
  pose proof (shr_round_nearest X np _ ltac:(lia) eq_refl) as [HPrange HPnear].
  set (mrs := SpecFloat.iter_pos shr_1 np (shr_record_of_loc X loc_Exact)) in *.
  set (P := round_nearest_even (shr_m mrs) (loc_of_shr_record mrs)) in *.
  cbv zeta in HPrange, HPnear.
  assert (Hshift : shr_fexp prec emax X (e' + e') loc_Exact = (mrs, e' + e' + Z.pos np)).
  { apply shr_fexp_shift. exact En. }
  destruct (square_rounding X m' (Z.pos Q) P (Z.pos np) dX e' HQ HX Hm'
              ltac:(rewrite HX; exact Hclose) Hgrid HdigX HdX Hn HPrange HPnear)
    as (HPpos & HPclose & HPcarry & HPnormal).
  assert (He1 : -1074 <= e' + e' + Z.pos np) by lia.
  destruct (Z.eq_dec P (2 ^ 53)) as [EP|NP].
  - destruct (HPcarry EP) as [Enp EdX].
    exists (2 ^ 52)%positive, (e' + e' + Z.pos np + 1). split; [|split].
    + apply (binary_round_aux_carry false X (e' + e') loc_Exact mrs); try assumption; lia.
    + lia.
    + replace (e' + e' + Z.pos np + 1 - 2 * e') with (Z.pos np + 1) by lia.
      rewrite Z.pow_add_r by lia.
      change (Z.pos (2 ^ 52) * (2 ^ Z.pos np * 2 ^ 1)) with (2 ^ 52 * (2 ^ Z.pos np * 2)).
      replace (2 ^ 52 * (2 ^ Z.pos np * 2)) with (2 ^ 53 * 2 ^ Z.pos np)
        by (change (2 ^ 53) with (2 ^ 52 * 2); ring).
      rewrite <- EP. exact HPclose.
  - exists (Z.to_pos P), (e' + e' + Z.pos np).
    assert (HPid : Z.pos (Z.to_pos P) = P) by (apply Z2Pos.id; lia).
    split; [|split].
    + apply (binary_round_aux_canonical false X (e' + e') loc_Exact mrs);
        try assumption.
      * fold P. symmetry. exact HPid.
      * apply canonical_exponent; rewrite HPid; [clear - HPpos NP; lia|].
        destruct (Z.eq_dec (Z.pos np) (dX - 53)) as [E|E].
        -- right. split; [apply HPnormal; exact E | exact He1].
        -- left. clear - E Hn. lia.
      * clear - Hn HdX He'. lia.
    + clear - Hn52. lia.
    + rewrite HPid. replace (e' + e' + Z.pos np - 2 * e') with (Z.pos np) by lia.
      exact HPclose.
Qed.

(** *** The quotient *)

Lemma round_nearest_even_le (m : Z) (l : location) : round_nearest_even m l <= m + 1.
Proof.
  unfold round_nearest_even. destruct l as [|[| |]]; try lia.
  destruct (Z.even m); lia.
Qed.

Lemma scaled_digits (m : positive) (k : Z) :
  0 <= k ->
  2 ^ (Z.pos (digits2_pos m) + k - 1) <= Z.pos m * 2 ^ k < 2 ^ (Z.pos (digits2_pos m) + k).
Proof.
  intros Hk. pose proof (digits2_bounds m) as [Dlo Dhi].
  set (d := Z.pos (digits2_pos m)) in *.
  assert (Hd : 0 < d) by (subst d; lia). clearbody d.
  assert (Hp : 0 < 2 ^ k) by (apply Z.pow_pos_nonneg; lia).
  replace (d + k - 1) with (d - 1 + k) by lia.
  rewrite !Z.pow_add_r by lia. nia.
Qed.

(** The integer quotient [q] of [a * T] by [b], for [b] within
    [3 * 2 ^ 52] of [a] and [a] at least [2 ^ 104], is within [beta]
    of [T]. *)
Lemma quotient_window (a b q T beta : Z) :
  2 ^ 104 <= a ->
  - (3 * 2 ^ 52) <= b - a <= 3 * 2 ^ 52 ->
  q * b <= a * T < (q + 1) * b ->
  0 <= beta <= T ->
  (T - beta) * (3 * 2 ^ 52) < beta * 2 ^ 104 ->
  (T + beta + 1) * (3 * 2 ^ 52) < (beta + 1) * 2 ^ 104 ->
  T - beta <= q <= T + beta.
Proof.
  intros Ha Hab Hqb Hbeta Hlo Hhi.
  set (A := 2 ^ 104) in *. set (E := 3 * 2 ^ 52) in *.
  assert (HE : 0 < E) by (subst E; reflexivity).
  assert (HEA : E < A) by (subst E A; reflexivity).
  clearbody A E.
  assert (Hb : 0 < b) by lia.
  split.
  - destruct (Z.le_gt_cases (T - beta) q) as [L|L]; [exact L|exfalso].
    assert (H1 : (q + 1) * b <= (T - beta) * b) by (clear - L Hb; nia).
    assert (H2 : (T - beta) * b <= (T - beta) * (a + E)) by (clear - Hbeta Hab; nia).
    assert (H3 : beta * A <= beta * a) by (clear - Hbeta Ha; nia).
    clear - H1 H2 H3 Hqb Hlo. lia.
  - destruct (Z.le_gt_cases q (T + beta)) as [L|L]; [exact L|exfalso].
    assert (H1 : (T + beta + 1) * b <= q * b) by (clear - L Hb; nia).
    assert (H2 : (T + beta + 1) * (a - E) <= (T + beta + 1) * b) by (clear - Hbeta Hab; nia).
    assert (H3 : (beta + 1) * A <= (beta + 1) * a) by (clear - Hbeta Ha; nia).
    clear - H1 H2 H3 Hqb Hhi. lia.
Qed.

(** Rounding a quotient [q * 2 ^ - t] of 53 or 54 digits that lies in
    the window of [quotient_window]. *)
Lemma round_quotient (q t : Z) (l : location) :
  (t = 52 /\ 2 ^ 52 <= q <= 2 ^ 52 + 4)
  \/ (t = 53 /\ 2 ^ 53 - 7 <= q <= 2 ^ 53 + 7)
  \/ (t = 54 /\ 2 ^ 54 - 13 <= q < 2 ^ 54) ->
  exists (mr : positive) (er : Z),
    binary_round_aux prec emax false q (- t) l = S754_finite false mr er
    /\ ((er = -53 /\ 2 ^ 53 - 16 <= Z.pos mr < 2 ^ 53)
        \/ (er = -52 /\ 2 ^ 52 <= Z.pos mr <= 2 ^ 52 + 8)).
Proof.
  intros Hq.
  assert (Hc2 : 2 ^ 52 < 2 ^ 53 - 16 /\ 2 ^ 53 < 2 ^ 54 - 13 /\ 2 ^ 52 + 8 < 2 ^ 53
                /\ 2 ^ 54 = 2 * 2 ^ 53 /\ 2 ^ 53 = 2 * 2 ^ 52)
    by (vm_compute; repeat split; reflexivity).
  destruct Hc2 as (C1 & C2 & C3 & C4 & C5).
  change (Z.pos (2 ^ 52)) with (2 ^ 52).
  set (c52 := 2 ^ 52) in *. set (c53 := 2 ^ 53) in *. set (c54 := 2 ^ 54) in *.
  destruct (Z.lt_ge_cases q c53) as [Hsmall|Hlarge].
  - (* 53 digits: no shift *)
    assert (Hq' : (t = 52 /\ c52 <= q <= c52 + 4) \/ (t = 53 /\ c53 - 7 <= q)).
    { clearbody c52 c53 c54.
      destruct Hq as [H|[H|H]]; [left; exact H | right; lia | lia]. }
    assert (Hq0 : c52 <= q) by (clearbody c52 c53 c54; lia).
    assert (Hdq : Zdigits2 q = 53).
    { destruct q as [|qp|qp]; try (subst c52; lia). simpl. apply digits2_unique.
      change (2 ^ (53 - 1)) with c52. fold c53. split; assumption. }
    assert (Hshift : shr_fexp prec emax q (- t) l = (shr_record_of_loc q l, - t)).
    { apply shr_fexp_noshift. rewrite Hdq, fexp_value. clear - Hq'. lia. }
    pose proof (round_nearest_even_ge q l) as Hge.
    pose proof (round_nearest_even_le q l) as Hle.
    set (R := round_nearest_even q l) in *.
    destruct (Z.eq_dec R c53) as [ER|NR].
    + exists (2 ^ 52)%positive, (- t + 1). split.
      * apply (binary_round_aux_carry false q (- t) l (shr_record_of_loc q l));
          [exact Hshift | rewrite shr_record_of_loc_m, loc_of_shr_record_of_loc; exact ER
          | clear - Hq'; lia | clear - Hq'; lia].
      * right. change (Z.pos (2 ^ 52)) with c52. clearbody c52 c53 c54 R.
        clear - Hq' ER Hle C1 C2 C3 C4 C5. lia.
    + exists (Z.to_pos R), (- t).
      assert (HR0 : 0 < R) by (subst c52; lia).
      assert (HRid : Z.pos (Z.to_pos R) = R) by (apply Z2Pos.id; exact HR0).
      split.
      * apply (binary_round_aux_canonical false q (- t) l (shr_record_of_loc q l));
          [exact Hshift
          | rewrite shr_record_of_loc_m, loc_of_shr_record_of_loc; symmetry; exact HRid
          | apply canonical_exponent; rewrite HRid; fold c53; fold c52;
            [clear - Hle Hsmall NR; lia | right; clear - Hq0 Hge Hq'; lia]
          | clear - Hq'; lia].
      * rewrite HRid. clearbody c52 c53 c54 R.
        clear - Hq' Hge Hle NR Hsmall C1 C2 C3 C4 C5. lia.
  - (* 54 digits: one place is shifted out *)
    assert (Hq' : (t = 53 /\ q <= c53 + 7) \/ (t = 54 /\ c54 - 13 <= q < c54)).
    { clearbody c52 c53 c54.
      destruct Hq as [H|[H|H]]; [lia | left; lia | right; exact H]. }
    assert (Hq1 : q < c54) by (clearbody c52 c53 c54; lia).
    assert (Hdq : Zdigits2 q = 54).
    { destruct q as [|qp|qp]; try (subst c53; lia). simpl. apply digits2_unique.
      change (2 ^ (54 - 1)) with c53. fold c54. split; [lia|assumption]. }
    set (mrs := SpecFloat.iter_pos shr_1 1 (shr_record_of_loc q l)).
    assert (Hshift : shr_fexp prec emax q (- t) l = (mrs, - t + 1)).
    { apply (shr_fexp_shift q (- t) l 1). rewrite Hdq, fexp_value. clear - Hq'. lia. }
    assert (Hm : shr_m mrs = q / 2).
    { subst mrs. rewrite shr_iter_value by (rewrite shr_record_of_loc_m; subst c53; lia).
      rewrite shr_record_of_loc_m. reflexivity. }
    pose proof (round_nearest_even_ge (shr_m mrs) (loc_of_shr_record mrs)) as Hge.
    pose proof (round_nearest_even_le (shr_m mrs) (loc_of_shr_record mrs)) as Hle.
    set (R := round_nearest_even (shr_m mrs) (loc_of_shr_record mrs)) in *.
    rewrite Hm in Hge, Hle.
    assert (Hhalf : 2 * (q / 2) <= q < 2 * (q / 2) + 2)
      by (clear; Z.div_mod_to_equations; lia).
    set (h := q / 2) in *.
    clearbody h.
    destruct (Z.eq_dec R c53) as [ER|NR].
    + exists (2 ^ 52)%positive, (- t + 1 + 1). split.
      * apply (binary_round_aux_carry false q (- t) l mrs);
          [exact Hshift | exact ER | clear - Hq'; lia | clear - Hq'; lia].
      * right. change (Z.pos (2 ^ 52)) with c52. clearbody c52 c53 c54 R.
        clear - Hq' ER Hle Hhalf C1 C2 C3 C4 C5. lia.
    + exists (Z.to_pos R), (- t + 1).
      assert (HR0 : 0 < R).
      { clearbody c52 c53 c54 R. assert (0 < c52) by (clear - C1 C5; lia).
        clear - H Hge Hhalf Hlarge C5. lia. }
      assert (HRid : Z.pos (Z.to_pos R) = R) by (apply Z2Pos.id; exact HR0).
      split.
      * apply (binary_round_aux_canonical false q (- t) l mrs);
          [exact Hshift | symmetry; exact HRid
          | apply canonical_exponent; rewrite HRid; fold c53; fold c52;
            clearbody c52 c53 c54 R;
            [clear - Hle Hhalf Hq1 NR C4; lia
            | right; clear - Hge Hhalf Hlarge Hq' C5; lia]
          | clear - Hq'; lia].
      * rewrite HRid. clearbody c52 c53 c54 R.
        clear - Hq' Hge Hle NR Hhalf Hlarge C1 C2 C3 C4 C5. lia.
Qed.

(** The quotient of two numbers that differ by at most [3 * 2 ^ 52]
    units, of which the dividend holds at least [2 ^ 104], lies within
    [2 ^ -49] of 1. *)
Lemma quotient_near_one (ms mp : positive) (es ep c : Z) :
  valid_binary (S754_finite false ms es) = true ->
  valid_binary (S754_finite false mp ep) = true ->
  c <= es -> c <= ep ->
  2 ^ 104 <= Z.pos ms * 2 ^ (es - c) ->
  - (3 * 2 ^ 52) <= Z.pos mp * 2 ^ (ep - c) - Z.pos ms * 2 ^ (es - c) <= 3 * 2 ^ 52 ->
  exists (mr : positive) (er : Z),
    SF64div (S754_finite false ms es) (S754_finite false mp ep) = S754_finite false mr er
    /\ ((er = -53 /\ 2 ^ 53 - 16 <= Z.pos mr < 2 ^ 53)
        \/ (er = -52 /\ 2 ^ 52 <= Z.pos mr <= 2 ^ 52 + 8)).
Proof.
  intros Hvs Hvp Hces Hcep Ha Hab.
  destruct (valid_finite_range _ _ _ Hvs) as (Hes & Hd1 & _).
  destruct (valid_finite_range _ _ _ Hvp) as (Hep & Hd2 & _).
  clear Hvs Hvp.
  pose proof (scaled_digits ms (es - c) ltac:(lia)) as Da.
  pose proof (scaled_digits mp (ep - c) ltac:(lia)) as Db.
  set (d1 := Z.pos (digits2_pos ms)) in *. set (d2 := Z.pos (digits2_pos mp)) in *.
  set (a := Z.pos ms * 2 ^ (es - c)) in *. set (b := Z.pos mp * 2 ^ (ep - c)) in *.
  set (ka := d1 + (es - c)) in *. set (kb := d2 + (ep - c)) in *.
  assert (Hka : 105 <= ka).
  { destruct (Z.le_gt_cases 105 ka) as [L|L]; [exact L|exfalso].
    assert (2 ^ ka <= 2 ^ 104) by (apply Z.pow_le_mono_r; lia).
    clear - H Ha Da. lia. }
  assert (Hk : kb = ka - 1 \/ kb = ka \/ kb = ka + 1).
  { assert (Hc52 : 3 * 2 ^ 52 < 2 ^ 103) by (vm_compute; reflexivity).
    assert (Hp2 : 2 ^ (ka + 1) = 2 * 2 ^ ka) by (rewrite Z.pow_add_r by lia; lia).
    assert (Hp1 : 2 ^ (ka - 1) = 2 * 2 ^ (ka - 2)).
    { replace (ka - 1) with (ka - 2 + 1) by lia. rewrite Z.pow_add_r by lia. lia. }
    assert (Hp104 : 2 ^ 104 <= 2 ^ (ka - 1)) by (apply Z.pow_le_mono_r; lia).
    assert (Hp103 : 2 ^ 104 = 2 * 2 ^ 103) by reflexivity.
    assert (kb <= ka + 1).
    { destruct (Z.le_gt_cases kb (ka + 1)) as [L|L]; [exact L|exfalso].
      assert (2 ^ (ka + 1) <= 2 ^ (kb - 1)) by (apply Z.pow_le_mono_r; lia).
      clear - H Hp2 Hp104 Hp103 Hc52 Da Db Hab. lia. }
    assert (ka - 1 <= kb).
    { destruct (Z.le_gt_cases (ka - 1) kb) as [L|L]; [exact L|exfalso].
      assert (2 ^ kb <= 2 ^ (ka - 2)) by (apply Z.pow_le_mono_r; lia).
      clear - H0 Hp1 Hp104 Hp103 Hc52 Da Db Hab. lia. }
    lia. }
  set (t := 53 + kb - ka).
  assert (Ht : t = 52 \/ t = 53 \/ t = 54) by (subst t; clear - Hk; lia).
  set (sd := 53 - d1 + d2).
  assert (Hsd : 1 <= sd) by (subst sd; clear - Hd1 Hd2; lia).
  set (m1 := Z.pos ms * 2 ^ sd).
  assert (Hshl : match sd with
                 | 0 => Z.pos ms
                 | Z.pos _ => Z.shiftl (Z.pos ms) sd
                 | Z.neg _ => 0
                 end = m1).
  { subst m1. clearbody sd. clear - Hsd.
    destruct sd as [|p|p]; [lia | | lia].
    rewrite Z.shiftl_mul_pow2 by lia. reflexivity. }
  (* the dividend, shifted, against the divisor *)
  assert (Hscale : m1 * 2 ^ (ep - c) = a * 2 ^ t).
  { subst m1 a. rewrite <- !Z.mul_assoc, <- !Z.pow_add_r by lia.
    do 2 f_equal. subst sd t ka kb. lia. }
  assert (Hexp : Z.min (Z.max (d1 + es - (d2 + ep) - 53) (-1074)) (es - ep) = - t)
    by (subst t ka kb; clear - Hes Hep Hd1 Hd2 Hk; lia).
  assert (Hsh : es - ep - - t = sd) by (subst sd t ka kb; clear; lia).
  pose proof (Z_div_mod m1 (Z.pos mp) ltac:(lia)) as Hdiv.
  destruct (Z.div_eucl m1 (Z.pos mp)) as [q r] eqn:Hqr.
  destruct Hdiv as [Hm1 Hr].
  assert (Hpb : 0 < 2 ^ (ep - c)) by (apply Z.pow_pos_nonneg; lia).
  assert (Hqb : q * b <= a * 2 ^ t < (q + 1) * b).
  { rewrite <- Hscale. subst b. clearbody m1. set (pb := 2 ^ (ep - c)) in *.
    clearbody pb. clear - Hm1 Hr Hpb. split; nia. }
  assert (Hkb : 2 ^ (kb - 1) <= b < 2 ^ kb) by exact Db.
  assert (Hkas : 2 ^ (ka - 1) <= a < 2 ^ ka) by exact Da.
  clearbody a b m1.
  (* where the quotient of the mantissas lies *)
  assert (Hq : (t = 52 /\ 2 ^ 52 <= q <= 2 ^ 52 + 4)
               \/ (t = 53 /\ 2 ^ 53 - 7 <= q <= 2 ^ 53 + 7)
               \/ (t = 54 /\ 2 ^ 54 - 13 <= q < 2 ^ 54)).
  { destruct Ht as [Et|[Et|Et]]; [left|right; left|right; right];
      (split; [exact Et|]); rewrite Et in Hqb.
    - assert (Ek : kb = ka - 1) by (subst t; clear - Et; lia).
      pose proof (quotient_window a b q (2 ^ 52) 4 Ha Hab Hqb
                    ltac:(vm_compute; split; discriminate) eq_refl eq_refl) as [_ Hup].
      split; [|exact Hup].
      destruct (Z.le_gt_cases (2 ^ 52) q) as [L|L]; [exact L|exfalso].
      rewrite Ek in Hkb. set (pa := 2 ^ (ka - 1)) in *. clearbody pa.
      clear - L Hkb Hkas Hqb. nia.
    - apply (quotient_window a b q (2 ^ 53) 7 Ha Hab Hqb);
        [vm_compute; split; discriminate | reflexivity | reflexivity].
    - assert (Ek : kb = ka + 1) by (subst t; clear - Et; lia).
      pose proof (quotient_window a b q (2 ^ 54) 13 Ha Hab Hqb
                    ltac:(vm_compute; split; discriminate) eq_refl eq_refl) as [Hlow _].
      split; [exact Hlow|].
      destruct (Z.lt_ge_cases q (2 ^ 54)) as [L|L]; [exact L|exfalso].
      rewrite Ek in Hkb. replace (ka + 1 - 1) with ka in Hkb by lia.
      set (pa := 2 ^ ka) in *. clearbody pa.
      clear - L Hkb Hkas Hqb. nia. }
  (* the division itself *)
  unfold SF64div, SFdiv, SFdiv_core_binary. simpl xorb.
  change (Zdigits2 (Z.pos ms)) with d1. change (Zdigits2 (Z.pos mp)) with d2.
  rewrite fexp_value, Hexp, Hsh.
  rewrite Hshl, Hqr.
  apply round_quotient. exact Hq.
Qed.

(** *** A sum of squares is not negative *)

Lemma binary_round_aux_nonneg (m e : Z) (l : location) :
  nonnegSF (binary_round_aux prec emax false m e l).
Proof.
  unfold binary_round_aux.
  destruct (shr_fexp prec emax m e l) as [mrs' e'].
  destruct (shr_fexp prec emax _ e' loc_Exact) as [mrs'' e''].
  destruct (shr_m mrs''); simpl; try reflexivity.
  destruct (e'' <=? emax - prec); reflexivity.
Qed.

Lemma SFmul_self_nonneg (x : spec_float) : nonnegSF (SF64mul x x).
Proof.
  destruct x as [s|s| |s m e]; simpl; try exact I; try (destruct s; reflexivity).
  replace (xorb s s) with false by (destruct s; reflexivity).
  apply binary_round_aux_nonneg.
Qed.

Lemma SFadd_nonneg (a b : spec_float) :
  nonnegSF a -> nonnegSF b -> nonnegSF (SF64add a b).
Proof.
  destruct a as [sa|sa| |sa ma ea], b as [sb|sb| |sb mb eb]; simpl;
    intros Ha Hb; try exact I; subst; try reflexivity.
  unfold binary_normalize. simpl cond_Zopp.
  destruct (Z.pos (fst (shl_align ma ea (Z.min ea eb)))
            + Z.pos (fst (shl_align mb eb (Z.min ea eb)))) as [|p|p] eqn:E;
    try reflexivity; try lia.
  unfold binary_round. destruct (shl_align p _ _) as [mz ez].
  apply binary_round_aux_nonneg.
Qed.

(** *** A number divided by the square of its square root *)

Lemma self_quotient (x : float) (ms : positive) (es : Z) :
  Prim2SF x = S754_finite false ms es ->
  PrimFloat.eqb (PrimFloat.sqrt x) 0 = false
  /\ exists (mr : positive) (er : Z),
       Prim2SF (x / (PrimFloat.sqrt x * PrimFloat.sqrt x)) = S754_finite false mr er
       /\ ((er = -53 /\ 2 ^ 53 - 16 <= Z.pos mr < 2 ^ 53)
           \/ (er = -52 /\ 2 ^ 52 <= Z.pos mr <= 2 ^ 52 + 8)).
Proof.
  intros Hx. pose proof (Prim2SF_valid x) as Vx. rewrite Hx in Vx.
  destruct (sqrt_of_finite ms es Vx) as (Q & e' & Hsqrt & He' & Hsh & Hm' & HQ & Hclose).
  assert (HM : Prim2SF (PrimFloat.sqrt x) = S754_finite false Q e').
  { rewrite FloatAxioms.sqrt_spec, Hx. exact Hsqrt. }
  split.
  { rewrite FloatAxioms.eqb_spec, HM. reflexivity. }
  destruct (square_of_finite Q e' (Z.pos ms * 2 ^ (es - 2 * e')) HQ He'
              ltac:(lia) Hclose) as (mp & ep & Hmul & Hep & Hp).
  { intros Hbig. exists (Z.pos ms * 2 ^ (es + 1074)).
    destruct (valid_finite_range _ _ _ Vx) as (Hes & _).
    rewrite <- Z.mul_assoc, <- Z.pow_add_r by lia. do 2 f_equal. lia. }
  assert (HP : Prim2SF (PrimFloat.sqrt x * PrimFloat.sqrt x) = S754_finite false mp ep).
  { rewrite FloatAxioms.mul_spec, HM. exact Hmul. }
  pose proof (Prim2SF_valid (PrimFloat.sqrt x * PrimFloat.sqrt x)) as Vp.
  rewrite HP in Vp.
  destruct (quotient_near_one ms mp es ep (2 * e') Vx Vp ltac:(lia) ltac:(lia)
              ltac:(lia) Hp) as (mr & er & Hdiv & Hr).
  exists mr, er. split; [|exact Hr].
  rewrite FloatAxioms.div_spec, Hx, HP. exact Hdiv.
Qed.

(** ** Results on [cosineSimilarity] *)

(** The dot product reads [b[i]] by index while it walks over [a]; with
    equally long prefixes already consumed, walking over [a] against [b]
    and over [b] against [a] meet the same pairs. *)
Lemma dot_reduce_sym (a : list float) :
  forall (b pa pb : list float) (s : float),
    List.length a = List.length b ->
    List.length pa = List.length pb ->
    reduceFrom (fun s ai i => (s + ai * numberAt (pb ++ b) i)%float) (List.length pa) a s
    = reduceFrom (fun s bi i => (s + bi * numberAt (pa ++ a) i)%float) (List.length pa) b s.
Proof.
  induction a as [|x a IH]; intros b pa pb s Hlen Hp.
  - destruct b; [reflexivity | discriminate].
  - destruct b as [|y b]; [discriminate|]. simpl.
    assert (Hy : numberAt (pb ++ y :: b) (List.length pa) = y)
      by (unfold numberAt; rewrite Hp; apply nth_middle).
    assert (Hx : numberAt (pa ++ x :: a) (List.length pa) = x)
      by (unfold numberAt; apply nth_middle).
    rewrite Hy, Hx, (float_mul_comm y x).
    replace (S (List.length pa)) with (List.length (pa ++ [x]))
      by (rewrite length_app; simpl; lia).
    replace (pb ++ y :: b) with ((pb ++ [y]) ++ b) by (rewrite <- app_assoc; reflexivity).
    replace (pa ++ x :: a) with ((pa ++ [x]) ++ a) by (rewrite <- app_assoc; reflexivity).
    apply IH.
    + simpl in Hlen. lia.
    + rewrite !length_app. simpl. lia.
Qed.

Lemma dotProduct_sym (a b : list float) :
  List.length a = List.length b -> dotProduct a b = dotProduct b a.
Proof.
  intros Hlen. unfold dotProduct, reduce.
  exact (dot_reduce_sym a b [] [] 0%float Hlen eq_refl).
Qed.

(** Walking over [v] against itself sums the squares. *)
Lemma dot_reduce_self (v : list float) :
  forall (p : list float) (s : float),
    reduceFrom (fun s x i => (s + x * numberAt (p ++ v) i)%float) (List.length p) v s
    = reduceFrom (fun s x (_ : nat) => (s + x * x)%float) (List.length p) v s.
Proof.
  induction v as [|x v IH]; intros p s.
  - reflexivity.
  - simpl.
    assert (Hx : numberAt (p ++ x :: v) (List.length p) = x)
      by (unfold numberAt; apply nth_middle).
    rewrite Hx.
    replace (S (List.length p)) with (List.length (p ++ [x]))
      by (rewrite length_app; simpl; lia).
    replace (p ++ x :: v) with ((p ++ [x]) ++ v) by (rewrite <- app_assoc; reflexivity).
    apply IH.
Qed.

Lemma dotProduct_self (v : list float) : dotProduct v v = sumSquares v.
Proof. unfold dotProduct, sumSquares, reduce. exact (dot_reduce_self v [] 0%float). Qed.

Lemma sumSquares_zeros (z : list float) :
  Forall (fun x => PrimFloat.eqb x 0 = true) z -> sumSquares z = 0%float.
Proof.
  unfold sumSquares, reduce. generalize 0%nat.
  induction z as [|x z IH]; intros i Hz.
  - reflexivity.
  - inversion Hz as [|? ? Hx Hz']; subst. simpl.
    rewrite (float_square_zero x Hx).
    change (0 + 0)%float with 0%float. apply IH. exact Hz'.
Qed.

Lemma magnitude_zeros (z : list float) :
  Forall (fun x => PrimFloat.eqb x 0 = true) z ->
  PrimFloat.eqb (magnitude z) 0 = true.
Proof.
  intros Hz. unfold magnitude. rewrite (sumSquares_zeros z Hz). reflexivity.
Qed.

Lemma cosineSimilarity_zero_magnitude (a b : list float) :
  PrimFloat.eqb (magnitude a) 0 = true \/ PrimFloat.eqb (magnitude b) 0 = true ->
  cosineSimilarity a b = 0%float.
Proof.
  intros H. unfold cosineSimilarity.
  destruct H as [H|H]; rewrite H; [|rewrite orb_true_r]; reflexivity.
Qed.

Lemma sumSquares_nonneg (v : list float) : nonnegSF (Prim2SF (sumSquares v)).
Proof.
  unfold sumSquares, reduce.
  assert (H : forall (i : nat) (acc : float),
             nonnegSF (Prim2SF acc) ->
             nonnegSF (Prim2SF (reduceFrom (fun s x (_ : nat) => (s + x * x)%float) i v acc))).
  { induction v as [|x v IH]; intros i acc Hacc; simpl.
    - exact Hacc.
    - apply IH. rewrite FloatAxioms.add_spec, FloatAxioms.mul_spec.
      apply SFadd_nonneg; [exact Hacc | apply SFmul_self_nonneg]. }
  apply H. reflexivity.
Qed.

(** For a vector whose sum of squares is finite and not zero, the
    similarity with itself lies within [2 ^ -49] of 1. *)
Lemma cosineSimilarity_self_near_one (v : list float) :
  PrimFloat.is_finite (sumSquares v) = true ->
  PrimFloat.eqb (sumSquares v) 0 = false ->
  PrimFloat.leb 0x1.ffffffffffff0p-1 (cosineSimilarity v v) = true
  /\ PrimFloat.leb (cosineSimilarity v v) 0x1.0000000000008p+0 = true.
Proof.
  intros Hfin Hnz.
  destruct (float_finite_nonzero _ Hfin Hnz) as (s & ms & es & Hs).
  pose proof (sumSquares_nonneg v) as Hsign. rewrite Hs in Hsign. simpl in Hsign.
  subst s.
  destruct (self_quotient _ ms es Hs) as (Hmag & mr & er & Hq & Hr).
  unfold cosineSimilarity, magnitude. rewrite Hmag. simpl.
  rewrite dotProduct_self, !FloatAxioms.leb_spec, Hq.
  change (Prim2SF 0x1.ffffffffffff0p-1) with (S754_finite false (2 ^ 53 - 16) (-53)).
  change (Prim2SF 0x1.0000000000008p+0) with (S754_finite false (2 ^ 52 + 8) (-52)).
  rewrite !SFleb_finite.
  change (Z.pos (2 ^ 53 - 16)) with (2 ^ 53 - 16).
  change (Z.pos (2 ^ 52 + 8)) with (2 ^ 52 + 8).
  destruct Hr as [[-> Hr]|[-> Hr]]; split; lia.
Qed.

(** C5, as worded: for the non-zero vector [1, 1] the sum of squares is
    2, the magnitude is the double nearest to the square root of 2, its
    square rounds to 2.0000000000000004, and the similarity of the
    vector with itself is 0.9999999999999998, not 1. *)
Lemma cosineSimilarity_self_counterexample :
  let v := [1%float; 1%float] in
  PrimFloat.eqb (magnitude v) 0 = false
  /\ (magnitude v * magnitude v)%float = 0x1.0000000000001p+1%float
  /\ cosineSimilarity v v = 0x1.ffffffffffffep-1%float
  /\ PrimFloat.eqb (cosineSimilarity v v) 1 = false
  /\ cosineSimilarity v v <> 1%float.
Proof.
  cbv zeta.
  assert (H : cosineSimilarity [1%float; 1%float] [1%float; 1%float]
              = 0x1.ffffffffffffep-1%float) by (vm_compute; reflexivity).
  split; [vm_compute; reflexivity|]. split; [vm_compute; reflexivity|].
  split; [exact H|]. split; [vm_compute; reflexivity|].
  rewrite H. intros Heq. apply (f_equal Prim2SF) in Heq.
  vm_compute in Heq. discriminate Heq.
Qed.

(** C5, amended: [cosineSimilarity] is symmetric on vectors of equal
    length; it is exactly 0 as soon as one of the two magnitudes is a
    zero, which is the case for a vector of zeros on either side; and on
    a vector [v] whose sum of squares [s] is finite and non-zero, the
    similarity of [v] with itself is exactly 1 when the square of the
    magnitude rounds back to [s], and lies between [1 - 2 ^ -49] and
    [1 + 2 ^ -49] in every case. *)
Theorem cosineSimilarity_properties :
  (forall a b : list float,
      List.length a = List.length b -> cosineSimilarity a b = cosineSimilarity b a)
  /\ (forall a b : list float,
        PrimFloat.eqb (magnitude a) 0 = true \/ PrimFloat.eqb (magnitude b) 0 = true ->
        cosineSimilarity a b = 0%float)
  /\ (forall a z : list float,
        Forall (fun x => PrimFloat.eqb x 0 = true) z ->
        cosineSimilarity a z = 0%float /\ cosineSimilarity z a = 0%float)
  /\ (forall v : list float,
        PrimFloat.is_finite (sumSquares v) = true ->
        PrimFloat.eqb (sumSquares v) 0 = false ->
        (magnitude v * magnitude v)%float = sumSquares v ->
        cosineSimilarity v v = 1%float)
  /\ (forall v : list float,
        PrimFloat.is_finite (sumSquares v) = true ->
        PrimFloat.eqb (sumSquares v) 0 = false ->
        PrimFloat.leb 0x1.ffffffffffff0p-1 (cosineSimilarity v v) = true
        /\ PrimFloat.leb (cosineSimilarity v v) 0x1.0000000000008p+0 = true).
Proof.
  split; [|split; [|split; [|split]]].
  - intros a b Hlen. unfold cosineSimilarity.
    rewrite (dotProduct_sym a b Hlen), (float_mul_comm (magnitude a) (magnitude b)).
    rewrite (orb_comm (PrimFloat.eqb (magnitude a) 0)). reflexivity.
  - exact cosineSimilarity_zero_magnitude.
  - intros a z Hz. pose proof (magnitude_zeros z Hz) as Hm.
    split; apply cosineSimilarity_zero_magnitude; auto.
  - intros v Hfin Hnz Hsq. unfold cosineSimilarity.
    destruct (PrimFloat.eqb (magnitude v) 0) eqn:Hm.
    + rewrite (float_square_zero _ Hm) in Hsq. rewrite <- Hsq in Hnz.
      discriminate Hnz.
    + simpl. rewrite dotProduct_self, Hsq.
      destruct (float_finite_nonzero _ Hfin Hnz) as (s & m & e & Hs).
      exact (float_div_self _ s m e Hs).
  - exact cosineSimilarity_self_near_one.
Qed.

Lemma cosineSimilarity_properties_witness :
  let a := [3%float; 4%float] in
  let b := [4%float; 3%float] in
  let z := [0%float; 0%float] in
  let u := [1%float; 1%float] in
  (List.length a = List.length b /\ cosineSimilarity a b = cosineSimilarity b a)
  /\ (Forall (fun x => PrimFloat.eqb x 0 = true) z /\ cosineSimilarity a z = 0%float)
  /\ ((magnitude a * magnitude a)%float = sumSquares a /\ cosineSimilarity a a = 1%float)
  /\ (PrimFloat.eqb (sumSquares u) 0 = false
      /\ PrimFloat.leb 0x1.ffffffffffff0p-1 (cosineSimilarity u u) = true
      /\ PrimFloat.leb (cosineSimilarity u u) 0x1.0000000000008p+0 = true).
Proof.
  cbv zeta. split; [|split; [|split]].
  - split; [reflexivity|].
    exact (proj1 cosineSimilarity_properties [3%float; 4%float] [4%float; 3%float] eq_refl).
  - assert (Hz : Forall (fun x => PrimFloat.eqb x 0 = true) [0%float; 0%float])
      by (repeat constructor).
    split; [exact Hz|].
    exact (proj1 (proj1 (proj2 (proj2 cosineSimilarity_properties))
                    [3%float; 4%float] [0%float; 0%float] Hz)).
  - split; [vm_compute; reflexivity|].
    exact (proj1 (proj2 (proj2 (proj2 cosineSimilarity_properties))) [3%float; 4%float]
             ltac:(vm_compute; reflexivity) ltac:(vm_compute; reflexivity)
             ltac:(vm_compute; reflexivity)).
  - assert (Hnz : PrimFloat.eqb (sumSquares [1%float; 1%float]) 0 = false)
      by (vm_compute; reflexivity).
    split; [exact Hnz|].
    exact (proj2 (proj2 (proj2 (proj2 cosineSimilarity_properties))) [1%float; 1%float]
             ltac:(vm_compute; reflexivity) Hnz).
Defined.

(** ** Results on the ranking *)

(** *** The comparator [b.score - a.score] *)

(** What the comparator of the ranking says of two scores that are
    numbers. *)
Lemma byScoreDesc_order (a b : Scored) :
  notNaN a -> notNaN b ->
  cmpLt byScoreDesc a b = negb (PrimFloat.leb (scored_score a) (scored_score b))
  /\ cmpGt byScoreDesc a b = negb (PrimFloat.leb (scored_score b) (scored_score a))
  /\ cmpEq byScoreDesc a b = PrimFloat.eqb (scored_score a) (scored_score b).
Proof.
  intros Ha Hb. unfold cmpEq, cmpLt, cmpGt, byScoreDesc.
  destruct (float_sub_sign (scored_score a) (scored_score b) Ha Hb) as [Hgt Hlt].
  rewrite Hgt, Hlt, (float_ltb_not_leb _ _ Ha Hb), (float_ltb_not_leb _ _ Hb Ha).
  rewrite !negb_involutive, float_eqb_leb. repeat split.
Qed.

Lemma byScoreDesc_consistent (l : list Scored) :
  Forall notNaN l -> consistentOn byScoreDesc l.
Proof.
  intros Hn a b c Ha Hb Hc. rewrite List.Forall_forall in Hn.
  pose proof (Hn a Ha) as Na. pose proof (Hn b Hb) as Nb. pose proof (Hn c Hc) as Nc.
  destruct (byScoreDesc_order a a Na Na) as (_ & _ & Eaa).
  destruct (byScoreDesc_order a b Na Nb) as (Lab & Gab & Eab).
  destruct (byScoreDesc_order b a Nb Na) as (_ & _ & Eba).
  destruct (byScoreDesc_order b c Nb Nc) as (Lbc & Gbc & Ebc).
  destruct (byScoreDesc_order a c Na Nc) as (Lac & Gac & Eac).
  rewrite Eaa, Eab, Eba, Ebc, Eac, Lab, Lbc, Lac, Gab, Gbc, Gac.
  rewrite !float_eqb_leb, !negb_true_iff, !andb_true_iff.
  split; [split; apply float_leb_refl; exact Na|].
  split; [tauto|].
  split; [intros [H1 H2] [H3 H4]; split; eapply float_leb_trans; eassumption|].
  split.
  - intros H1 H2.
    destruct (PrimFloat.leb (scored_score a) (scored_score c)) eqn:H; [|reflexivity].
    pose proof (float_leb_total _ _ Nb Nc H2) as H2'.
    rewrite (float_leb_trans _ _ _ H H2') in H1. discriminate H1.
  - intros H1 H2.
    destruct (PrimFloat.leb (scored_score c) (scored_score a)) eqn:H; [|reflexivity].
    pose proof (float_leb_total _ _ Nb Na H1) as H1'.
    rewrite (float_leb_trans _ _ _ H H1') in H2. discriminate H2.
Qed.

Section Sorting.
Context {A : Type}.
Variable cmp : A -> A -> float.

Lemma insertBy_perm (x : A) (l : list A) : Permutation (insertBy cmp x l) (x :: l).
Proof.
  induction l as [|y l IH]; simpl.
  - apply Permutation_refl.
  - destruct (PrimFloat.ltb 0 (cmp x y)).
    + apply Permutation_trans with (y :: x :: l).
      * apply perm_skip. exact IH.
      * apply perm_swap.
    + apply Permutation_refl.
Qed.

Lemma sortBy_perm (l : list A) : Permutation (sortBy cmp l) l.
Proof.
  induction l as [|x l IH]; simpl.
  - apply perm_nil.
  - apply Permutation_trans with (x :: sortBy cmp l).
    + apply insertBy_perm.
    + apply perm_skip. exact IH.
Qed.

Lemma insertBy_Forall (P : A -> Prop) (x : A) (l : list A) :
  P x -> Forall P l -> Forall P (insertBy cmp x l).
Proof.
  intros Hx Hl. induction Hl as [|y l Hy Hl IH]; simpl.
  - repeat constructor. exact Hx.
  - destruct (PrimFloat.ltb 0 (cmp x y)); repeat constructor; assumption.
Qed.

Lemma sortBy_Forall (P : A -> Prop) (l : list A) :
  Forall P l -> Forall P (sortBy cmp l).
Proof.
  intros Hl. induction Hl as [|x l Hx Hl IH]; simpl.
  - constructor.
  - apply insertBy_Forall; assumption.
Qed.

End Sorting.

(** *** Stable insertion conforms *)

Section InsertionConforms.
Variable cmp : Scored -> Scored -> float.
Variable l : list Scored.
Hypothesis consistent : consistentOn cmp l.

Lemma cmpLt_not_cmpGt (a b : Scored) : cmpLt cmp a b = true -> cmpGt cmp a b = false.
Proof. unfold cmpLt, cmpGt. apply float_ltb_asym. Qed.

Lemma cmpGt_not_cmpLt (a b : Scored) : cmpGt cmp a b = true -> cmpLt cmp a b = false.
Proof. unfold cmpLt, cmpGt. apply float_ltb_asym. Qed.

Lemma cmp_cases (a b : Scored) :
  cmpLt cmp a b = true \/ cmpEq cmp a b = true \/ cmpGt cmp a b = true.
Proof.
  unfold cmpEq. destruct (cmpLt cmp a b); [auto|].
  destruct (cmpGt cmp a b); auto.
Qed.

Lemma cmpEq_not_cmpLt (a b : Scored) : cmpEq cmp a b = true -> cmpLt cmp a b = false.
Proof. unfold cmpEq. destruct (cmpLt cmp a b); [discriminate | reflexivity]. Qed.

Lemma cmpEq_not_cmpGt (a b : Scored) : cmpEq cmp a b = true -> cmpGt cmp a b = false.
Proof.
  unfold cmpEq. destruct (cmpGt cmp a b); [|reflexivity].
  rewrite andb_false_r. discriminate.
Qed.

(** The two directions of the comparator agree on the elements of [l]. *)
Lemma cmpLt_cmpGt (a b : Scored) :
  In a l -> In b l -> cmpLt cmp a b = true -> cmpGt cmp b a = true.
Proof.
  intros Ha Hb Hlt.
  destruct (consistent a b a Ha Hb Ha) as (Haa & Hsym & _ & Hlt_trans & _).
  destruct (consistent b a b Hb Ha Hb) as (_ & Hsym' & _).
  destruct (cmp_cases b a) as [H|[H|H]]; [| |exact H].
  - specialize (Hlt_trans Hlt H). rewrite (cmpEq_not_cmpLt _ _ Haa) in Hlt_trans.
    discriminate Hlt_trans.
  - specialize (Hsym' H). rewrite (cmpEq_not_cmpLt _ _ Hsym') in Hlt. discriminate Hlt.
Qed.

Lemma cmpGt_cmpLt (a b : Scored) :
  In a l -> In b l -> cmpGt cmp a b = true -> cmpLt cmp b a = true.
Proof.
  intros Ha Hb Hgt.
  destruct (consistent a b a Ha Hb Ha) as (Haa & Hsym & _ & _ & Hgt_trans).
  destruct (consistent b a b Hb Ha Hb) as (_ & Hsym' & _).
  destruct (cmp_cases b a) as [H|[H|H]]; [exact H| |].
  - specialize (Hsym' H). rewrite (cmpEq_not_cmpGt _ _ Hsym') in Hgt. discriminate Hgt.
  - specialize (Hgt_trans Hgt H). rewrite (cmpEq_not_cmpGt _ _ Haa) in Hgt_trans.
    discriminate Hgt_trans.
Qed.

(** Where the insertion stops, the new element may stand in front of
    all that follows. *)
Lemma insertBy_stop (x y z : Scored) :
  In x l -> In y l -> In z l ->
  cmpGt cmp x y = false -> mayPrecede cmp y z -> mayPrecede cmp x z.
Proof.
  unfold mayPrecede. intros Hx Hy Hz Hstop Hyz.
  destruct (cmpLt cmp z x) eqn:Hzx; [exfalso|reflexivity].
  pose proof (cmpLt_cmpGt z x Hz Hx Hzx) as Hxz.
  destruct (consistent x z y Hx Hz Hy) as (_ & _ & _ & _ & Hgt_xzy).
  destruct (consistent y x z Hy Hx Hz) as (_ & _ & _ & _ & Hgt_yxz).
  destruct (consistent x y z Hx Hy Hz) as (_ & _ & Heq_xyz & _ & _).
  destruct (consistent z y z Hz Hy Hz) as (_ & Hsym_zy & _).
  destruct (cmp_cases z y) as [H|[H|H]].
  - rewrite H in Hyz. discriminate Hyz.
  - destruct (cmp_cases x y) as [H'|[H'|H']].
    + pose proof (cmpLt_cmpGt x y Hx Hy H') as Hyx.
      pose proof (cmpGt_cmpLt y z Hy Hz (Hgt_yxz Hyx Hxz)) as Hzy.
      rewrite Hzy in Hyz. discriminate Hyz.
    + specialize (Heq_xyz H' (Hsym_zy H)).
      rewrite (cmpEq_not_cmpGt _ _ Heq_xyz) in Hxz. discriminate Hxz.
    + rewrite H' in Hstop. discriminate Hstop.
  - rewrite (Hgt_xzy Hxz H) in Hstop. discriminate Hstop.
Qed.

Lemma insertBy_strongly_sorted (x : Scored) (s : list Scored) :
  In x l -> incl s l ->
  StronglySorted (mayPrecede cmp) s -> StronglySorted (mayPrecede cmp) (insertBy cmp x s).
Proof.
  intros Hx Hs Hsorted. induction Hsorted as [|y s Hsorted IH Hall]; simpl.
  - repeat constructor.
  - assert (Hy : In y l) by (apply Hs; left; reflexivity).
    assert (Hs' : incl s l) by (intros z Hz; apply Hs; right; exact Hz).
    destruct (PrimFloat.ltb 0 (cmp x y)) eqn:Hc.
    + constructor; [apply IH; exact Hs'|].
      apply insertBy_Forall; [|exact Hall].
      unfold mayPrecede. apply cmpGt_not_cmpLt. exact Hc.
    + constructor; [constructor; assumption|].
      constructor.
      * unfold mayPrecede. destruct (cmpLt cmp y x) eqn:Hyx; [|reflexivity].
        pose proof (cmpLt_cmpGt y x Hy Hx Hyx) as Hxy. unfold cmpGt in Hxy.
        rewrite Hxy in Hc. discriminate Hc.
      * rewrite List.Forall_forall in Hall. apply List.Forall_forall. intros z Hz.
        apply (insertBy_stop x y z Hx Hy (Hs' z Hz) Hc). apply Hall. exact Hz.
Qed.

Lemma sortBy_strongly_sorted (s : list Scored) :
  incl s l -> StronglySorted (mayPrecede cmp) (sortBy cmp s).
Proof.
  induction s as [|x s IH]; intros Hs; simpl.
  - constructor.
  - assert (Hs' : incl s l) by (intros z Hz; apply Hs; right; exact Hz).
    apply insertBy_strongly_sorted.
    + apply Hs. left. reflexivity.
    + intros z Hz. apply Hs'.
      exact (Permutation_in z (sortBy_perm cmp s) Hz).
    + apply IH. exact Hs'.
Qed.

Lemma StronglySorted_lookup (R : Scored -> Scored -> Prop) (s : list Scored) :
  StronglySorted R s ->
  forall (i j : nat) (x y : Scored),
    (i < j)%nat -> s !! i = Some x -> s !! j = Some y -> R x y.
Proof.
  intros Hs. induction Hs as [|a s Hs IH Hall]; intros i j x y Hij Hx Hy.
  - discriminate Hx.
  - destruct j as [|j]; [lia|]. simpl in Hy. destruct i as [|i]; simpl in Hx.
    + inversion Hx; subst x. rewrite Forall_forall in Hall. apply Hall.
      apply list_elem_of_lookup. eauto.
    + apply (IH i j); [lia | assumption | assumption].
Qed.

(** Elements that compare equal never pass each other. *)
Lemma insertBy_class (a x : Scored) (s : list Scored) :
  In a l -> In x l -> incl s l ->
  List.filter (cmpEq cmp a) (insertBy cmp x s) = List.filter (cmpEq cmp a) (x :: s).
Proof.
  intros Ha Hx Hs. induction s as [|y s IH]; simpl.
  - reflexivity.
  - assert (Hy : In y l) by (apply Hs; left; reflexivity).
    assert (Hs' : incl s l) by (intros z Hz; apply Hs; right; exact Hz).
    destruct (PrimFloat.ltb 0 (cmp x y)) eqn:Hc; [|reflexivity].
    simpl. rewrite (IH Hs'). simpl.
    destruct (cmpEq cmp a x) eqn:Eax, (cmpEq cmp a y) eqn:Eay; try reflexivity.
    exfalso.
    destruct (consistent a x a Ha Hx Ha) as (_ & Hsym & _).
    destruct (consistent x a y Hx Ha Hy) as (_ & _ & Htrans & _).
    specialize (Htrans (Hsym Eax) Eay).
    apply cmpEq_not_cmpGt in Htrans. unfold cmpGt in Htrans.
    rewrite Htrans in Hc. discriminate Hc.
Qed.

Lemma sortBy_class (a : Scored) (s : list Scored) :
  In a l -> incl s l ->
  List.filter (cmpEq cmp a) (sortBy cmp s) = List.filter (cmpEq cmp a) s.
Proof.
  intros Ha. induction s as [|x s IH]; intros Hs; simpl.
  - reflexivity.
  - assert (Hs' : incl s l) by (intros z Hz; apply Hs; right; exact Hz).
    rewrite insertBy_class.
    + simpl. rewrite (IH Hs'). reflexivity.
    + exact Ha.
    + apply Hs. left. reflexivity.
    + intros z Hz. apply Hs'. exact (Permutation_in z (sortBy_perm cmp s) Hz).
Qed.

End InsertionConforms.

(** Stable insertion is one conforming sort. *)
Lemma sortBy_conforming : conformingSort sortBy.
Proof.
  intros cmp l. split; [apply sortBy_perm|]. intros Hc. split.
  - intros i j x y Hij Hx Hy.
    exact (StronglySorted_lookup _ _
             (sortBy_strongly_sorted cmp l Hc l (incl_refl l)) i j x y Hij Hx Hy).
  - intros a Ha. exact (sortBy_class cmp l Hc a l Ha (incl_refl l)).
Qed.

(** *** The ranking of [/ask] under a conforming sort *)

Lemma ranked_notNaN (sort : EngineSort) (scored : list Scored) :
  conformingSort sort -> Forall notNaN scored ->
  Forall notNaN (sort byScoreDesc scored).
Proof.
  intros Hsort Hn. destruct (Hsort byScoreDesc scored) as [Hperm _].
  exact (Permutation_Forall (Permutation_sym Hperm) Hn).
Qed.

(** With numbers for scores, an earlier chunk of the ranking never
    scores below a later one. *)
Lemma ranked_order (sort : EngineSort) (scored : list Scored) (i j : nat)
    (x y : Scored) :
  conformingSort sort -> Forall notNaN scored ->
  (i < j)%nat ->
  sort byScoreDesc scored !! i = Some x ->
  sort byScoreDesc scored !! j = Some y ->
  PrimFloat.leb (scored_score y) (scored_score x) = true.
Proof.
  intros Hsort Hn Hij Hx Hy.
  pose proof (ranked_notNaN sort scored Hsort Hn) as Hr.
  rewrite List.Forall_forall in Hr.
  assert (Nx : notNaN x).
  { apply Hr, list_elem_of_In, list_elem_of_lookup. eauto. }
  assert (Ny : notNaN y).
  { apply Hr, list_elem_of_In, list_elem_of_lookup. eauto. }
  destruct (Hsort byScoreDesc scored) as [_ Hc].
  destruct (Hc (byScoreDesc_consistent scored Hn)) as [Hsorted _].
  specialize (Hsorted i j x y Hij Hx Hy).
  destruct (byScoreDesc_order y x Ny Nx) as (Hlt & _).
  rewrite Hlt in Hsorted. apply negb_false_iff in Hsorted. exact Hsorted.
Qed.

(** With numbers for scores, the chunks of one score keep their order. *)
Lemma ranked_stable (sort : EngineSort) (scored : list Scored) (s : float) :
  conformingSort sort -> Forall notNaN scored ->
  List.filter (sameScore s) (sort byScoreDesc scored) = List.filter (sameScore s) scored.
Proof.
  intros Hsort Hn.
  pose proof (ranked_notNaN sort scored Hsort Hn) as Hr.
  destruct (Hsort byScoreDesc scored) as [Hperm Hc].
  destruct (Hc (byScoreDesc_consistent scored Hn)) as [_ Hstable].
  assert (Hclass : forall a z : Scored,
             notNaN a -> notNaN z -> sameScore s a = true ->
             sameScore s z = cmpEq byScoreDesc a z).
  { intros a z Na Nz Hsa. destruct (byScoreDesc_order a z Na Nz) as (_ & _ & ->).
    unfold sameScore in *. rewrite !float_eqb_leb in *.
    apply andb_true_iff in Hsa. destruct Hsa as [H1 H2].
    apply Bool.eq_iff_eq_true. rewrite !andb_true_iff. split; intros [H3 H4]; split.
    - exact (float_leb_trans _ _ _ H1 H4).
    - exact (float_leb_trans _ _ _ H3 H2).
    - exact (float_leb_trans _ _ _ H4 H1).
    - exact (float_leb_trans _ _ _ H2 H3). }
  destruct (List.filter (sameScore s) scored) as [|a rest] eqn:Hf.
  - destruct (List.filter (sameScore s) (sort byScoreDesc scored)) as [|b rest'] eqn:Hf';
      [reflexivity|].
    assert (Hb : In b (List.filter (sameScore s) scored)).
    { apply filter_In.
      assert (Hb' : In b (List.filter (sameScore s) (sort byScoreDesc scored)))
        by (rewrite Hf'; left; reflexivity).
      apply filter_In in Hb'. destruct Hb' as [Hin Hs]. split; [|exact Hs].
      exact (Permutation_in b Hperm Hin). }
    rewrite Hf in Hb. contradiction.
  - assert (Ha : In a scored /\ sameScore s a = true).
    { apply filter_In. rewrite Hf. left. reflexivity. }
    destruct Ha as [Ha Hsa]. rewrite <- Hf.
    rewrite List.Forall_forall in Hn, Hr.
    rewrite (filter_ext_in (sameScore s) (cmpEq byScoreDesc a) (sort byScoreDesc scored)).
    + rewrite (filter_ext_in (sameScore s) (cmpEq byScoreDesc a) scored).
      * apply Hstable. exact Ha.
      * intros z Hz. apply Hclass; auto.
    + intros z Hz. apply Hclass; auto.
Qed.

(** C6, as worded: a query of two dimensions scores a stored chunk of
    one dimension NaN (the missing coordinate is [undefined]); whatever
    order the sort leaves the two scored chunks in, NaN stands next to
    1, and neither [NaN >= 1] nor [1 >= NaN] holds. *)
Lemma ranking_nan_counterexample :
  map (fun c => Prim2SF (scored_score c)) (scoreChunks sampleQuery sampleChunks)
  = [S754_nan; Prim2SF 1]
  /\ forall sort : EngineSort,
       conformingSort sort -> ~ descending (rankChunks sort sampleQuery sampleChunks).
Proof.
  split; [vm_compute; reflexivity|].
  intros sort Hsort Hd. unfold rankChunks in Hd.
  destruct (Hsort byScoreDesc (scoreChunks sampleQuery sampleChunks)) as [Hperm _].
  remember (sort byScoreDesc (scoreChunks sampleQuery sampleChunks)) as ranked eqn:E.
  clear E. apply Permutation_sym in Hperm.
  change (scoreChunks sampleQuery sampleChunks)
    with [ {| scored_text := "short";
              scored_score := cosineSimilarity sampleQuery [3%float] |};
           {| scored_text := "full";
              scored_score := cosineSimilarity sampleQuery [3%float; 4%float] |} ]
    in Hperm.
  apply Permutation_length_2_inv in Hperm.
  destruct Hperm as [Hr|Hr]; subst ranked;
    specialize (Hd 0%nat _ _ eq_refl eq_refl);
    vm_compute in Hd; discriminate Hd.
Qed.

(** C6, amended: under a sort that conforms to the language, the ranked
    output is a reordering of the scored chunks; when no score is NaN it
    is sorted by descending score, [output[i].score >= output[i+1].score]
    for all adjacent pairs, and chunks with equal scores keep their
    original order (the sort is stable).  With a NaN among the scores
    the comparator is not consistent and the order is the engine's
    choice. *)
Theorem ranking_sorted_stable (sort : EngineSort) (scored : list Scored) :
  conformingSort sort ->
  let ranked := sort byScoreDesc scored in
  Permutation ranked scored
  /\ (Forall notNaN scored ->
      descending ranked
      /\ forall s : float,
           List.filter (sameScore s) ranked = List.filter (sameScore s) scored).
Proof.
  intros Hsort ranked. subst ranked. split; [apply Hsort|].
  intros Hn. split.
  - intros i x y Hx Hy. unfold scoreGe.
    exact (ranked_order sort scored i (S i) x y Hsort Hn ltac:(lia) Hx Hy).
  - intros s. apply ranked_stable; assumption.
Qed.

Lemma ranking_sorted_stable_witness :
  let scored := scoreChunks sampleQuery
                  [ {| chunk_text := "far"; chunk_embedding := [4%float; 3%float] |};
                    {| chunk_text := "near"; chunk_embedding := [3%float; 4%float] |};
                    {| chunk_text := "also far"; chunk_embedding := [4%float; 3%float] |} ] in
  conformingSort sortBy
  /\ Forall notNaN scored
  /\ map scored_text (sortBy byScoreDesc scored) = ["near"; "far"; "also far"]
  /\ descending (sortBy byScoreDesc scored).
Proof.
  cbv zeta.
  assert (Hn : Forall notNaN
                 (scoreChunks sampleQuery
                    [ {| chunk_text := "far"; chunk_embedding := [4%float; 3%float] |};
                      {| chunk_text := "near"; chunk_embedding := [3%float; 4%float] |};
                      {| chunk_text := "also far"; chunk_embedding := [4%float; 3%float] |} ]))
    by (repeat constructor).
  split; [exact sortBy_conforming|]. split; [exact Hn|].
  split; [vm_compute; reflexivity|].
  exact (proj1 (proj2 (ranking_sorted_stable sortBy _ sortBy_conforming) Hn)).
Defined.

(** * Further properties of the code *)

(** ** More on [chunkText] *)

(** More fuel does not change a result. *)
Lemma chunkLoop_fuel_mono (text : string) (chunkSize overlap : Z) (fuel : nat) :
  forall (i : Z) (acc chunks : list string) (fuel' : nat),
    chunkLoop fuel text chunkSize overlap i acc = Some chunks ->
    (fuel <= fuel')%nat ->
    chunkLoop fuel' text chunkSize overlap i acc = Some chunks.
Proof.
  induction fuel as [|fuel IH]; intros i acc chunks fuel' H Hle.
  - discriminate H.
  - destruct fuel' as [|fuel']; [lia|]. simpl in *.
    destruct (i <? JSString.len text); [|exact H].
    apply IH; [exact H | lia].
Qed.

(** Whatever the fuel, a result of [chunkText] is the list of windows. *)
Lemma chunkText_some_windows (text : string) (chunkSize overlap : Z)
    (fuel : nat) (chunks : list string) :
  0 <= overlap < chunkSize ->
  chunkText fuel text chunkSize overlap = Some chunks ->
  chunks
  = map (fun k => window text (k * Z.to_nat (chunkSize - overlap)) (Z.to_nat chunkSize))
      (seq 0 (chunkCount text chunkSize overlap)).
Proof.
  intros Hv H.
  pose proof (chunkLoop_fuel_mono text chunkSize overlap fuel 0 [] chunks
                (fuel + S (chunkCount text chunkSize overlap)) H ltac:(lia)) as Hbig.
  fold (chunkText (fuel + S (chunkCount text chunkSize overlap)) text chunkSize overlap)
    in Hbig.
  rewrite chunkText_run in Hbig by (try exact Hv; lia).
  inversion Hbig as [Heq]. apply slicesFrom_windows; [exact Hv | lia].
Qed.

Lemma lookup_map_seq {A : Type} (f : nat -> A) (n : nat) :
  forall j k : nat,
    map f (seq j n) !! k = if (k <? n)%nat then Some (f (j + k)%nat) else None.
Proof.
  induction n as [|n IH]; intros j k; simpl.
  - reflexivity.
  - destruct k as [|k]; simpl.
    + rewrite Nat.add_0_r. reflexivity.
    + rewrite IH. replace (S j + k)%nat with (j + S k)%nat by lia.
      reflexivity.
Qed.

(** The [k]-th chunk, when there is one, is the window at [k * step]. *)
Lemma chunkText_lookup (text : string) (chunkSize overlap : Z)
    (fuel : nat) (chunks : list string) (k : nat) (c : string) :
  0 <= overlap < chunkSize ->
  chunkText fuel text chunkSize overlap = Some chunks ->
  chunks !! k = Some c ->
  (k * Z.to_nat (chunkSize - overlap) < String.length text)%nat
  /\ c = window text (k * Z.to_nat (chunkSize - overlap)) (Z.to_nat chunkSize).
Proof.
  intros Hv H Hk.
  rewrite (chunkText_some_windows text chunkSize overlap fuel chunks Hv H) in Hk.
  rewrite lookup_map_seq in Hk.
  destruct (Nat.ltb_spec k (chunkCount text chunkSize overlap)) as [Hlt|]; [|discriminate].
  inversion Hk; subst c. split; [|reflexivity].
  apply (chunkCount_offsets text chunkSize overlap k Hv) in Hlt.
  unfold loopIndex, JSString.len in Hlt. nia.
Qed.

Lemma chunkText_lookup_lt (text : string) (chunkSize overlap : Z)
    (fuel : nat) (chunks : list string) (k : nat) :
  0 <= overlap < chunkSize ->
  chunkText fuel text chunkSize overlap = Some chunks ->
  (k * Z.to_nat (chunkSize - overlap) < String.length text)%nat ->
  chunks !! k = Some (window text (k * Z.to_nat (chunkSize - overlap)) (Z.to_nat chunkSize)).
Proof.
  intros Hv H Hk.
  rewrite (chunkText_some_windows text chunkSize overlap fuel chunks Hv H).
  rewrite lookup_map_seq.
  destruct (Nat.ltb_spec k (chunkCount text chunkSize overlap)) as [Hlt|Hge];
    [reflexivity|].
  exfalso.
  assert (Hlt : (k < chunkCount text chunkSize overlap)%nat); [|lia].
  apply (chunkCount_offsets text chunkSize overlap k Hv).
  unfold loopIndex, JSString.len. nia.
Qed.

(** No chunk is empty and none is longer than the chunk size. *)
Theorem chunkText_chunk_lengths (text : string) (chunkSize overlap : Z)
    (fuel : nat) (chunks : list string) :
  0 <= overlap < chunkSize ->
  chunkText fuel text chunkSize overlap = Some chunks ->
  forall c : string, In c chunks ->
    (1 <= String.length c <= Z.to_nat chunkSize)%nat.
Proof.
  intros Hv H c Hin. apply list_elem_of_In in Hin.
  apply list_elem_of_lookup in Hin. destruct Hin as [k Hk].
  destruct (chunkText_lookup text chunkSize overlap fuel chunks k c Hv H Hk) as [Hlt ->].
  unfold window. rewrite substring_length. lia.
Qed.

Lemma chunkText_chunk_lengths_witness :
  chunkText 9 "AAAABBBB" 4 1 = Some ["AAAA"; "ABBB"; "BB"]
  /\ forall c : string, In c ["AAAA"; "ABBB"; "BB"] -> (1 <= String.length c <= 4)%nat.
Proof.
  split; [vm_compute; reflexivity|].
  exact (chunkText_chunk_lengths "AAAABBBB" 4 1 9 ["AAAA"; "ABBB"; "BB"]
           ltac:(lia) ltac:(vm_compute; reflexivity)).
Defined.

(** Nothing of the text is lost: the code unit at position [p] of the
    text is the code unit at position [p mod step] of chunk [p / step]. *)
Theorem chunkText_covers (text : string) (chunkSize overlap : Z)
    (fuel : nat) (chunks : list string) (p : nat) :
  0 <= overlap < chunkSize ->
  chunkText fuel text chunkSize overlap = Some chunks ->
  (p < String.length text)%nat ->
  let step := Z.to_nat (chunkSize - overlap) in
  exists c : string,
    chunks !! (p / step)%nat = Some c
    /\ String.get (p mod step) c = String.get p text.
Proof.
  intros Hv H Hp step.
  assert (Hs : (0 < step)%nat) by (subst step; lia).
  pose proof (Nat.div_mod_eq p step) as Hdm.
  pose proof (Nat.mod_upper_bound p step ltac:(lia)) as Hm.
  exists (window text (p / step * step) (Z.to_nat chunkSize)). split.
  - apply (chunkText_lookup_lt text chunkSize overlap fuel chunks _ Hv H). fold step. nia.
  - unfold window. rewrite String.substring_correct1 by (subst step; lia).
    f_equal. nia.
Qed.

Lemma chunkText_covers_witness :
  exists c : string,
    ["AAAA"; "ABBB"; "BB"] !! 1%nat = Some c
    /\ String.get 2 c = String.get 5 "AAAABBBB".
Proof.
  exact (chunkText_covers "AAAABBBB" 4 1 9 ["AAAA"; "ABBB"; "BB"] 5
           ltac:(lia) ltac:(vm_compute; reflexivity) ltac:(simpl; lia)).
Defined.

(** Neighbouring chunks share [overlap] code units: the units of chunk
    [k] from position [step] on are the first units of chunk [k + 1]. *)
Theorem chunkText_overlap (text : string) (chunkSize overlap : Z)
    (fuel : nat) (chunks : list string) (k : nat) (c c' : string) (j : nat) :
  0 <= overlap < chunkSize ->
  chunkText fuel text chunkSize overlap = Some chunks ->
  chunks !! k = Some c -> chunks !! S k = Some c' ->
  (j < Z.to_nat overlap)%nat ->
  String.get (Z.to_nat (chunkSize - overlap) + j) c = String.get j c'.
Proof.
  intros Hv H Hk Hk' Hj.
  destruct (chunkText_lookup text chunkSize overlap fuel chunks k c Hv H Hk) as [_ ->].
  destruct (chunkText_lookup text chunkSize overlap fuel chunks (S k) c' Hv H Hk') as [_ ->].
  unfold window. rewrite !String.substring_correct1 by lia.
  f_equal. lia.
Qed.

Lemma chunkText_overlap_witness :
  String.get 3 "AAAA" = String.get 0 "ABBB".
Proof.
  exact (chunkText_overlap "AAAABBBB" 4 1 9 ["AAAA"; "ABBB"; "BB"] 0 "AAAA" "ABBB" 0
           ltac:(lia) ltac:(vm_compute; reflexivity) eq_refl eq_refl ltac:(simpl; lia)).
Defined.

Lemma append_empty_r (s : string) : s +:+ EmptyString = s.
Proof.
  induction s as [|c s IH]; [reflexivity|].
  change (String c (s +:+ EmptyString) = String c s). f_equal. exact IH.
Qed.

Lemma concat_empty_cons (x : string) (xs : list string) :
  String.concat EmptyString (x :: xs) = x +:+ String.concat EmptyString xs.
Proof.
  destruct xs as [|y ys]; simpl; [symmetry; apply append_empty_r | reflexivity].
Qed.

Lemma substring_append (s : string) :
  forall n m m' : nat,
    String.substring n m s +:+ String.substring (n + m) m' s
    = String.substring n (m + m') s.
Proof.
  induction s as [|c s IH]; intros n m m'.
  - destruct n, m, m'; reflexivity.
  - destruct n as [|n].
    + destruct m as [|m].
      * reflexivity.
      * change (String c (String.substring 0 m s +:+ String.substring (0 + m) m' s)
                = String c (String.substring 0 (m + m') s)).
        f_equal. apply IH.
    + apply (IH n m m').
Qed.

Lemma substring_all (s : string) (m : nat) :
  (String.length s <= m)%nat -> String.substring 0 m s = s.
Proof.
  revert m. induction s as [|c s IH]; intros m Hm.
  - destruct m; reflexivity.
  - destruct m as [|m]; simpl in *; [lia|]. f_equal. apply IH. lia.
Qed.

Lemma substring_zero (s : string) : forall n : nat, String.substring n 0 s = EmptyString.
Proof.
  induction s as [|c s IH]; intros n; destruct n as [|n]; try reflexivity.
  apply (IH n).
Qed.

Lemma concat_windows (text : string) (size r : nat) :
  forall j : nat,
    String.concat EmptyString (map (fun k => window text (k * size) size) (seq j r))
    = String.substring (j * size) (r * size) text.
Proof.
  induction r as [|r IH]; intros j.
  - simpl. symmetry. apply substring_zero.
  - simpl seq. simpl map. rewrite concat_empty_cons, IH. unfold window.
    replace (S j * size)%nat with (j * size + size)%nat by lia.
    rewrite substring_append. f_equal.
Qed.

(** Without overlap the chunks are a partition of the text: joined end
    to end they give the text back. *)
Theorem chunkText_no_overlap_concat (text : string) (chunkSize : Z)
    (fuel : nat) (chunks : list string) :
  0 < chunkSize ->
  chunkText fuel text chunkSize 0 = Some chunks ->
  String.concat EmptyString chunks = text.
Proof.
  intros Hs H.
  rewrite (chunkText_some_windows text chunkSize 0 fuel chunks ltac:(lia) H).
  replace (chunkSize - 0) with chunkSize by lia.
  rewrite concat_windows. apply substring_all.
  pose proof (proj2 (chunkCount_offsets text chunkSize 0
                       (chunkCount text chunkSize 0) ltac:(lia))) as Hoff.
  unfold loopIndex, JSString.len in Hoff.
  destruct (Nat.le_gt_cases (String.length text)
              (chunkCount text chunkSize 0 * Z.to_nat chunkSize)) as [Hle|Hgt];
    [lia|].
  exfalso. assert (chunkCount text chunkSize 0 < chunkCount text chunkSize 0)%nat; [|lia].
  apply Hoff. nia.
Qed.

Lemma chunkText_no_overlap_concat_witness :
  chunkText 9 "AAAABBBB" 3 0 = Some ["AAA"; "ABB"; "BB"]
  /\ String.concat EmptyString ["AAA"; "ABB"; "BB"] = "AAAABBBB".
Proof.
  split; [vm_compute; reflexivity|].
  exact (chunkText_no_overlap_concat "AAAABBBB" 3 9 ["AAA"; "ABB"; "BB"]
           ltac:(lia) ltac:(vm_compute; reflexivity)).
Defined.

(** ** More on [embedText] *)

(** What [embedText] returns is never a falsy value: it is the value at
    the first of the three paths that holds a truthy one; and an outcome
    of the embedding call that is a failure passes through unchanged. *)
Theorem embedText_returns_truthy (numberToString : float -> string)
    (call : Outcome JSValue) (v : JSValue) :
  embedText numberToString call = Returned v ->
  exists response : JSValue,
    call = Returned response
    /\ truthy v = true
    /\ (v = pathDirect response
        \/ (truthy (pathDirect response) = false /\ v = pathData response)
        \/ (truthy (pathDirect response) = false
            /\ truthy (pathData response) = false
            /\ v = pathEmbeddings response)).
Proof.
  unfold embedText. destruct call as [response|e]; [|discriminate].
  destruct (truthy (pathDirect response)) eqn:H1.
  { intros H. inversion H; subst v. eauto 6. }
  destruct (truthy (pathData response)) eqn:H2.
  { intros H. inversion H; subst v. eauto 8. }
  destruct (truthy (pathEmbeddings response)) eqn:H3.
  { intros H. inversion H; subst v. exists response. auto 8. }
  destruct (stringify numberToString response); discriminate.
Qed.

Lemma embedText_returns_truthy_witness :
  let direct := JSObject [("embedding", JSObject [("values", vectorValue [1%float; 2%float])])] in
  embedText (fun _ => "1") (Returned direct) = Returned (vectorValue [1%float; 2%float])
  /\ truthy (vectorValue [1%float; 2%float]) = true.
Proof.
  cbv zeta. split; [reflexivity|].
  destruct (embedText_returns_truthy (fun _ => "1")
              (Returned (JSObject [("embedding",
                                    JSObject [("values", vectorValue [1%float; 2%float])])]))
              (vectorValue [1%float; 2%float]) eq_refl)
    as (response & _ & Ht & _).
  exact Ht.
Defined.

(** A response that [JSON.stringify] has no text for ([undefined], or a
    function) does not get the shape error: reading [slice] on the
    missing text raises a [TypeError]. *)
Theorem embedText_unserialisable (numberToString : float -> string) (response : JSValue) :
  ~ serialisable response ->
  exists message : string,
    embedText numberToString (Returned response) = Thrown (TypeError message).
Proof.
  intros H. destruct response; simpl in H; try (exfalso; apply H; exact I);
    eexists; reflexivity.
Qed.

Lemma embedText_unserialisable_witness :
  ~ serialisable JSUndefined
  /\ exists message : string,
       embedText (fun _ => "1") (Returned JSUndefined) = Thrown (TypeError message).
Proof.
  split; [intros H; exact H|].
  exact (embedText_unserialisable (fun _ => "1") JSUndefined (fun H => H)).
Defined.

(** ** More on [cosineSimilarity] *)

Lemma float_mul_nan (x : float) : (x * nan)%float = nan.
Proof.
  apply Prim2SF_inj. rewrite FloatAxioms.mul_spec.
  change (Prim2SF nan) with S754_nan. destruct (Prim2SF x); reflexivity.
Qed.

Lemma float_add_nan_r (x : float) : (x + nan)%float = nan.
Proof.
  apply Prim2SF_inj. rewrite FloatAxioms.add_spec.
  change (Prim2SF nan) with S754_nan. destruct (Prim2SF x); reflexivity.
Qed.

Lemma float_add_nan_l (x : float) : (nan + x)%float = nan.
Proof.
  apply Prim2SF_inj. rewrite FloatAxioms.add_spec.
  change (Prim2SF nan) with S754_nan. reflexivity.
Qed.

Lemma float_div_nan_l (x : float) : (nan / x)%float = nan.
Proof.
  apply Prim2SF_inj. rewrite FloatAxioms.div_spec.
  change (Prim2SF nan) with S754_nan. reflexivity.
Qed.

(** Once the running sum is NaN it stays NaN. *)
Lemma dot_reduce_nan (b a : list float) :
  forall i : nat,
    reduceFrom (fun s ai i => (s + ai * numberAt b i)%float) i a nan = nan.
Proof.
  induction a as [|x a IH]; intros i; simpl.
  - reflexivity.
  - rewrite float_add_nan_l. apply IH.
Qed.

(** A coordinate of [a] without a partner in [b] turns the sum into NaN. *)
Lemma dot_reduce_short (b a : list float) :
  forall (i : nat) (s : float),
    (i <= List.length b)%nat ->
    (List.length b < i + List.length a)%nat ->
    reduceFrom (fun s ai i => (s + ai * numberAt b i)%float) i a s = nan.
Proof.
  induction a as [|x a IH]; intros i s Hi Hlen; simpl in *.
  - lia.
  - destruct (Nat.le_gt_cases (List.length b) i) as [Hge|Hlt].
    + assert (Hn : numberAt b i = nan)
        by (unfold numberAt; apply nth_overflow; exact Hge).
      rewrite Hn, float_mul_nan, float_add_nan_r. apply dot_reduce_nan.
    + apply IH; lia.
Qed.

(** A first vector that is longer than the second one reads coordinates
    the second does not have: unless one of the magnitudes is a zero,
    the similarity is NaN. *)
Theorem cosineSimilarity_longer_nan (a b : list float) :
  (List.length b < List.length a)%nat ->
  PrimFloat.eqb (magnitude a) 0 = false ->
  PrimFloat.eqb (magnitude b) 0 = false ->
  cosineSimilarity a b = nan.
Proof.
  intros Hlen Ha Hb. unfold cosineSimilarity. rewrite Ha, Hb. simpl.
  unfold dotProduct, reduce. rewrite dot_reduce_short by (simpl; lia).
  apply float_div_nan_l.
Qed.

Lemma cosineSimilarity_longer_nan_witness :
  cosineSimilarity sampleQuery [3%float] = nan.
Proof.
  exact (cosineSimilarity_longer_nan sampleQuery [3%float]
           ltac:(simpl; lia) ltac:(vm_compute; reflexivity) ltac:(vm_compute; reflexivity)).
Defined.

(** ** More on the ranking *)

(** Under a sort that conforms to the language, the retrieval context
    takes the [TOP_K] = 4 first chunks of the ranking, all of them when
    there are fewer; with no NaN among the scores, no chunk that is left
    out scores above a chunk that is taken. *)
Theorem top_chunks_selection (sort : EngineSort) (qVec : list float)
    (chunks : list Chunk) :
  conformingSort sort ->
  let ranked := rankChunks sort qVec chunks in
  let taken := JSArray.slice_to ranked TOP_K in
  topChunks ranked = JSString.join (nl +:+ nl +:+ "---" +:+ nl +:+ nl) (map scored_text taken)
  /\ List.length taken = Nat.min 4 (List.length chunks)
  /\ ((List.length chunks <= 4)%nat -> Permutation taken (scoreChunks qVec chunks))
  /\ (Forall notNaN (scoreChunks qVec chunks) ->
      forall x y : Scored,
        In x taken -> In y (skipn TOP_K ranked) ->
        PrimFloat.leb (scored_score y) (scored_score x) = true).
Proof.
  intros Hsort ranked taken. subst ranked taken.
  unfold JSArray.slice_to, TOP_K, rankChunks.
  destruct (Hsort byScoreDesc (scoreChunks qVec chunks)) as [Hperm _].
  assert (Hlen : List.length (sort byScoreDesc (scoreChunks qVec chunks))
                 = List.length chunks).
  { rewrite (Permutation_length Hperm). unfold scoreChunks. apply length_map. }
  split; [reflexivity|]. split; [|split].
  - rewrite length_firstn, Hlen. reflexivity.
  - intros Hle. rewrite firstn_all2 by lia. exact Hperm.
  - intros Hn x y Hx Hy.
    apply list_elem_of_In, list_elem_of_lookup in Hx. destruct Hx as [i Hi].
    apply list_elem_of_In, list_elem_of_lookup in Hy. destruct Hy as [j Hj].
    assert (Hi4 : (i < 4)%nat).
    { apply lookup_lt_Some in Hi. rewrite length_firstn in Hi. lia. }
    rewrite lookup_take_lt in Hi by exact Hi4.
    rewrite lookup_drop in Hj.
    exact (ranked_order sort _ i (4 + j) x y Hsort Hn ltac:(lia) Hi Hj).
Qed.

Lemma top_chunks_selection_witness :
  conformingSort sortBy
  /\ Forall notNaN (scoreChunks sampleQuery sampleCorpus)
  /\ map scored_text (JSArray.slice_to (rankChunks sortBy sampleQuery sampleCorpus) TOP_K)
     = ["c2"; "c5"; "c1"; "c3"]
  /\ forall x y : Scored,
       In x (JSArray.slice_to (rankChunks sortBy sampleQuery sampleCorpus) TOP_K) ->
       In y (skipn TOP_K (rankChunks sortBy sampleQuery sampleCorpus)) ->
       PrimFloat.leb (scored_score y) (scored_score x) = true.
Proof.
  assert (Hn : Forall notNaN (scoreChunks sampleQuery sampleCorpus))
    by (repeat constructor; vm_compute; reflexivity).
  split; [exact sortBy_conforming|]. split; [exact Hn|].
  split; [vm_compute; reflexivity|].
  exact (proj2 (proj2 (proj2
           (top_chunks_selection sortBy sampleQuery sampleCorpus sortBy_conforming))) Hn).
Defined.

(** ** More on the history section *)

Lemma lastN_min {A : Type} (k : nat) (xs : list A) :
  lastN (Nat.min (List.length xs) k) xs = lastN k xs.
Proof. unfold lastN. f_equal. lia. Qed.

Lemma lastN_nil_inv {A : Type} (k : nat) (xs : list A) :
  (0 < k)%nat -> lastN k xs = [] -> xs = [].
Proof.
  intros Hk H. apply (f_equal (@List.length A)) in H.
  unfold lastN in H. rewrite length_skipn in H. simpl in H.
  destruct xs as [|x xs]; [reflexivity|]. simpl in H. lia.
Qed.

(** The question and the answer of an entry: what the prompt shows of it. *)
Lemma renderEntry_shown (l1 l2 : list HistoryEntry) :
  map (fun h => (h_q h, h_a h)) l1 = map (fun h => (h_q h, h_a h)) l2 ->
  map renderEntry l1 = map renderEntry l2.
Proof.
  intros H.
  assert (Hr : forall l : list HistoryEntry,
             map renderEntry l
             = map (fun p : string * string => "Q: " +:+ fst p +:+ nl +:+ "A: " +:+ snd p)
                 (map (fun h => (h_q h, h_a h)) l)).
  { intros l. rewrite map_map. reflexivity. }
  rewrite (Hr l1), (Hr l2), H. reflexivity.
Qed.

(** The prompt remembers six entries and reads two fields of each: two
    documents with the same chunks, whose six most recent entries show
    the same questions and answers, give the same prompt, whatever
    their older entries, file names and time stamps are. *)
Theorem prompt_ignores_older_history (sort : EngineSort) (d1 d2 : Document)
    (qVec : list float) (q : string) :
  doc_chunks d1 = doc_chunks d2 ->
  map (fun h => (h_q h, h_a h)) (lastN 6 (doc_history d1))
  = map (fun h => (h_q h, h_a h)) (lastN 6 (doc_history d2)) ->
  askPrompt sort d1 qVec q = askPrompt sort d2 qVec q.
Proof.
  intros Hc Hh. unfold askPrompt. rewrite Hc. f_equal.
  destruct (doc_history d1) as [|h1 t1] eqn:H1.
  - assert (H2 : doc_history d2 = []).
    { apply (lastN_nil_inv 6); [lia|].
      change (lastN 6 []) with (@nil HistoryEntry) in Hh. simpl in Hh.
      symmetry in Hh. apply map_eq_nil in Hh. exact Hh. }
    rewrite H2. reflexivity.
  - destruct (doc_history d2) as [|h2 t2] eqn:H2.
    + exfalso. change (lastN 6 []) with (@nil HistoryEntry) in Hh. simpl in Hh.
      apply map_eq_nil in Hh. apply lastN_nil_inv in Hh; [discriminate Hh | lia].
    + rewrite !historySection_nonempty by discriminate.
      rewrite !lastN_min. rewrite (renderEntry_shown _ _ Hh). reflexivity.
Qed.

Lemma prompt_ignores_older_history_witness :
  List.length (doc_history longHistoryDocument) = 8%nat
  /\ List.length (doc_history shortHistoryDocument) = 6%nat
  /\ askPrompt sortBy longHistoryDocument sampleQuery "why?"
     = askPrompt sortBy shortHistoryDocument sampleQuery "why?".
Proof.
  split; [reflexivity|]. split; [reflexivity|].
  exact (prompt_ignores_older_history sortBy longHistoryDocument shortHistoryDocument
           sampleQuery "why?" eq_refl ltac:(vm_compute; reflexivity)).
Defined.

(** ** More on [/ask] *)

(** Every [/ask] either leaves the server as it was, or got as far as
    pushing one entry onto the history of the document it names. *)
Lemma ask_cases (env : AskEnv) (st : Server) (req : AskRequest) :
  fst (ask env st req) = st
  \/ exists (q id : string) (doc : Document) (qVec : list float) (answer : string),
       question req = Some q /\ blank q = false
       /\ docId req = Some id /\ JSString.truthy id = true
       /\ documents st !! id = Some doc
       /\ ask_embed env q = Returned qVec
       /\ ask_generate env (askPrompt (ask_sort env) doc qVec q) = Returned answer.
Proof.
  unfold ask.
  destruct (question req) as [q|] eqn:Hq; [|left; reflexivity].
  destruct (blank q) eqn:Hb; [left; reflexivity|].
  destruct (docId req) as [id|] eqn:Hid; [|left; reflexivity].
  destruct (JSString.truthy id) eqn:Ht; simpl; [|left; reflexivity].
  destruct (lookupDocument (documents st) id) as [doc| |] eqn:Hlook.
  - assert (Hdoc : documents st !! id = Some doc).
    { unfold lookupDocument in Hlook. destruct (documents st !! id) as [d|].
      - inversion Hlook. reflexivity.
      - destruct (existsb (String.eqb id) objectPrototypeNames); discriminate. }
    destruct (ask_embed env q) as [qVec|e] eqn:Hemb; [|left; reflexivity].
    destruct (ask_generate env (askPrompt (ask_sort env) doc qVec q)) as [answer|e] eqn:Hgen;
      [|left; reflexivity].
    right. exists q, id, doc, qVec, answer. repeat split; assumption.
  - destruct (ask_embed env q); left; reflexivity.
  - left. reflexivity.
Qed.

Lemma lookupDocument_missing (docs : gmap string Document) (id : string) :
  lookupDocument docs id = Missing
  <-> docs !! id = None /\ ~ In id objectPrototypeNames.
Proof.
  unfold lookupDocument. destruct (docs !! id) as [doc|].
  - split; [discriminate | intros [H _]; discriminate H].
  - destruct (existsb (String.eqb id) objectPrototypeNames) eqn:Hex.
    + split; [discriminate|]. intros [_ Hn]. exfalso. apply Hn.
      apply existsb_exists in Hex. destruct Hex as (x & Hin & Heq).
      apply String.eqb_eq in Heq. subst x. exact Hin.
    + split; [|reflexivity]. intros _. split; [reflexivity|]. intros Hin.
      assert (Hex' : existsb (String.eqb id) objectPrototypeNames = true).
      { apply existsb_exists. exists id. split; [exact Hin | apply String.eqb_refl]. }
      rewrite Hex' in Hex. discriminate Hex.
Qed.

(** On a body whose question is a string or absent, the two tests of
    lines 178 and 179 decide alone whether the answer is 400. *)
Lemma ask_turned_away (env : AskEnv) (st : Server) (req : AskRequest) :
  (status (snd (ask env st req)) = 400 <-> noQuestion req \/ noDocument st req)
  /\ (noQuestion req ->
      ask env st req = (st, failure 400 "No question provided" None))
  /\ (~ noQuestion req -> noDocument st req ->
      ask env st req = (st, failure 400 "Invalid or missing docId" None)).
Proof.
  unfold noQuestion, noDocument, ask.
  destruct (question req) as [q|]; [|split; [split; auto|split; [auto|tauto]]].
  destruct (blank q); [split; [split; auto|split; [auto|intros H; exfalso; auto]]|].
  destruct (docId req) as [id|];
    [|split; [split; auto|split; [discriminate|auto]]].
  destruct (JSString.truthy id); simpl;
    [|split; [split; auto|split; [discriminate|auto]]].
  rewrite <- lookupDocument_missing.
  destruct (lookupDocument (documents st) id) as [doc| |].
  - split; [|split; [discriminate|]].
    + split.
      * destruct (ask_embed env q) as [qVec|e]; [|discriminate].
        destruct (ask_generate env (askPrompt (ask_sort env) doc qVec q)) as [a|e]; [|discriminate].
        destruct (ask_write env); discriminate.
      * intros [H|[H|H]]; discriminate H.
    + intros _ [H|H]; discriminate H.
  - split; [|split; [discriminate|]].
    + split.
      * destruct (ask_embed env q); discriminate.
      * intros [H|[H|H]]; discriminate H.
    + intros _ [H|H]; discriminate H.
  - split; [split; auto|split; [discriminate|auto]].
Qed.

(** [/ask] answers 400 exactly when a body was parsed and its question
    is falsy or a blank string, or is a string that is not blank while
    the id is missing, empty or names nothing; it then leaves the server
    untouched, and its answer does not depend on what the embedding, the
    generation or the file system would have done.  Without a parsed
    body, and with a truthy question that is not a string, line 177 or
    178 throws: the answer is 500 and the server is untouched. *)
Theorem ask_bad_request (env : AskEnv) (st : Server) (b : AskBody) :
  (status (snd (askBody env st b)) = 400
   <-> exists req : AskRequest,
         bodyRequest b = Some req /\ (noQuestion req \/ noDocument st req))
  /\ (forall req : AskRequest,
        bodyRequest b = Some req -> noQuestion req ->
        askBody env st b = (st, failure 400 "No question provided" None))
  /\ (forall req : AskRequest,
        bodyRequest b = Some req -> ~ noQuestion req -> noDocument st req ->
        askBody env st b = (st, failure 400 "Invalid or missing docId" None))
  /\ (bodyRequest b = None ->
      fst (askBody env st b) = st /\ status (snd (askBody env st b)) = 500).
Proof.
  assert (Hsome : forall req, bodyRequest b = Some req -> askBody env st b = ask env st req).
  { intros req Hb. destruct b as [|[|q|] d]; simpl in Hb; try discriminate Hb;
      inversion Hb; reflexivity. }
  split; [|split; [|split]].
  - split.
    + intros H400. destruct (bodyRequest b) as [req|] eqn:Hb.
      * exists req. split; [reflexivity|].
        rewrite (Hsome req eq_refl) in H400.
        exact (proj1 (proj1 (ask_turned_away env st req)) H400).
      * destruct b as [|[|q|] d]; simpl in Hb; try discriminate Hb;
          simpl in H400; discriminate H400.
    + intros (req & Hb & H). rewrite (Hsome req Hb).
      exact (proj2 (proj1 (ask_turned_away env st req)) H).
  - intros req Hb Hq. rewrite (Hsome req Hb).
    exact (proj1 (proj2 (ask_turned_away env st req)) Hq).
  - intros req Hb Hq Hd. rewrite (Hsome req Hb).
    exact (proj2 (proj2 (ask_turned_away env st req)) Hq Hd).
  - intros Hb. destruct b as [|[|q|] d]; simpl in Hb; try discriminate Hb;
      split; reflexivity.
Qed.

Lemma ask_bad_request_witness :
  let blankBody := JsonBody (QuestionString "  ") (Some "5") in
  let numberBody := JsonBody QuestionOther None in
  (noQuestion {| question := Some "  "; docId := Some "5" |}
   /\ askBody (sampleAskEnv "a" (Returned tt)) sampleServer blankBody
      = (sampleServer, failure 400 "No question provided" None))
  /\ status (snd (askBody (sampleAskEnv "a" (Returned tt)) sampleServer numberBody)) = 500.
Proof.
  cbv zeta.
  assert (Hq : noQuestion {| question := Some "  "; docId := Some "5" |})
    by (vm_compute; reflexivity).
  split; [split; [exact Hq|]|].
  - exact (proj1 (proj2 (ask_bad_request (sampleAskEnv "a" (Returned tt)) sampleServer
                           (JsonBody (QuestionString "  ") (Some "5"))))
             {| question := Some "  "; docId := Some "5" |} eq_refl Hq).
  - exact (proj2 (proj2 (proj2 (proj2
             (ask_bad_request (sampleAskEnv "a" (Returned tt)) sampleServer
                (JsonBody QuestionOther None)))) eq_refl)).
Defined.

(** A name that every object inherits from [Object.prototype] passes the
    test [!documents[docId]] although no document is stored under it:
    the request is not turned away with 400, the question is embedded,
    and the request ends with 500 and an unchanged server. *)
Theorem ask_inherited_name (env : AskEnv) (st : Server) (req : AskRequest)
    (q id : string) :
  question req = Some q -> blank q = false ->
  docId req = Some id ->
  In id objectPrototypeNames ->
  documents st !! id = None ->
  fst (ask env st req) = st
  /\ status (snd (ask env st req)) = 500
  /\ (forall e, ask_embed env q = Thrown e -> snd (ask env st req) = askFailed e)
  /\ (forall qVec, ask_embed env q = Returned qVec ->
        exists message, snd (ask env st req) = askFailed (TypeError message)).
Proof.
  intros Hq Hb Hid Hin Hnone.
  assert (Ht : JSString.truthy id = true).
  { unfold objectPrototypeNames in Hin. simpl in Hin.
    repeat (destruct Hin as [<-|Hin]; [reflexivity|]). contradiction. }
  assert (Hex : existsb (String.eqb id) objectPrototypeNames = true).
  { apply existsb_exists. exists id. split; [exact Hin | apply String.eqb_refl]. }
  unfold ask, lookupDocument. rewrite Hq, Hb, Hid, Ht, Hnone, Hex. simpl.
  destruct (ask_embed env q) as [qVec|e]; simpl.
  - repeat split; [discriminate | intros ? _; eauto].
  - repeat split; [intros e' H; inversion H; reflexivity | discriminate].
Qed.

Lemma ask_inherited_name_witness :
  let req := {| question := Some "q"; docId := Some "constructor" |} in
  documents sampleServer !! "constructor" = None
  /\ fst (ask (sampleAskEnv "a" (Returned tt)) sampleServer req) = sampleServer
  /\ status (snd (ask (sampleAskEnv "a" (Returned tt)) sampleServer req)) = 500.
Proof.
  cbv zeta.
  assert (Hnone : documents sampleServer !! "constructor" = None)
    by (vm_compute; reflexivity).
  split; [exact Hnone|].
  pose proof (ask_inherited_name (sampleAskEnv "a" (Returned tt)) sampleServer
                {| question := Some "q"; docId := Some "constructor" |}
                "q" "constructor" eq_refl ltac:(vm_compute; reflexivity) eq_refl
                ltac:(simpl; tauto) Hnone) as (H1 & H2 & _).
  split; [exact H1 | exact H2].
Defined.

(** When the embedding of the question or the generation throws, the
    request ends with 500 and that error, and nothing has been pushed or
    saved. *)
Theorem ask_failure_before_push (env : AskEnv) (st : Server) (req : AskRequest)
    (q id : string) (doc : Document) (e : JSError) :
  question req = Some q -> blank q = false ->
  docId req = Some id -> JSString.truthy id = true ->
  documents st !! id = Some doc ->
  (ask_embed env q = Thrown e
   \/ exists qVec, ask_embed env q = Returned qVec
                   /\ ask_generate env (askPrompt (ask_sort env) doc qVec q) = Thrown e) ->
  ask env st req = (st, askFailed e).
Proof.
  intros Hq Hb Hid Ht Hdoc H. unfold ask, lookupDocument.
  rewrite Hq, Hb, Hid, Ht, Hdoc. simpl.
  destruct H as [He|(qVec & He & Hg)]; rewrite He; [reflexivity|].
  rewrite Hg. reflexivity.
Qed.

Lemma ask_failure_before_push_witness :
  ask failingAskEnv sampleServer (sampleAskRequest "q")
  = (sampleServer, askFailed (Error "quota")).
Proof.
  exact (ask_failure_before_push failingAskEnv sampleServer (sampleAskRequest "q")
           "q" "5" sampleDocument (Error "quota")
           eq_refl ltac:(vm_compute; reflexivity) eq_refl ltac:(vm_compute; reflexivity)
           ltac:(vm_compute; reflexivity) (or_introl eq_refl)).
Defined.

(** [/ask] never creates or removes a document and never touches the
    file name, the chunks or the creation time of one; the history of a
    document is left alone or grows by one entry at its end, and only
    for the document the request names. *)
Theorem ask_frame (env : AskEnv) (st : Server) (req : AskRequest) (id : string) :
  let st' := fst (ask env st req) in
  match documents st !! id with
  | None => documents st' !! id = None
  | Some doc =>
      exists doc' : Document,
        documents st' !! id = Some doc'
        /\ doc_filename doc' = doc_filename doc
        /\ doc_chunks doc' = doc_chunks doc
        /\ doc_createdAt doc' = doc_createdAt doc
        /\ (doc_history doc' = doc_history doc
            \/ (docId req = Some id
                /\ exists entry, doc_history doc' = doc_history doc ++ [entry]))
  end.
Proof.
  intros st'. subst st'.
  destruct (ask_cases env st req)
    as [->|(q & id0 & doc0 & qVec & answer & Hq & Hb & Hid & Ht & Hdoc & Hemb & Hgen)].
  - destruct (documents st !! id) as [doc|]; [|reflexivity].
    exists doc. repeat split; auto.
  - rewrite (ask_reaches_save env st req q id0 doc0 qVec answer Hq Hb Hid Ht Hdoc Hemb Hgen).
    assert (Hdocs : documents
                      (fst match saveDocuments (ask_write env)
                                   (pushHistory st id0 doc0
                                      {| h_q := q; h_a := answer;
                                         h_createdAt := ask_now env |}) with
                           | (st2, Thrown e) => (st2, askFailed e)
                           | (st2, Returned _) =>
                               (st2, {| status := 200;
                                        body := AskOk answer
                                                  (doc_history doc0 ++
                                                   [{| h_q := q; h_a := answer;
                                                       h_createdAt := ask_now env |}]) |})
                           end)
                    = <[id0 := withEntry doc0 {| h_q := q; h_a := answer;
                                                 h_createdAt := ask_now env |}]>
                        (documents st)).
    { unfold saveDocuments. destruct (ask_write env); reflexivity. }
    rewrite Hdocs. destruct (decide (id0 = id)) as [->|Hne].
    + rewrite Hdoc, lookup_insert_eq. eexists. split; [reflexivity|].
      simpl. repeat split. right. split; [exact Hid|]. eauto.
    + rewrite lookup_insert_ne by exact Hne.
      destruct (documents st !! id) as [doc|]; [|reflexivity].
      exists doc. repeat split; auto.
Qed.

(** The success response of [/ask] carries the answer the generation
    returned and the history as it is now stored: the former history
    followed by one entry that pairs the question with that answer. *)
Theorem ask_success_response (env : AskEnv) (st : Server) (req : AskRequest) :
  succeeded (snd (ask env st req)) = true ->
  exists (q id : string) (doc : Document) (qVec : list float) (answer : string),
    question req = Some q /\ docId req = Some id
    /\ documents st !! id = Some doc
    /\ ask_embed env q = Returned qVec
    /\ ask_generate env (askPrompt (ask_sort env) doc qVec q) = Returned answer
    /\ let entry := {| h_q := q; h_a := answer; h_createdAt := ask_now env |} in
       snd (ask env st req)
       = {| status := 200; body := AskOk answer (doc_history doc ++ [entry]) |}
       /\ (doc_history <$> documents (fst (ask env st req)) !! id)
          = Some (doc_history doc ++ [entry]).
Proof.
  intros H.
  destruct (ask_succeeded_inv env st req H)
    as (q & id & doc & qVec & answer & u & Hq & Hb & Hid & Ht & Hdoc & Hemb & Hgen & Hw).
  exists q, id, doc, qVec, answer. repeat (split; [assumption|]).
  rewrite (ask_reaches_save env st req q id doc qVec answer Hq Hb Hid Ht Hdoc Hemb Hgen).
  unfold saveDocuments. rewrite Hw. simpl. split; [reflexivity|].
  rewrite lookup_insert_eq. reflexivity.
Qed.

Lemma ask_success_response_witness :
  exists (answer : string) (entry : HistoryEntry),
    snd (ask (sampleAskEnv "a" (Returned tt)) sampleServer (sampleAskRequest "q"))
    = {| status := 200; body := AskOk answer (doc_history sampleDocument ++ [entry]) |}.
Proof.
  pose proof (ask_success_response (sampleAskEnv "a" (Returned tt)) sampleServer
                (sampleAskRequest "q") ltac:(vm_compute; reflexivity)) as H.
  destruct H as (q & id & doc & qVec & answer & _ & Hid & Hdoc & _ & _ & Hr & _).
  assert (Hd : doc = sampleDocument).
  { injection Hid as <-. vm_compute in Hdoc. injection Hdoc as <-. reflexivity. }
  subst doc. exists answer. eexists. exact Hr.
Defined.

(** ** More on [/upload] *)

(** Every [/upload] either leaves the server as it was, or got as far as
    assigning its document. *)
Lemma upload_cases (env : UploadEnv) (st : Server) (file : option UploadedFile) :
  fst (upload env st file) = st
  \/ exists (f : UploadedFile) (text : string) (embedded : list Chunk),
       file = Some f
       /\ supportedExt (ext f) = true
       /\ up_extract env = Returned text
       /\ embedChunks (up_embed env) 0 (chunkTextDefault text) [] = Returned embedded
       /\ upload env st file
          = match saveDocuments (up_write env)
                    {| documents := <[docIdOf (up_nowId env)
                                      := uploadedDocument env f embedded]> (documents st);
                       storage := storage st |} with
            | (st2, Thrown e) => (st2, uploadFailed e)
            | (st2, Returned _) =>
                (st2, {| status := 200;
                         body := UploadOk (docIdOf (up_nowId env)) (originalname f)
                                   (List.length embedded) |})
            end.
Proof.
  unfold upload. destruct file as [f|]; [|left; reflexivity].
  destruct (supportedExt (ext f)) eqn:Hext; simpl.
  2: { destruct (up_unlink env); left; reflexivity. }
  destruct (up_extract env) as [text|e] eqn:Hex; [|left; reflexivity].
  destruct (embedChunks (up_embed env) 0 (chunkTextDefault text) []) as [embedded|e]
    eqn:Hemb; [|left; reflexivity].
  right. exists f, text, embedded. repeat split; try assumption.
Qed.

(** [/upload] turns a request away with 400 exactly when it carries no
    file, or a file of another type than [.pdf], [.docx], [.doc] or
    [.txt] whose removal succeeded; no file, an unsupported type and a
    failed extraction all leave the server untouched. *)
Theorem upload_bad_request (env : UploadEnv) (st : Server) (file : option UploadedFile) :
  (status (snd (upload env st file)) = 400
   <-> file = None
       \/ exists f u, file = Some f /\ supportedExt (ext f) = false
                      /\ up_unlink env = Returned u)
  /\ (file = None -> upload env st file = (st, failure 400 "No file uploaded" None))
  /\ (forall f, file = Some f -> supportedExt (ext f) = false ->
        fst (upload env st file) = st
        /\ (forall u, up_unlink env = Returned u ->
              snd (upload env st file) = failure 400 "Unsupported file type" None)
        /\ (forall e, up_unlink env = Thrown e ->
              snd (upload env st file) = uploadFailed e))
  /\ (forall f e, file = Some f -> supportedExt (ext f) = true ->
        up_extract env = Thrown e ->
        upload env st file = (st, uploadFailed e)).
Proof.
  split; [|split; [|split]].
  - unfold upload. destruct file as [f|].
    2: { split; [auto | reflexivity]. }
    destruct (supportedExt (ext f)) eqn:Hext; simpl.
    + split.
      * destruct (up_extract env) as [text|e]; [|discriminate].
        destruct (embedChunks (up_embed env) 0 (chunkTextDefault text) []);
          [|discriminate].
        destruct (up_write env); discriminate.
      * intros [H|(f' & u & H & Hs & _)]; [discriminate H|].
        inversion H; subst f'. rewrite Hext in Hs. discriminate Hs.
    + destruct (up_unlink env) as [u|e] eqn:Hu; simpl.
      * split; [|reflexivity]. intros _. right. exists f, u. auto.
      * split; [discriminate|]. intros [H|(f' & u & _ & _ & H)]; discriminate H.
  - intros ->. reflexivity.
  - intros f -> Hext. unfold upload. rewrite Hext. simpl.
    destruct (up_unlink env) as [u|e]; simpl; repeat split;
      try discriminate; try reflexivity.
    intros e' H. inversion H. reflexivity.
  - intros f e -> Hext Hex. unfold upload. rewrite Hext, Hex. reflexivity.
Qed.

Lemma upload_bad_request_witness :
  let env := sampleUploadEnv 8 (Returned [1%float]) (Returned tt) in
  supportedExt (ext sampleImage) = false
  /\ fst (upload env sampleServer (Some sampleImage)) = sampleServer
  /\ snd (upload env sampleServer (Some sampleImage))
     = failure 400 "Unsupported file type" None.
Proof.
  cbv zeta. split; [vm_compute; reflexivity|].
  pose proof (proj1 (proj2 (proj2
                (upload_bad_request (sampleUploadEnv 8 (Returned [1%float]) (Returned tt))
                   sampleServer (Some sampleImage))))
                sampleImage eq_refl ltac:(vm_compute; reflexivity)) as (H1 & H2 & _).
  split; [exact H1 | exact (H2 tt eq_refl)].
Defined.

(** [/upload] touches one id at most, the one it generates from the
    clock: every other id keeps its document (or stays absent), and no
    id that held a document loses it. *)
Theorem upload_frame (env : UploadEnv) (st : Server) (file : option UploadedFile) :
  let st' := fst (upload env st file) in
  (forall id : string,
      id <> docIdOf (up_nowId env) -> documents st' !! id = documents st !! id)
  /\ (forall id : string,
        is_Some (documents st !! id) -> is_Some (documents st' !! id)).
Proof.
  intros st'. subst st'.
  destruct (upload_cases env st file)
    as [->|(f & text & embedded & -> & Hext & Hex & Hemb & ->)].
  - split; auto.
  - assert (Hdocs : forall (write : Outcome unit) (s : Server) (ok : Response)
                           (ko : JSError -> Response),
               documents (fst match saveDocuments write s with
                              | (st2, Thrown e) => (st2, ko e)
                              | (st2, Returned _) => (st2, ok)
                              end) = documents s).
    { intros write s ok ko. unfold saveDocuments. destruct write; reflexivity. }
    rewrite (Hdocs (up_write env) _ _ uploadFailed). simpl. split.
    + intros id Hne. apply lookup_insert_ne. congruence.
    + intros id Hsome. destruct (decide (docIdOf (up_nowId env) = id)) as [<-|Hne].
      * rewrite lookup_insert_eq. eauto.
      * rewrite lookup_insert_ne by exact Hne. exact Hsome.
Qed.

Lemma upload_frame_witness :
  let env := sampleUploadEnv 8 (Returned [1%float]) (Returned tt) in
  "5" <> docIdOf (up_nowId env)
  /\ documents (fst (upload env sampleServer (Some sampleFile))) !! "5"
     = documents sampleServer !! "5".
Proof.
  cbv zeta.
  assert (Hne : "5" <> docIdOf (up_nowId (sampleUploadEnv 8 (Returned [1%float]) (Returned tt))))
    by (vm_compute; discriminate).
  split; [exact Hne|].
  exact (proj1 (upload_frame (sampleUploadEnv 8 (Returned [1%float]) (Returned tt))
                  sampleServer (Some sampleFile)) "5" Hne).
Defined.



(** The durable copy falls out of step with the store only through a
    write that throws: when the two agree and the write of a request
    returns, they agree after the request, whatever else happened; so
    they agree after any run of questions whose writes all return. *)
Theorem sync_preserved :
  (forall (env : UploadEnv) (st : Server) (file : option UploadedFile) (u : unit),
      inSync st -> up_write env = Returned u -> inSync (fst (upload env st file)))
  /\ (forall (env : AskEnv) (st : Server) (req : AskRequest) (u : unit),
        inSync st -> ask_write env = Returned u -> inSync (fst (ask env st req)))
  /\ (forall (reqs : list (AskEnv * AskRequest)) (st : Server),
        inSync st ->
        Forall (fun er => exists u, ask_write (fst er) = Returned u) reqs ->
        inSync (fst (runAsks st reqs))).
Proof.
  assert (Hask : forall (env : AskEnv) (st : Server) (req : AskRequest) (u : unit),
             inSync st -> ask_write env = Returned u -> inSync (fst (ask env st req))).
  { intros env st req u Hs Hw.
    destruct (ask_cases env st req)
      as [->|(q & id & doc & qVec & answer & Hq & Hb & Hid & Ht & Hdoc & Hemb & Hgen)];
      [exact Hs|].
    rewrite (ask_reaches_save env st req q id doc qVec answer Hq Hb Hid Ht Hdoc Hemb Hgen).
    unfold saveDocuments. rewrite Hw. reflexivity. }
  split; [|split].
  - intros env st file u Hs Hw.
    destruct (upload_cases env st file)
      as [->|(f & text & embedded & -> & Hext & Hex & Hemb & ->)]; [exact Hs|].
    unfold saveDocuments. rewrite Hw. reflexivity.
  - exact Hask.
  - induction reqs as [|[env req] rest IH]; intros st Hs Hall; simpl.
    + exact Hs.
    + inversion Hall as [|? ? [u Hu] Hall']; subst. simpl in Hu.
      pose proof (Hask env st req u Hs Hu) as Hs1.
      destruct (ask env st req) as [st1 r]. simpl in Hs1.
      specialize (IH st1 Hs1 Hall').
      destruct (runAsks st1 rest) as [st2 rs]. exact IH.
Qed.

Lemma sync_preserved_witness :
  inSync sampleServer
  /\ inSync (fst (ask failingAskEnv sampleServer (sampleAskRequest "q")))
  /\ inSync (fst (runAsks freshServer sampleRun)).
Proof.
  assert (Hs : inSync sampleServer) by reflexivity.
  split; [exact Hs|]. split.
  - exact (proj1 (proj2 sync_preserved) failingAskEnv sampleServer
             (sampleAskRequest "q") tt Hs eq_refl).
  - apply (proj2 (proj2 sync_preserved) sampleRun freshServer); [reflexivity|].
    repeat constructor; exists tt; reflexivity.
Defined.

(** The loop of embedding calls keeps the chunks in order: the texts of
    the embedded chunks are the raw chunks, and the embedding of the
    [k]-th one is what the [k]-th call returned. *)
Lemma embedChunks_returned (embed : nat -> string -> Outcome (list float))
    (rawChunks : list string) :
  forall (start : nat) (acc embedded : list Chunk),
    embedChunks embed start rawChunks acc = Returned embedded ->
    exists fresh : list Chunk,
      embedded = acc ++ fresh
      /\ map chunk_text fresh = rawChunks
      /\ (forall (k : nat) (c : Chunk),
            fresh !! k = Some c ->
            embed (start + k)%nat (chunk_text c) = Returned (chunk_embedding c)).
Proof.
  induction rawChunks as [|c rest IH]; intros start acc embedded H; simpl in H.
  - inversion H; subst. exists []. rewrite app_nil_r. repeat split.
    intros k c Hk. discriminate Hk.
  - destruct (embed start c) as [vec|e] eqn:Hc; [|discriminate].
    destruct (IH _ _ _ H) as (fresh & -> & Htexts & Hemb).
    exists ({| chunk_text := c; chunk_embedding := vec |} :: fresh).
    split; [rewrite <- app_assoc; reflexivity|]. split.
    + simpl. rewrite Htexts. reflexivity.
    + intros k c' Hk. destruct k as [|k]; simpl in Hk.
      * inversion Hk; subst c'. simpl. rewrite Nat.add_0_r. exact Hc.
      * replace (start + S k)%nat with (S start + k)%nat by lia.
        apply Hemb. exact Hk.
Qed.

Lemma chunkTextDefault_windows (text : string) :
  chunkTextDefault text
  = map (fun k => window text (k * 600) 800)
      (seq 0 (chunkCount text defaultChunkSize defaultOverlap)).
Proof.
  pose proof (chunkTextDefault_run text (S (String.length text)) ltac:(lia)) as Hrun.
  exact (chunkText_some_windows text defaultChunkSize defaultOverlap _ _
           ltac:(unfold defaultChunkSize, defaultOverlap; lia) Hrun).
Qed.

(** What a successful upload stores: the windows of 800 code units cut
    every 600 code units from the extracted text, in order, each with
    the vector that the embedding call for it returned, and an empty
    history; the count in the response is [ceil (len / 600)]. *)
Theorem upload_success_contents (env : UploadEnv) (st : Server)
    (file : option UploadedFile) :
  succeeded (snd (upload env st file)) = true ->
  exists (f : UploadedFile) (text : string) (doc : Document),
    file = Some f
    /\ up_extract env = Returned text
    /\ documents (fst (upload env st file)) !! docIdOf (up_nowId env) = Some doc
    /\ doc_filename doc = originalname f
    /\ doc_history doc = []
    /\ map chunk_text (doc_chunks doc)
       = map (fun k => window text (k * 600) 800)
           (seq 0 (Z.to_nat (ceilDiv (JSString.len text) 600)))
    /\ (forall (k : nat) (c : Chunk),
          doc_chunks doc !! k = Some c ->
          up_embed env k (chunk_text c) = Returned (chunk_embedding c))
    /\ body (snd (upload env st file))
       = UploadOk (docIdOf (up_nowId env)) (originalname f)
           (Z.to_nat (ceilDiv (JSString.len text) 600)).
Proof.
  intros H.
  destruct (upload_succeeded_inv env st file H)
    as (f & text & embedded & u & -> & Hext & Hex & Hemb & Hw).
  rewrite (upload_success env st f text embedded u Hext Hex Hemb Hw).
  destruct (embedChunks_returned _ _ _ _ _ Hemb) as (fresh & -> & Htexts & Hvec).
  simpl app in *. rewrite chunkTextDefault_windows in Htexts.
  exists f, text, (uploadedDocument env f fresh).
  split; [reflexivity|]. split; [exact Hex|].
  split; [apply lookup_insert_eq|]. split; [reflexivity|]. split; [reflexivity|].
  split; [exact Htexts|]. split; [exact Hvec|].
  simpl. f_equal.
  rewrite <- (length_map chunk_text fresh), Htexts, length_map, length_seq.
  reflexivity.
Qed.

Lemma upload_success_contents_witness :
  let env := sampleUploadEnv 8 (Returned [1%float]) (Returned tt) in
  succeeded (snd (upload env sampleServer (Some sampleFile))) = true
  /\ exists doc : Document,
       documents (fst (upload env sampleServer (Some sampleFile))) !! docIdOf 8 = Some doc
       /\ doc_history doc = []
       /\ map chunk_text (doc_chunks doc) = ["AAAABBBB"].
Proof.
  cbv zeta.
  assert (Hok : succeeded (snd (upload (sampleUploadEnv 8 (Returned [1%float]) (Returned tt))
                                  sampleServer (Some sampleFile))) = true)
    by (vm_compute; reflexivity).
  split; [exact Hok|].
  destruct (upload_success_contents _ _ _ Hok)
    as (f & text & doc & _ & Hex & Hdoc & _ & Hh & Ht & _).
  injection Hex as <-.
  exists doc. split; [exact Hdoc|]. split; [exact Hh|]. exact Ht.
Defined.

(** Ids are the decimal text of the clock reading, so two uploads made
    at different readings never share an id: after both have succeeded
    the store holds both documents. *)
Theorem uploads_at_distinct_times (env1 env2 : UploadEnv) (st : Server)
    (file1 file2 : option UploadedFile) :
  let st1 := fst (upload env1 st file1) in
  let st2 := fst (upload env2 st1 file2) in
  succeeded (snd (upload env1 st file1)) = true ->
  succeeded (snd (upload env2 st1 file2)) = true ->
  up_nowId env1 <> up_nowId env2 ->
  docIdOf (up_nowId env1) <> docIdOf (up_nowId env2)
  /\ is_Some (documents st2 !! docIdOf (up_nowId env2))
  /\ is_Some (documents st1 !! docIdOf (up_nowId env1))
  /\ documents st2 !! docIdOf (up_nowId env1) = documents st1 !! docIdOf (up_nowId env1).
Proof.
  intros st1 st2 H1 H2 Hne.
  assert (Hid : docIdOf (up_nowId env1) <> docIdOf (up_nowId env2)).
  { unfold docIdOf. intros Heq. apply Hne. exact (pretty_Z_inj _ _ Heq). }
  split; [exact Hid|].
  destruct (upload_succeeded_inserts env2 st1 file2 H2) as (f2 & emb2 & _ & Hd2).
  destruct (upload_succeeded_inserts env1 st file1 H1) as (f1 & emb1 & _ & Hd1).
  fold st1 in Hd1. fold st2 in Hd2. split; [|split].
  - rewrite Hd2, lookup_insert_eq. eauto.
  - rewrite Hd1, lookup_insert_eq. eauto.
  - rewrite Hd2. apply lookup_insert_ne. congruence.
Qed.

Lemma uploads_at_distinct_times_witness :
  let env1 := sampleUploadEnv 8 (Returned [1%float]) (Returned tt) in
  let env2 := sampleUploadEnv 9 (Returned [1%float]) (Returned tt) in
  let st1 := fst (upload env1 sampleServer (Some sampleFile)) in
  let st2 := fst (upload env2 st1 (Some sampleFile)) in
  is_Some (documents st2 !! docIdOf 8) /\ is_Some (documents st2 !! docIdOf 9).
Proof.
  cbv zeta.
  pose proof (uploads_at_distinct_times
                (sampleUploadEnv 8 (Returned [1%float]) (Returned tt))
                (sampleUploadEnv 9 (Returned [1%float]) (Returned tt))
                sampleServer (Some sampleFile) (Some sampleFile)
                ltac:(vm_compute; reflexivity) ltac:(vm_compute; reflexivity)
                ltac:(simpl; lia)) as (_ & H2 & H1 & Hsame).
  split; [|exact H2].
  change (up_nowId (sampleUploadEnv 8 (Returned [1%float]) (Returned tt))) with 8 in *.
  rewrite Hsame. exact H1.
Defined.

(** ** The listing route *)

(** The listing follows the store: it has a summary for exactly the ids
    that hold a document; a successful upload adds (or replaces) the
    summary of its id, with the chunk count of its response and no
    history, and a successful question raises the history count of its
    document by one; all other summaries stay as they are. *)
Theorem listing_follows_store :
  (forall (st : Server) (id : string),
      listDocuments st !! id = summarise <$> documents st !! id)
  /\ (forall (env : UploadEnv) (st : Server) (file : option UploadedFile)
             (id filename : string) (count : nat),
        body (snd (upload env st file)) = UploadOk id filename count ->
        let st' := fst (upload env st file) in
        listDocuments st' !! id
        = Some {| sum_filename := filename; sum_chunksCount := count;
                  sum_historyCount := 0; sum_createdAt := up_nowCreated env |}
        /\ (forall id', id' <> id -> listDocuments st' !! id' = listDocuments st !! id'))
  /\ (forall (env : AskEnv) (st : Server) (req : AskRequest),
        succeeded (snd (ask env st req)) = true ->
        let st' := fst (ask env st req) in
        exists (id : string) (s : Summary),
          docId req = Some id
          /\ listDocuments st !! id = Some s
          /\ listDocuments st' !! id
             = Some {| sum_filename := sum_filename s;
                       sum_chunksCount := sum_chunksCount s;
                       sum_historyCount := S (sum_historyCount s);
                       sum_createdAt := sum_createdAt s |}
          /\ (forall id', id' <> id ->
                listDocuments st' !! id' = listDocuments st !! id')).
Proof.
  split; [|split].
  - intros st id. unfold listDocuments. apply lookup_fmap.
  - intros env st file id filename count Hbody st'. subst st'.
    assert (Hok : succeeded (snd (upload env st file)) = true)
      by (unfold succeeded; rewrite Hbody; reflexivity).
    destruct (upload_succeeded_inv env st file Hok)
      as (f & text & embedded & u & -> & Hext & Hex & Hemb & Hw).
    rewrite (upload_success env st f text embedded u Hext Hex Hemb Hw) in *.
    simpl in Hbody. inversion Hbody; subst id filename count.
    unfold listDocuments. simpl. split.
    + rewrite lookup_fmap, lookup_insert_eq. reflexivity.
    + intros id' Hne. rewrite !lookup_fmap, lookup_insert_ne by congruence.
      reflexivity.
  - intros env st req Hok st'. subst st'.
    destruct (ask_succeeded_appends env st req Hok)
      as (q & id & doc & answer & Hq & Hid & Hdoc & Hdocs).
    exists id, (summarise doc). unfold listDocuments. rewrite Hdocs.
    split; [exact Hid|]. split; [rewrite lookup_fmap, Hdoc; reflexivity|]. split.
    + rewrite lookup_fmap, lookup_insert_eq. simpl. unfold summarise. simpl.
      rewrite length_app. simpl. do 2 f_equal. lia.
    + intros id' Hne. rewrite !lookup_fmap, lookup_insert_ne by congruence.
      reflexivity.
Qed.

Lemma listing_follows_store_witness :
  let env := sampleUploadEnv 8 (Returned [1%float]) (Returned tt) in
  listDocuments (fst (upload env sampleServer (Some sampleFile))) !! "8"
  = Some {| sum_filename := "notes.txt"; sum_chunksCount := 1;
            sum_historyCount := 0; sum_createdAt := 8 |}.
Proof.
  cbv zeta.
  exact (proj1 (proj1 (proj2 listing_follows_store)
                  (sampleUploadEnv 8 (Returned [1%float]) (Returned tt))
                  sampleServer (Some sampleFile) "8" "notes.txt" 1%nat
                  ltac:(vm_compute; reflexivity))).
Defined.

(** ** The chat list of the client *)

(** [appendMessage] keeps the chats, their order, ids and titles.  When
    no chat has the active id (none is selected, or the id is stale) the
    message is dropped and the list is unchanged; otherwise the chat
    shown as active afterwards is the one shown before with the message
    added at the end.  A chat with another id is left as it is, and
    every chat with the active id receives the message, not only the
    one that is shown. *)
Theorem appendMessage_active_chat (activeChatId : option string) (msg : Message)
    (chats : list Chat) :
  map chat_id (appendMessage activeChatId msg chats) = map chat_id chats
  /\ map chat_title (appendMessage activeChatId msg chats) = map chat_title chats
  /\ match activeChat chats activeChatId with
     | None => appendMessage activeChatId msg chats = chats
     | Some c =>
         activeChat (appendMessage activeChatId msg chats) activeChatId
         = Some (withMessage c msg)
     end
  /\ (forall (i : nat) (c : Chat),
        chats !! i = Some c -> isActive activeChatId c = false ->
        appendMessage activeChatId msg chats !! i = Some c)
  /\ (forall (i : nat) (c : Chat),
        chats !! i = Some c -> isActive activeChatId c = true ->
        appendMessage activeChatId msg chats !! i = Some (withMessage c msg)).
Proof.
  unfold appendMessage, activeChat.
  assert (Hmap : forall (f : Chat -> Chat) (l : list Chat) (i : nat) (c : Chat),
             l !! i = Some c -> map f l !! i = Some (f c)).
  { intros f l. induction l as [|c0 l IH]; intros i c Hi; [discriminate Hi|].
    destruct i as [|i]; simpl in *.
    - inversion Hi. reflexivity.
    - apply IH. exact Hi. }
  split; [|split; [|split; [|split]]].
  - rewrite map_map. apply map_ext. intros c.
    destruct (isActive activeChatId c); reflexivity.
  - rewrite map_map. apply map_ext. intros c.
    destruct (isActive activeChatId c); reflexivity.
  - induction chats as [|c chats IH]; simpl; [reflexivity|].
    destruct (isActive activeChatId c) eqn:Hc.
    + simpl. assert (Hc' : isActive activeChatId (withMessage c msg) = true)
        by (destruct activeChatId; exact Hc).
      rewrite Hc'. reflexivity.
    + simpl. rewrite Hc. destruct (List.find (isActive activeChatId) chats).
      * exact IH.
      * rewrite IH. reflexivity.
  - intros i c Hi Hc. rewrite (Hmap _ _ _ _ Hi), Hc. reflexivity.
  - intros i c Hi Hc. rewrite (Hmap _ _ _ _ Hi), Hc. reflexivity.
Qed.

Lemma appendMessage_active_chat_witness :
  activeChat (appendMessage (Some "1") sampleMessage sampleChats) (Some "1")
  = Some {| chat_id := "1"; chat_title := "Welcome";
            chat_messages := [ {| msg_sender := "bot"; msg_text := "hello" |};
                               sampleMessage ];
            chat_createdAt := 1 |}
  /\ appendMessage (Some "1") sampleMessage sampleChats !! 0%nat
     = Some {| chat_id := "2"; chat_title := "New Chat"; chat_messages := [];
               chat_createdAt := 2 |}.
Proof.
  pose proof (appendMessage_active_chat (Some "1") sampleMessage sampleChats)
    as (_ & _ & H3 & H4 & _).
  split; [exact H3|].
  exact (H4 0%nat _ eq_refl eq_refl).
Defined.

(** ** An upload followed by a question *)

Lemma pretty_N_go_nonempty (x : N) (s : string) :
  s <> EmptyString -> pretty_N_go x s <> EmptyString.
Proof.
  revert s. induction (N.lt_wf_0 x) as [x _ IH]; intros s Hs.
  assert (Hx : (x = 0 \/ 0 < x)%N) by lia. destruct Hx as [->|Hx].
  - rewrite pretty_N_go_0. exact Hs.
  - rewrite pretty_N_go_step by exact Hx. apply IH.
    + apply N.div_lt; lia.
    + discriminate.
Qed.

(** The decimal text of a clock reading is never empty. *)
Lemma docIdOf_truthy (now : Z) : JSString.truthy (docIdOf now) = true.
Proof.
  assert (Hn : forall p : positive, pretty (N.pos p) <> EmptyString).
  { intros p. unfold pretty, pretty_N.
    destruct (decide (N.pos p = 0%N)) as [H|_]; [discriminate H|].
    rewrite pretty_N_go_step by lia. apply pretty_N_go_nonempty. discriminate. }
  unfold docIdOf. destruct now as [|p|p]; [reflexivity| |reflexivity].
  change (pretty (Z.pos p)) with (pretty (N.pos p)).
  specialize (Hn p). destruct (pretty (N.pos p)); [contradiction | reflexivity].
Qed.

(** The id that a successful upload reports is one that [/ask] accepts:
    a question on it is never turned away with 400; its prompt shows the
    history section [None]; and when the embedding of the question, the
    generation and the write succeed, the answer comes back with a
    history of exactly one entry. *)
Theorem upload_then_ask (uenv : UploadEnv) (aenv : AskEnv) (st : Server)
    (file : option UploadedFile) (id filename : string) (count : nat)
    (req : AskRequest) (q : string) :
  body (snd (upload uenv st file)) = UploadOk id filename count ->
  question req = Some q -> blank q = false -> docId req = Some id ->
  let st1 := fst (upload uenv st file) in
  exists doc : Document,
    documents st1 !! id = Some doc
    /\ List.length (doc_chunks doc) = count
    /\ status (snd (ask aenv st1 req)) <> 400
    /\ (forall (sort : EngineSort) (qVec : list float),
          askPrompt sort doc qVec q
          = buildPrompt (topChunks (rankChunks sort qVec (doc_chunks doc))) "None" q)
    /\ (forall (qVec : list float) (answer : string) (u : unit),
          ask_embed aenv q = Returned qVec ->
          ask_generate aenv (askPrompt (ask_sort aenv) doc qVec q) = Returned answer ->
          ask_write aenv = Returned u ->
          snd (ask aenv st1 req)
          = {| status := 200;
               body := AskOk answer
                         [ {| h_q := q; h_a := answer; h_createdAt := ask_now aenv |} ] |}).
Proof.
  intros Hbody Hq Hb Hid st1. subst st1.
  assert (Hok : succeeded (snd (upload uenv st file)) = true)
    by (unfold succeeded; rewrite Hbody; reflexivity).
  destruct (upload_succeeded_inv uenv st file Hok)
    as (f & text & embedded & u0 & -> & Hext & Hex & Hemb & Hw).
  rewrite (upload_success uenv st f text embedded u0 Hext Hex Hemb Hw) in *.
  simpl in Hbody. inversion Hbody; subst id filename count. simpl fst.
  set (st1 := {| documents := <[docIdOf (up_nowId uenv)
                                 := uploadedDocument uenv f embedded]> (documents st);
                 storage := _ |}).
  assert (Hdoc : documents st1 !! docIdOf (up_nowId uenv)
                 = Some (uploadedDocument uenv f embedded))
    by apply lookup_insert_eq.
  exists (uploadedDocument uenv f embedded).
  split; [exact Hdoc|]. split; [reflexivity|]. split; [|split].
  - intros H400. apply (proj1 (ask_turned_away aenv st1 req)) in H400.
    unfold noQuestion, noDocument in H400. rewrite Hq, Hid, Hb in H400.
    rewrite docIdOf_truthy, Hdoc in H400.
    destruct H400 as [H|[H|[H _]]]; discriminate H.
  - intros qVec. reflexivity.
  - intros qVec answer u He Hg Hwr.
    rewrite (ask_reaches_save aenv st1 req q _ _ qVec answer Hq Hb Hid
               (docIdOf_truthy _) Hdoc He Hg).
    unfold saveDocuments. rewrite Hwr. reflexivity.
Qed.

Lemma upload_then_ask_witness :
  let uenv := sampleUploadEnv 8 (Returned [1%float]) (Returned tt) in
  let st1 := fst (upload uenv sampleServer (Some sampleFile)) in
  snd (ask (sampleAskEnv "a" (Returned tt)) st1
         {| question := Some "q"; docId := Some "8" |})
  = {| status := 200;
       body := AskOk "a" [ {| h_q := "q"; h_a := "a"; h_createdAt := 7 |} ] |}.
Proof.
  cbv zeta.
  destruct (upload_then_ask (sampleUploadEnv 8 (Returned [1%float]) (Returned tt))
              (sampleAskEnv "a" (Returned tt)) sampleServer (Some sampleFile)
              "8" "notes.txt" 1%nat {| question := Some "q"; docId := Some "8" |} "q"
              ltac:(vm_compute; reflexivity) eq_refl ltac:(vm_compute; reflexivity) eq_refl)
    as (doc & _ & _ & _ & _ & H).
  exact (H [1%float] "a" tt eq_refl eq_refl eq_refl).
Defined.
